(** * splice_deed: gutter detection and page splitting

    A shallow embedding of [skills/splice-deed/scripts/splice_deed.py].
    Python [int] is [Z]; Python [float] is IEEE-754 binary64, taken from
    the reference specification [SpecFloat] (precision 53, emax 1024,
    round to nearest even); exceptions are an explicit error type. *)

From Stdlib Require Import ZArith List Bool Lia.
From Stdlib Require Import Strings.Byte.
From Stdlib Require Import SpecFloat.
Import ListNotations.
Open Scope Z_scope.

(** ** Python values *)

Module Py.

Inductive exn := ValueError | OverflowError | ZeroDivisionError.

(** Result of evaluating an expression that may raise. *)
Inductive res (A : Type) :=
| Ret (a : A)
| Raise (e : exn).
Arguments Ret {A} a.
Arguments Raise {A} e.

Definition bind {A B} (m : res A) (k : A -> res B) : res B :=
  match m with
  | Ret a => k a
  | Raise e => Raise e
  end.

Definition float := spec_float.

Definition prec := 53.
Definition emax := 1024.

Definition fmul : float -> float -> float := SFmul prec emax.
Definition fdiv_raw : float -> float -> float := SFdiv prec emax.

(** [float(n)]: the nearest double; [OverflowError] when it is out of range. *)
Definition float_of_int (n : Z) : res float :=
  match binary_normalize prec emax n 0 false with
  | S754_infinity _ => Raise OverflowError
  | f => Ret f
  end.

Definition is_zero (x : float) : bool :=
  match x with
  | S754_zero _ => true
  | _ => false
  end.

(** [x / y] on floats: division by zero raises, overflow gives [inf]. *)
Definition fdiv (x y : float) : res float :=
  if is_zero y then Raise ZeroDivisionError else Ret (fdiv_raw x y).

(** [a / b] on ints (true division): the correctly rounded quotient. *)
Definition int_truediv (a b : Z) : res float :=
  if b =? 0 then Raise ZeroDivisionError
  else if a =? 0 then Ret (S754_zero (b <? 0))
  else
    let '(mz, ez, lz) := SFdiv_core_binary prec emax (Z.abs a) 0 (Z.abs b) 0 in
    match binary_round_aux prec emax (xorb (a <? 0) (b <? 0)) mz ez lz with
    | S754_infinity _ => Raise OverflowError
    | f => Ret f
    end.

(** [int(x)]: truncation toward zero. *)
Definition int_of_float (x : float) : res Z :=
  match x with
  | S754_zero _ => Ret 0
  | S754_finite s m e =>
      let a := match e with
               | Zneg k => Z.shiftr (Zpos m) (Zpos k)
               | _ => Z.shiftl (Zpos m) e
               end in
      Ret (if s then - a else a)
  | S754_infinity _ => Raise OverflowError
  | S754_nan => Raise ValueError
  end.

(** Exact three-way comparison of an int with a float ([None] on NaN). *)
Definition int_cmp_float (n : Z) (x : float) : option comparison :=
  match x with
  | S754_nan => None
  | S754_infinity s => Some (if s then Gt else Lt)
  | S754_zero _ => Some (n ?= 0)
  | S754_finite s m e =>
      let v := if s then Zneg m else Zpos m in
      Some (match e with
            | Zneg k => (n * 2 ^ Zpos k ?= v)
            | _ => (n ?= v * 2 ^ e)
            end)
  end.

(** [n > x] for an int [n] and a float [x]. *)
Definition int_gt_float (n : Z) (x : float) : bool :=
  match int_cmp_float n x with
  | Some Gt => true
  | _ => false
  end.

Definition fle (x y : float) : bool := SFleb x y.
Definition fge (x y : float) : bool := SFleb y x.

(** [n * x] and [n / x] with an int on the left: the int is converted first. *)
Definition int_mul_float (n : Z) (x : float) : res float :=
  bind (float_of_int n) (fun f => Ret (fmul f x)).

Definition int_div_float (n : Z) (x : float) : res float :=
  bind (float_of_int n) (fun f => fdiv f x).

(** A decimal literal [num/den]: the nearest double to the written value. *)
Definition literal (num den : Z) : float :=
  match int_truediv num den with
  | Ret f => f
  | Raise _ => S754_nan
  end.

End Py.

Notation "x <- m ;; k" := (Py.bind m (fun x => k))
  (at level 61, m at next level, right associativity).

Import Py.

Definition f1_0 : float := Eval vm_compute in literal 1 1.
Definition f2_0 : float := Eval vm_compute in literal 2 1.
Definition f0_08 : float := Eval vm_compute in literal 8 100.
Definition f0_92 : float := Eval vm_compute in literal 92 100.
Definition f0_95 : float := Eval vm_compute in literal 95 100.
Definition f1_35 : float := Eval vm_compute in literal 135 100.
Definition f0_12 : float := Eval vm_compute in literal 12 100.
Definition f0_01 : float := Eval vm_compute in literal 1 100.

(** ** Pillow images *)

(** An 8-bit single-channel raster (Pillow mode ["L"]): what
    [convert("L")] yields and what the scorer reads. *)
Record gray_image := {
  size : Z * Z;
  getpixel : Z -> Z -> byte
}.

Definition intensity (b : byte) : Z := Z.of_N (Byte.to_N b).

Definition box := (Z * Z * Z * Z)%type.

Definition zrange (lo hi : Z) : list Z :=
  map (fun i => lo + Z.of_nat i) (seq 0 (Z.to_nat (hi - lo))).

Definition inside (im : gray_image) (x y : Z) : bool :=
  (0 <=? x) && (x <? fst (size im)) && (0 <=? y) && (y <? snd (size im)).

(** [Image.crop((left, upper, right, lower))]: a [right-left] by
    [lower-upper] copy, black outside the source; an inverted box raises. *)
Definition crop (im : gray_image) (b : box) : res gray_image :=
  let '(l, u, r, d) := b in
  if (r <? l) || (d <? u) then Raise ValueError
  else Ret {| size := (r - l, d - u);
              getpixel := fun x y =>
                if inside im (x + l) (y + u) then getpixel im (x + l) (y + u)
                else x00 |}.

(** The samples of a raster in row-major order. *)
Definition pixels (im : gray_image) : list byte :=
  flat_map (fun y => map (fun x => getpixel im x y) (zrange 0 (fst (size im))))
           (zrange 0 (snd (size im))).

Definition count (i : Z) (ps : list byte) : Z :=
  Z.of_nat (length (filter (fun p => intensity p =? i) ps)).

(** [Image.histogram()] of a mode-["L"] raster: 256 counts. *)
Definition histogram (im : gray_image) : list Z :=
  let ps := pixels im in
  map (fun i => count i ps) (zrange 0 256).

Definition enumerate {A} (l : list A) : list (Z * A) :=
  combine (zrange 0 (Z.of_nat (length l))) l.

Definition sum (l : list Z) : Z := fold_left Z.add l 0.

(** The Pillow operations on images of arbitrary mode that the script
    uses only through their sizes. *)
Class Pillow := {
  image : Type;
  im_size : image -> Z * Z;
  convert_RGB : image -> image;
  convert_L : image -> gray_image;
  resize : image -> Z * Z -> image;
  im_crop : image -> box -> res image;
  convert_RGB_size : forall im, im_size (convert_RGB im) = im_size im;
  convert_L_size : forall im, size (convert_L im) = im_size im;
  resize_size : forall im w h, 1 <= w -> 1 <= h -> im_size (resize im (w, h)) = (w, h);
  im_crop_spec : forall im l u r d,
      l <= r -> u <= d ->
      exists c, im_crop im (l, u, r, d) = Ret c /\ im_size c = (r - l, d - u)
}.

(** ** The script *)

Definition sentinel : Z := 10 ^ 18.

Definition is_probably_double_page (w h : Z) : res bool :=
  r <- int_truediv w (Z.max h 1) ;;
  Ret (fge r f1_35).

Definition score_of_histogram (hist : list Z) : Z :=
  sum (map (fun ic => (255 - fst ic) * snd ic) (enumerate hist)).

Definition gutter_score_vertical (gray : gray_image) (x_center band_px y0 y1 : Z) : res Z :=
  let '(w, h) := size gray in
  let x0 := Z.max 0 (x_center - band_px / 2) in
  let x1 := Z.min w (x0 + band_px) in
  if x1 <=? x0 then Ret sentinel
  else
    band <- crop gray (x0, y0, x1, y1) ;;
    let hist := histogram band in
    Ret (score_of_histogram hist).

Definition gutter_score_horizontal (gray : gray_image) (y_center band_px x0 x1 : Z) : res Z :=
  let '(w, h) := size gray in
  let y0 := Z.max 0 (y_center - band_px / 2) in
  let y1 := Z.min h (y0 + band_px) in
  if y1 <=? y0 then Ret sentinel
  else
    band <- crop gray (x0, y0, x1, y1) ;;
    let hist := histogram band in
    Ret (score_of_histogram hist).

(** [range(start, stop, step)]. *)
Definition range (start stop step : Z) : res (list Z) :=
  if step =? 0 then Raise ValueError
  else
    let n := if 0 <? step then (stop - start + step - 1) / step
             else (start - stop - step - 1) / (- step) in
    Ret (map (fun i => start + Z.of_nat i * step) (seq 0 (Z.to_nat n))).

(** The body of the [for] loop of the locator, folded over the
    candidates: the state is [(best, best_score)], with [None] for
    Python's [None]. *)
Fixpoint search_loop (score : Z -> res Z) (xs : list Z) (st : Z * option Z)
  : res (Z * option Z) :=
  match xs with
  | [] => Ret st
  | x :: xs' =>
      s <- score x ;;
      let st' := match snd st with
                 | None => (x, Some s)
                 | Some b => if s <? b then (x, Some s) else st
                 end in
      search_loop score xs' st'
  end.

(** [best_score is None or best_score > center_score * 0.95]. *)
Definition falls_back (best_score : option Z) (thr : float) : bool :=
  match best_score with
  | None => true
  | Some b => int_gt_float b thr
  end.

Inductive mode := Auto | Vertical | Horizontal.

Definition clamp_seam (dim split : Z) : Z := Z.max 1 (Z.min (dim - 1) split).

Section Script.
Context {P : Pillow}.

Definition downsample_for_analysis (img : image) (max_dim : Z) : res (image * float) :=
  let '(w, h) := im_size img in
  fd <- float_of_int max_dim ;;
  scale <- int_div_float (Z.max w h) fd ;;
  if fle scale f1_0 then Ret (img, f1_0)
  else
    qw <- int_div_float w scale ;;
    iw <- int_of_float qw ;;
    let new_w := Z.max 1 iw in
    qh <- int_div_float h scale ;;
    ih <- int_of_float qh ;;
    let new_h := Z.max 1 ih in
    Ret (resize img (new_w, new_h), scale).

Definition find_split_vertical (img : image) (search band : float) : res Z :=
  ds <- downsample_for_analysis (convert_RGB img) 900 ;;
  let '(small, scale) := ds in
  let gray := convert_L small in
  let '(w, h) := size gray in
  t0 <- int_mul_float h f0_08 ;;
  y0 <- int_of_float t0 ;;
  t1 <- int_mul_float h f0_92 ;;
  y1 <- int_of_float t1 ;;
  let mid := w / 2 in
  t <- int_mul_float w search ;;
  t2 <- fdiv t f2_0 ;;
  half_window <- int_of_float t2 ;;
  let start := Z.max 1 (mid - half_window) in
  let end_ := Z.min (w - 2) (mid + half_window) in
  tb <- int_mul_float w band ;;
  ib <- int_of_float tb ;;
  let band_px := Z.max 2 ib in
  q <- int_truediv w 500 ;;
  iq <- int_of_float q ;;
  let step := Z.max 1 iq in
  xs <- range start (end_ + 1) step ;;
  st <- search_loop (fun x => gutter_score_vertical gray x band_px y0 y1) xs (mid, None) ;;
  let '(best_x, best_score) := st in
  center_score <- gutter_score_vertical gray mid band_px y0 y1 ;;
  thr <- int_mul_float center_score f0_95 ;;
  let best_x := if falls_back best_score thr then mid else best_x in
  p <- int_mul_float best_x scale ;;
  int_of_float p.

Definition find_split_horizontal (img : image) (search band : float) : res Z :=
  ds <- downsample_for_analysis (convert_RGB img) 900 ;;
  let '(small, scale) := ds in
  let gray := convert_L small in
  let '(w, h) := size gray in
  t0 <- int_mul_float w f0_08 ;;
  x0 <- int_of_float t0 ;;
  t1 <- int_mul_float w f0_92 ;;
  x1 <- int_of_float t1 ;;
  let mid := h / 2 in
  t <- int_mul_float h search ;;
  t2 <- fdiv t f2_0 ;;
  half_window <- int_of_float t2 ;;
  let start := Z.max 1 (mid - half_window) in
  let end_ := Z.min (h - 2) (mid + half_window) in
  tb <- int_mul_float h band ;;
  ib <- int_of_float tb ;;
  let band_px := Z.max 2 ib in
  q <- int_truediv h 500 ;;
  iq <- int_of_float q ;;
  let step := Z.max 1 iq in
  xs <- range start (end_ + 1) step ;;
  st <- search_loop (fun y => gutter_score_horizontal gray y band_px x0 x1) xs (mid, None) ;;
  let '(best_y, best_score) := st in
  center_score <- gutter_score_horizontal gray mid band_px x0 x1 ;;
  thr <- int_mul_float center_score f0_95 ;;
  let best_y := if falls_back best_score thr then mid else best_y in
  p <- int_mul_float best_y scale ;;
  int_of_float p.

(** The mode selection at the top of the loop body of [main]; [None] is
    the [skipped_single] branch. *)
Definition choose_mode (m : mode) (w h : Z) : res (option mode) :=
  match m with
  | Auto =>
      dbl <- is_probably_double_page w h ;;
      if dbl then Ret (Some Vertical)
      else
        r <- int_truediv h (Z.max w 1) ;;
        if fge r f1_35 then Ret (Some Horizontal) else Ret None
  | _ => Ret (Some m)
  end.

(** The two crops of [main] for the chosen direction. *)
Definition split_image (m : mode) (im : image) (search band : float)
  : res (image * image) :=
  let '(w, h) := im_size im in
  match m with
  | Vertical =>
      split_x <- find_split_vertical im search band ;;
      let split_x := clamp_seam w split_x in
      left <- im_crop im (0, 0, split_x, h) ;;
      right <- im_crop im (split_x, 0, w, h) ;;
      Ret (left, right)
  | _ =>
      split_y <- find_split_horizontal im search band ;;
      let split_y := clamp_seam h split_y in
      top <- im_crop im (0, 0, w, split_y) ;;
      bottom <- im_crop im (0, split_y, w, h) ;;
      Ret (top, bottom)
  end.

(** The per-image body of [main] without the file system. *)
Definition process_image (m : mode) (im : image) (search band : float)
  : res (option (image * image)) :=
  let '(w, h) := im_size im in
  cm <- choose_mode m w h ;;
  match cm with
  | None => Ret None
  | Some m' => pr <- split_image m' im search band ;; Ret (Some pr)
  end.

End Script.

(** ** The locator in stages

    The same computation as [find_split_vertical] and
    [find_split_horizontal], cut at the points the properties below
    talk about ([find_split_vertical_stages] and
    [find_split_horizontal_stages] prove the equality). *)

(** The 8% and 92% margins along the perpendicular axis. *)
Definition margins (n : Z) : res (Z * Z) :=
  t0 <- int_mul_float n f0_08 ;;
  p0 <- int_of_float t0 ;;
  t1 <- int_mul_float n f0_92 ;;
  p1 <- int_of_float t1 ;;
  Ret (p0, p1).

(** The search window, the band thickness and the strided candidates. *)
Definition search_params (dim : Z) (search band : float) : res (list Z * Z) :=
  let mid := dim / 2 in
  t <- int_mul_float dim search ;;
  t2 <- fdiv t f2_0 ;;
  half_window <- int_of_float t2 ;;
  let start := Z.max 1 (mid - half_window) in
  let end_ := Z.min (dim - 2) (mid + half_window) in
  tb <- int_mul_float dim band ;;
  ib <- int_of_float tb ;;
  let band_px := Z.max 2 ib in
  q <- int_truediv dim 500 ;;
  iq <- int_of_float q ;;
  let step := Z.max 1 iq in
  xs <- range start (end_ + 1) step ;;
  Ret (xs, band_px).

(** The loop over the candidates and the center-bias decision. *)
Definition choose (mid : Z) (scorer : Z -> res Z) (xs : list Z) : res Z :=
  st <- search_loop scorer xs (mid, None) ;;
  let '(best, best_score) := st in
  center_score <- scorer mid ;;
  thr <- int_mul_float center_score f0_95 ;;
  Ret (if falls_back best_score thr then mid else best).

(** [int(best * scale)]. *)
Definition to_full (c : Z) (scale : float) : res Z :=
  p <- int_mul_float c scale ;;
  int_of_float p.

(** The clamped extent of a band along the search axis. *)
Definition band_extent (dim c band_px : Z) : Z * Z :=
  let x0 := Z.max 0 (c - band_px / 2) in
  (x0, Z.min dim (x0 + band_px)).

(** The search axis of a split direction ([main] treats every mode
    other than vertical as horizontal), and the scorer and locator for it. *)
Definition along (m : mode) (wh : Z * Z) : Z :=
  match m with Vertical => fst wh | _ => snd wh end.

Definition across (m : mode) (wh : Z * Z) : Z :=
  match m with Vertical => snd wh | _ => fst wh end.

Definition gutter_score (m : mode) : gray_image -> Z -> Z -> Z -> Z -> res Z :=
  match m with Vertical => gutter_score_vertical | _ => gutter_score_horizontal end.

(** The box cropped by the scorer for a band on the given axis. *)
Definition band_box (m : mode) (gray : gray_image) (c band_px p0 p1 : Z) : box :=
  let '(a0, a1) := band_extent (along m (size gray)) c band_px in
  match m with
  | Vertical => (a0, p0, a1, p1)
  | _ => (p0, a0, p1, a1)
  end.

(** The reference score of the specification: the sum over the 256
    intensities of [(255 - i) * count(i)]. *)
Definition ink_reference (ps : list byte) : Z :=
  sum (map (fun i => (255 - i) * count i ps) (zrange 0 256)).

(** Total darkness, sample by sample. *)
Definition ink (ps : list byte) : Z :=
  sum (map (fun p => 255 - intensity p) ps).

Section Stages.
Context {P : Pillow}.

(** The analysis image and its scale factor. *)
Definition analysis (img : image) : res (gray_image * float) :=
  ds <- downsample_for_analysis (convert_RGB img) 900 ;;
  let '(small, scale) := ds in
  Ret (convert_L small, scale).

Definition find_split (m : mode) : image -> float -> float -> res Z :=
  match m with Vertical => find_split_vertical | _ => find_split_horizontal end.

End Stages.

(** ** A concrete Pillow: mode-["L"] sources *)

(** For an image already in mode ["L"], converting to ["RGB"] and back
    to ["L"] gives the same samples, so both conversions are the
    identity here.  The [BILINEAR] filter of [resize] is not modelled:
    [resize_nearest] gives the result the size asked for and takes each
    sample from the nearest source position.  It stands for the filter
    in the examples that resize an image, all of them on images of one
    colour, which the filter leaves of that colour; no theorem below
    depends on the samples of a resized image. *)
Definition resize_nearest (im : gray_image) (wh : Z * Z) : gray_image :=
  let '(w, h) := size im in
  {| size := wh;
     getpixel := fun x y => getpixel im (x * w / Z.max 1 (fst wh)) (y * h / Z.max 1 (snd wh)) |}.

#[export] Instance GrayPillow : Pillow.
Proof.
  refine {| image := gray_image;
            im_size := size;
            convert_RGB := fun im => im;
            convert_L := fun im => im;
            resize := resize_nearest;
            im_crop := crop |}.
  - reflexivity.
  - reflexivity.
  - intros [[w0 h0] px] w h _ _. reflexivity.
  - intros im l u r d Hl Hu. unfold crop.
    destruct (r <? l) eqn:E1; [apply Z.ltb_lt in E1; lia|].
    destruct (d <? u) eqn:E2; [apply Z.ltb_lt in E2; lia|].
    simpl. eexists; split; reflexivity.
Defined.

Definition uniform (w h : Z) (v : byte) : gray_image :=
  {| size := (w, h); getpixel := fun _ _ => v |}.

(** ** Auxiliary notions for the rounding proofs *)

(** Position of the rational [p/q] relative to the integer [m], as
    recorded by the round and sticky bits. *)
Definition inb (m : Z) (r s : bool) (p q : Z) : Prop :=
  match r, s with
  | false, false => p = m * q
  | false, true => m * q < p /\ 2 * p < (2 * m + 1) * q
  | true, false => 2 * p = (2 * m + 1) * q
  | true, true => (2 * m + 1) * q < 2 * p /\ p < (m + 1) * q
  end.

Definition inb_rec (mrs : shr_record) (p q : Z) : Prop :=
  inb (shr_m mrs) (shr_r mrs) (shr_s mrs) p q.

Definition fexp64 (x : Z) : Z := Z.max (x - 53) (-1074).

Definition mkfloat (s : bool) (M E : Z) : spec_float :=
  match M with
  | Z0 => S754_zero s
  | Zpos m => S754_finite s m E
  | Zneg _ => S754_nan
  end.


(** A 53-bit mantissa: the float is a normal number. *)
Definition normal (M : positive) : Prop := 2 ^ 52 <= Zpos M < 2 ^ 53.

(** Zero, or finite with a mantissa below [2^53] and exponent at most [B]. *)
Definition bounded_float (B : Z) (f : float) : Prop :=
  match f with
  | S754_zero _ => True
  | S754_finite _ M E => Zpos M < 2 ^ 53 /\ E <= B
  | _ => False
  end.

(** A float in [[0, 1]]. *)
Definition fraction (x : float) : bool :=
  valid_binary prec emax x && SFleb (S754_zero false) x && SFleb x f1_0.

Section DownsamplerSpec.
Context {P : Pillow}.

(** What the downsampler returns: either the image itself with scale
    [1.0], or a resampling with a scale above one whose two sizes are
    the truncated quotients, at least 1 and at most [max_dim]. *)
Inductive downsampled (img : image) (w h D : Z) : res (image * float) -> Prop :=
| ds_unchanged :
    Z.max w h <= D ->
    downsampled img w h D (Ret (img, f1_0))
| ds_resampled fd Ms Es Mw Ew Mh Eh :
    D < Z.max w h ->
    float_of_int D = Ret fd ->
    int_div_float (Z.max w h) fd = Ret (S754_finite false Ms Es) ->
    normal Ms -> -52 <= Es <= -21 -> 2 ^ (- Es) < Zpos Ms ->
    Z.abs (2 * Z.max w h * 2 ^ (- Es) - 2 * Zpos Ms * D) <= D ->
    int_div_float w (S754_finite false Ms Es) = Ret (S754_finite false Mw Ew) ->
    int_div_float h (S754_finite false Ms Es) = Ret (S754_finite false Mh Eh) ->
    Ew <= 0 -> Eh <= 0 ->
    Z.abs (2 * w * 2 ^ (- Es) * 2 ^ (- Ew) - 2 * Zpos Mw * Zpos Ms) <= Zpos Ms ->
    Z.abs (2 * h * 2 ^ (- Es) * 2 ^ (- Eh) - 2 * Zpos Mh * Zpos Ms) <= Zpos Ms ->
    0 <= Zpos Mw / 2 ^ (- Ew) <= D -> 0 <= Zpos Mh / 2 ^ (- Eh) <= D ->
    downsampled img w h D
      (Ret (resize img (Z.max 1 (Zpos Mw / 2 ^ (- Ew)), Z.max 1 (Zpos Mh / 2 ^ (- Eh))),
            S754_finite false Ms Es)).

End DownsamplerSpec.

(** ** Statements of the specification, for comparison *)

(** Python's [round(x)]: the nearest integer, ties to even. *)
Definition round_to_nearest (x : float) : res Z :=
  match x with
  | S754_zero _ => Ret 0
  | S754_finite s m e =>
      let a := match e with
               | Zneg k =>
                   let T := 2 ^ Zpos k in
                   let q := Zpos m / T in
                   let r := Zpos m mod T in
                   if 2 * r <? T then q
                   else if T <? 2 * r then q + 1
                   else if Z.even q then q else q + 1
               | _ => Zpos m * 2 ^ e
               end in
      Ret (if s then - a else a)
  | S754_infinity _ => Raise OverflowError
  | S754_nan => Raise ValueError
  end.

(** The back-mapping as the specification words it: [round(c * scale)]. *)
Definition to_full_rounded (c : Z) (scale : float) : res Z :=
  p <- int_mul_float c scale ;;
  round_to_nearest p.

(** The area of the clamped band: its extent along the search axis
    times the perpendicular range [[p0, p1)]. *)
Definition band_area (dim c band_px p0 p1 : Z) : Z :=
  Z.max 0 (snd (band_extent dim c band_px) - fst (band_extent dim c band_px))
  * Z.max 0 (p1 - p0).

Definition f0_99 : float := Eval vm_compute in literal 99 100.

From Stdlib Require Strings.String Strings.Ascii.

(** ** The rest of the script: defaults, file names, listing, the loop *)

Import String.StringSyntax.
Delimit Scope string_scope with string.
Local Infix "+++" := String.append (at level 60, right associativity).

(** The window of the locator with the default arguments
    [--search 0.12 --band 0.01], in integers: the candidates and the
    band thickness. *)
Definition default_window (d : Z) : list Z * Z :=
  (zrange (Z.max 1 (d / 2 - 6 * d / 100)) (Z.min (d - 2) (d / 2 + 6 * d / 100) + 1),
   Z.max 2 (d / 100)).

(** Decision procedures comparing the double-precision computations of
    the script with their integer values on one size. *)
Definition margins_check (n : Z) : bool :=
  match margins n with
  | Ret (p0, p1) => (p0 =? 8 * n / 100) && (p1 =? 92 * n / 100)
  | Raise _ => false
  end.

Definition search_params_check (d : Z) : bool :=
  match search_params d f0_12 f0_01 with
  | Ret (xs, band_px) =>
      if list_eq_dec Z.eq_dec xs (fst (default_window d))
      then band_px =? snd (default_window d) else false
  | Raise _ => false
  end.

(** A raster turned over its diagonal: rows become columns. *)
Definition transpose (im : gray_image) : gray_image :=
  {| size := (snd (size im), fst (size im));
     getpixel := fun x y => getpixel im y x |}.

(** A strip one pixel high: black on its left half, white on its
    right half. *)
Definition two_tone_strip : gray_image :=
  {| size := (100, 1); getpixel := fun x _ => if x <? 50 then x00 else xff |}.

(** [out_names]: the names of the two pages. *)
Definition out_names (stem suffix : String.string) : String.string * String.string :=
  (stem +++ "_sp001"%string +++ suffix, stem +++ "_sp002"%string +++ suffix).

Definition IMAGE_EXTS : list String.string :=
  [".png"; ".jpg"; ".jpeg"; ".tif"; ".tiff"; ".webp"]%string.

(** [sorted] on strings (code-point order), by insertion. *)
Fixpoint insert_sorted (x : String.string) (l : list String.string) : list String.string :=
  match l with
  | [] => [x]
  | y :: l' => if String.leb x y then x :: l else y :: insert_sorted x l'
  end.

Definition sorted (l : list String.string) : list String.string :=
  fold_right insert_sorted [] l.

(** [str.upper] on ASCII strings. *)
Definition upper_ascii (c : Ascii.ascii) : Ascii.ascii :=
  let n := Ascii.N_of_ascii c in
  if ((97 <=? n) && (n <=? 122))%N then Ascii.ascii_of_N (n - 32) else c.

Fixpoint upper (s : String.string) : String.string :=
  match s with
  | String.EmptyString => String.EmptyString
  | String.String c s' => String.String (upper_ascii c) (upper s')
  end.

(** The two patterns tried for an extension: [f"*{ext}"] and
    [f"*{ext.upper()}"]. *)
Definition patterns_of (ext : String.string) : list String.string :=
  ["*"%string +++ ext; "*"%string +++ upper ext].

Section IterImages.
Variable path : Type.
Variable path_eq_dec : forall a b : path, {a = b} + {a <> b}.

(** [root.glob(pattern)] and [root.rglob(pattern)]: the listing of the
    directory, taken at the time of the call. *)
Variables glob rglob : path -> String.string -> list path.

(** The body of the innermost loop, [if p not in seen: seen.add(p);
    yield p].  The state is the set [seen] and the paths yielded so
    far, in order. *)
Definition visit (st : list path * list path) (p : path) : list path * list path :=
  let '(seen, out) := st in
  if in_dec path_eq_dec p seen then st else (p :: seen, out ++ [p]).

(** [list(iter_images(root, recursive))]. *)
Definition iter_images (root : path) (recursive : bool) : list path :=
  let glob_fn := if recursive then rglob root else glob root in
  snd (fold_left
         (fun st ext =>
            fold_left (fun st pat => fold_left visit (glob_fn pat) st) (patterns_of ext) st)
         (sorted IMAGE_EXTS) ([], [])).

End IterImages.

Arguments visit {path} path_eq_dec st p.
Arguments iter_images {path} path_eq_dec glob rglob root recursive.

(** ** The file system and the loop of [main] *)

(** The exceptions caught by [except Exception]: [OSError] and its
    subclasses, the three raised by the arithmetic, and any other. *)
Inductive exc := OSError | PyError (e : exn) | OtherError.

Inductive outcome (A : Type) :=
| Done (a : A)
| Failed (e : exc).
Arguments Done {A} a.
Arguments Failed {A} e.

(** The operations of [pathlib] and of Pillow on files that [main]
    uses.  Those that touch the file system take its state and return
    the new one, with a result or the exception raised.  [Image_open]
    reads the header of the file; [load] is the decoding of the samples,
    which Pillow defers to the first use of the image. *)
Class FileSystem {P : Pillow} := {
  world : Type;
  fpath : Type;
  parent : fpath -> fpath;
  name : fpath -> String.string;
  stem : fpath -> String.string;
  suffix : fpath -> String.string;
  relative_to : fpath -> fpath -> res fpath;
  joinpath : fpath -> fpath -> fpath;
  joinname : fpath -> String.string -> fpath;
  Image_open : fpath -> world -> world * outcome image;
  load : image -> world -> world * outcome unit;
  path_exists : fpath -> world -> world * outcome bool;
  mkdir : fpath -> world -> world * outcome unit;
  save : image -> fpath -> world -> world * outcome unit;
  rename : fpath -> fpath -> world -> world * outcome unit
}.

(** The command-line arguments read inside the loop. *)
Record args := {
  arg_force : bool;
  arg_mode : mode;
  arg_search : float;
  arg_band : float
}.

Record counters := {
  total_written : Z;
  total_split : Z;
  skipped_single : Z;
  errors : Z
}.

(** How the [with] block of the loop body was left without an
    exception: by one of the two [continue], or at its end. *)
Inductive with_exit := Skipped_single | Skipped_existing | Split_done.

Section Main.
Context {P : Pillow} {F : FileSystem}.

Definition io (A : Type) : Type := world -> world * outcome A.

Definition io_ret {A} (a : A) : io A := fun w => (w, Done a).

Definition io_bind {A B} (m : io A) (k : A -> io B) : io B :=
  fun w =>
    match m w with
    | (w', Done a) => k a w'
    | (w', Failed e) => (w', Failed e)
    end.

(** A computation that does not touch the file system. *)
Definition lift {A} (r : res A) : io A :=
  fun w =>
    match r with
    | Ret a => (w, Done a)
    | Raise e => (w, Failed (PyError e))
    end.

Local Notation "x <~ m ;; k" := (io_bind m (fun x => k))
  (at level 61, m at next level, right associativity).

Definition ensure_dir (p : fpath) : io unit := mkdir p.

(** [try: img.save(path) except OSError: img.convert("RGB").save(path)]. *)
Definition safe_save (img : image) (p : fpath) : io unit :=
  fun w =>
    match save img p w with
    | (w', Failed OSError) => save (convert_RGB img) p w'
    | r => r
    end.

Definition maybe_move_original (img_path in_root dest_root : fpath) : io unit :=
  rel_parent <~ lift (relative_to (parent img_path) in_root) ;;
  let dest_dir := joinpath dest_root rel_parent in
  _ <~ ensure_dir dest_dir ;;
  let dest_path := joinname dest_dir (name img_path) in
  e <~ path_exists dest_path ;;
  if e then io_ret tt else rename img_path dest_path.

(** The [with Image.open(img_path) as im:] block of the loop body.  The
    image is decoded at its first use, the [convert] of the locator.
    The calls to [print] are left out, and closing the file when the
    block is left is taken not to raise. *)
Definition with_block (a : args) (in_root out_root img_path : fpath) : io with_exit :=
  im <~ Image_open img_path ;;
  let '(w, h) := im_size im in
  cm <~ lift (choose_mode (arg_mode a) w h) ;;
  match cm with
  | None => io_ret Skipped_single
  | Some m =>
      rel_parent <~ lift (relative_to (parent img_path) in_root) ;;
      let out_dir := joinpath out_root rel_parent in
      _ <~ ensure_dir out_dir ;;
      let '(n1, n2) := out_names (stem img_path) (suffix img_path) in
      let out1 := joinname out_dir n1 in
      let out2 := joinname out_dir n2 in
      e1 <~ path_exists out1 ;;
      e2 <~ (if e1 then path_exists out2 else io_ret false) ;;
      if (e1 && e2) && negb (arg_force a) then io_ret Skipped_existing
      else
        _ <~ load im ;;
        pages <~ lift (split_image m im (arg_search a) (arg_band a)) ;;
        let '(first, second) := pages in
        _ <~ safe_save first out1 ;;
        _ <~ safe_save second out2 ;;
        io_ret Split_done
  end.

(** One round of the [for] loop: the [try] with its [except Exception]. *)
Definition loop_body (a : args) (in_root out_root : fpath) (double_root : option fpath)
    (st : world * counters) (img_path : fpath) : world * counters :=
  let '(w, cs) := st in
  match with_block a in_root out_root img_path w with
  | (w1, Failed _) =>
      (w1, {| total_written := total_written cs; total_split := total_split cs;
              skipped_single := skipped_single cs; errors := errors cs + 1 |})
  | (w1, Done Skipped_single) =>
      (w1, {| total_written := total_written cs; total_split := total_split cs;
              skipped_single := skipped_single cs + 1; errors := errors cs |})
  | (w1, Done Skipped_existing) => (w1, cs)
  | (w1, Done Split_done) =>
      let cs1 := {| total_written := total_written cs + 2;
                    total_split := total_split cs + 1;
                    skipped_single := skipped_single cs; errors := errors cs |} in
      match double_root with
      | None => (w1, cs1)
      | Some dest_root =>
          match maybe_move_original img_path in_root dest_root w1 with
          | (w2, Done _) => (w2, cs1)
          | (w2, Failed _) =>
              (w2, {| total_written := total_written cs1; total_split := total_split cs1;
                      skipped_single := skipped_single cs1; errors := errors cs1 + 1 |})
          end
      end
  end.

(** The loop of [main] over the listed images, from zeroed counters. *)
Definition main_loop (a : args) (in_root out_root : fpath) (double_root : option fpath)
    (imgs : list fpath) (w : world) : world * counters :=
  fold_left (loop_body a in_root out_root double_root) imgs
            (w, {| total_written := 0; total_split := 0; skipped_single := 0; errors := 0 |}).

End Main.

(** What the counters satisfy after [n] rounds of the loop; [organize]
    tells whether the originals are moved. *)
Definition counters_ok (organize : bool) (n : Z) (cs : counters) : Prop :=
  total_written cs = 2 * total_split cs
  /\ 0 <= total_split cs /\ 0 <= skipped_single cs /\ 0 <= errors cs
  /\ total_split cs + skipped_single cs <= n
  /\ skipped_single cs + errors cs <= n
  /\ (organize = false -> total_split cs + skipped_single cs + errors cs <= n).

(** A file system for examples: paths are names in one directory, the
    state is the list of the names written so far, every file opens as
    the same 100 by 20 gray image, and renaming is refused. *)
Definition ExampleFS : @FileSystem GrayPillow :=
  {| world := list String.string;
     fpath := String.string;
     parent := fun _ => String.EmptyString;
     name := fun p => p;
     stem := fun p => p;
     suffix := fun _ => String.EmptyString;
     relative_to := fun p _ => Ret p;
     joinpath := fun a b => a +++ b;
     joinname := fun a n => a +++ n;
     Image_open := fun _ w => (w, Done (uniform 100 20 x80));
     load := fun _ w => (w, Done tt);
     path_exists := fun p w => (w, Done (if in_dec String.string_dec p w then true else false));
     mkdir := fun _ w => (w, Done tt);
     save := fun _ p w => (p :: w, Done tt);
     rename := fun _ _ w => (w, Failed OSError) |}.

(** * Rounding to binary64 *)

Lemma digits2_pos_bounds p :
  2 ^ (Zpos (digits2_pos p) - 1) <= Zpos p < 2 ^ Zpos (digits2_pos p).
Proof.
  induction p as [p IH | p IH |]; simpl digits2_pos.
  - rewrite Pos2Z.inj_succ. replace (Z.succ (Zpos (digits2_pos p)) - 1) with (Z.succ (Zpos (digits2_pos p) - 1)) by lia.
    rewrite !Z.pow_succ_r by lia. lia.
  - rewrite Pos2Z.inj_succ. replace (Z.succ (Zpos (digits2_pos p)) - 1) with (Z.succ (Zpos (digits2_pos p) - 1)) by lia.
    rewrite !Z.pow_succ_r by lia. lia.
  - simpl. lia.
Qed.

Lemma Zdigits2_bounds m :
  0 < m -> 2 ^ (Zdigits2 m - 1) <= m < 2 ^ Zdigits2 m.
Proof.
  destruct m as [|p|p]; try lia. intros _. apply digits2_pos_bounds.
Qed.

Lemma Zdigits2_nonneg m : 0 <= Zdigits2 m.
Proof. destruct m; simpl; lia. Qed.

Lemma Zdigits2_le m k : 0 <= m < 2 ^ k -> 0 <= k -> Zdigits2 m <= k.
Proof.
  intros [H0 H1] Hk.
  destruct (Z.eq_dec m 0) as [->|Hm]; [simpl; lia|].
  destruct (Zdigits2_bounds m ltac:(lia)) as [Hlo _].
  destruct (Z_le_gt_dec (Zdigits2 m) k) as [|Hgt]; [assumption|exfalso].
  assert (2 ^ k <= 2 ^ (Zdigits2 m - 1)) by (apply Z.pow_le_mono_r; lia).
  lia.
Qed.

Lemma Zdigits2_ge m k : 2 ^ (k - 1) <= m -> 0 < m -> k <= Zdigits2 m.
Proof.
  intros Hlo Hm.
  destruct (Zdigits2_bounds m Hm) as [_ Hhi].
  destruct (Z_le_gt_dec k (Zdigits2 m)) as [|Hgt]; [assumption|exfalso].
  assert (2 ^ Zdigits2 m <= 2 ^ (k - 1)) by (apply Z.pow_le_mono_r; lia).
  lia.
Qed.

Lemma shr_1_fields m r s :
  shr_1 (Build_shr_record m r s) = Build_shr_record (Z.div2 m) (Z.odd m) (r || s)
  \/ m < 0.
Proof.
  destruct m as [|[k|k|]|k]; simpl; auto; right; lia.
Qed.

Lemma shr_1_spec mrs p q :
  0 <= shr_m mrs -> 0 < q -> inb_rec mrs p q ->
  shr_m (shr_1 mrs) = shr_m mrs / 2 /\ inb_rec (shr_1 mrs) p (2 * q).
Proof.
  destruct mrs as [m r s]. unfold inb_rec. cbn [shr_m shr_r shr_s].
  intros Hm Hq H.
  destruct (shr_1_fields m r s) as [-> | Hneg]; [|lia].
  cbn [shr_m shr_r shr_s].
  rewrite Z.div2_div. split; [reflexivity|].
  pose proof (Z.div2_odd m) as Hdo. rewrite Z.div2_div in Hdo.
  set (h := m / 2) in *.
  unfold inb in *.
  destruct (Z.odd m); cbn [Z.b2z] in Hdo; destruct r, s; cbn [orb] in *; nia.
Qed.

Lemma iter_shr_1_spec n : forall mrs p q,
  0 <= shr_m mrs -> 0 < q -> inb_rec mrs p q ->
  shr_m (iter_pos shr_1 n mrs) = shr_m mrs / 2 ^ Zpos n
  /\ inb_rec (iter_pos shr_1 n mrs) p (q * 2 ^ Zpos n).
Proof.
  induction n as [n IH | n IH |]; intros mrs p q Hm Hq H; simpl iter_pos.
  - destruct (shr_1_spec mrs p q Hm Hq H) as [E1 I1].
    assert (H1 : 0 <= shr_m (shr_1 mrs)) by (rewrite E1; apply Z.div_pos; lia).
    destruct (IH _ p (2 * q) H1 ltac:(lia) I1) as [E2 I2].
    assert (Hp : 0 < 2 ^ Zpos n) by (apply Z.pow_pos_nonneg; lia).
    assert (H2 : 0 <= shr_m (iter_pos shr_1 n (shr_1 mrs))) by (rewrite E2; apply Z.div_pos; lia).
    destruct (IH _ p (2 * q * 2 ^ Zpos n) H2 ltac:(nia) I2) as [E3 I3].
    replace (Zpos n~1) with (1 + Zpos n + Zpos n) by lia.
    rewrite !Z.pow_add_r by lia. rewrite Z.pow_1_r.
    split.
    + rewrite E3, E2, E1. rewrite !Z.div_div by lia. f_equal; ring.
    + replace (q * (2 * 2 ^ Zpos n * 2 ^ Zpos n)) with (2 * q * 2 ^ Zpos n * 2 ^ Zpos n) by ring.
      exact I3.
  - assert (Hp : 0 < 2 ^ Zpos n) by (apply Z.pow_pos_nonneg; lia).
    destruct (IH _ p q Hm Hq H) as [E2 I2].
    assert (H2 : 0 <= shr_m (iter_pos shr_1 n mrs)) by (rewrite E2; apply Z.div_pos; lia).
    destruct (IH _ p (q * 2 ^ Zpos n) H2 ltac:(nia) I2) as [E3 I3].
    replace (Zpos n~0) with (Zpos n + Zpos n) by lia.
    rewrite !Z.pow_add_r by lia.
    split.
    + rewrite E3, E2. rewrite !Z.div_div by lia. f_equal; ring.
    + replace (q * (2 ^ Zpos n * 2 ^ Zpos n)) with (q * 2 ^ Zpos n * 2 ^ Zpos n) by ring.
      exact I3.
  - destruct (shr_1_spec mrs p q Hm Hq H) as [E1 I1].
    rewrite Z.pow_1_r. split; [exact E1|]. replace (q * 2) with (2 * q) by ring. exact I1.
Qed.

Lemma fexp_64 x : fexp 53 1024 x = fexp64 x.
Proof. reflexivity. Qed.

Lemma shr_spec mrs e n p q :
  0 <= shr_m mrs -> 0 < q -> inb_rec mrs p q -> 0 <= n ->
  exists mrs' e', shr mrs e n = (mrs', e') /\ e' = e + n
    /\ shr_m mrs' = shr_m mrs / 2 ^ n /\ inb_rec mrs' p (q * 2 ^ n).
Proof.
  intros Hm Hq H Hn. destruct n as [|k|k]; try lia; simpl shr.
  - exists mrs, e. rewrite Z.pow_0_r, Z.div_1_r, Z.mul_1_r. repeat split; auto; lia.
  - destruct (iter_shr_1_spec k mrs p q Hm Hq H) as [E1 I1].
    eexists _, _. repeat split; eauto.
Qed.

Lemma round_nearest_even_spec mrs p q :
  0 < q -> inb_rec mrs p q ->
  let M0 := round_nearest_even (shr_m mrs) (loc_of_shr_record mrs) in
  shr_m mrs <= M0 <= shr_m mrs + 1 /\ Z.abs (2 * p - 2 * M0 * q) <= q.
Proof.
  destruct mrs as [m r s]. unfold inb_rec, inb. cbn [shr_m shr_r shr_s].
  intros Hq H.
  destruct r, s; cbn [loc_of_shr_record round_nearest_even].
  - split; [lia|nia].
  - destruct (Z.even m); split; try lia; nia.
  - split; [lia|nia].
  - split; [lia|nia].
Qed.

Lemma round_aux_spec s m e l p q :
  0 <= m -> 0 < q -> inb_rec (shr_record_of_loc m l) p q ->
  e <= fexp64 (Zdigits2 m + e) -> Zdigits2 m + e <= 1023 ->
  exists M E, binary_round_aux 53 1024 s m e l = mkfloat s M E
    /\ 0 <= M < 2 ^ 53
    /\ (E = fexp64 (Zdigits2 m + e) \/ (E = fexp64 (Zdigits2 m + e) + 1 /\ M = 2 ^ 52))
    /\ Z.abs (2 * p - 2 * M * 2 ^ (E - e) * q) <= 2 ^ (fexp64 (Zdigits2 m + e) - e) * q
    /\ (-1074 <= Zdigits2 m + e - 53 -> 2 ^ 52 <= M).
Proof.
  intros Hm Hq Hin He Hd.
  unfold binary_round_aux, shr_fexp. rewrite fexp_64.
  set (d := Zdigits2 m) in *.
  set (n := fexp64 (d + e) - e).
  assert (Hn : 0 <= n) by (unfold n; lia).
  assert (Hsm : shr_m (shr_record_of_loc m l) = m) by (destruct l as [|[]]; reflexivity).
  destruct (shr_spec (shr_record_of_loc m l) e n p q) as (mrs' & e' & Hs & He' & Hm' & Hi');
    try assumption; [rewrite Hsm; assumption|].
  rewrite Hs, Hsm in *. clear Hs.
  assert (Hpn : 0 < 2 ^ n) by (apply Z.pow_pos_nonneg; lia).
  assert (Hm'lo : 0 <= shr_m mrs') by (rewrite Hm'; apply Z.div_pos; lia).
  assert (Hm'hi : shr_m mrs' < 2 ^ 53).
  { rewrite Hm'. apply Z.div_lt_upper_bound; [lia|].
    destruct (Z.eq_dec m 0) as [->|Hm0]; [lia|].
    destruct (Zdigits2_bounds m ltac:(lia)) as [_ Hhi]. fold d in Hhi.
    assert (2 ^ d <= 2 ^ (n + 53)) by (apply Z.pow_le_mono_r; unfold n, fexp64; lia).
    rewrite Z.pow_add_r in H by lia. lia. }
  destruct (round_nearest_even_spec mrs' p (q * 2 ^ n) ltac:(nia) Hi') as [HM0 Habs].
  set (M0 := round_nearest_even (shr_m mrs') (loc_of_shr_record mrs')) in *.
  assert (He'lo : -1074 <= e') by (subst e'; unfold n, fexp64; lia).
  assert (He'eq : e' = fexp64 (d + e)) by (subst e'; unfold n; lia).
  assert (Hnormal : -1074 <= d + e - 53 -> 2 ^ 52 <= shr_m mrs').
  { intros Hno. rewrite Hm'.
    assert (Hn53 : n = d - 53) by (unfold n, fexp64; lia).
    assert (Hmpos : 0 < m).
    { destruct (Z.eq_dec m 0) as [E0|]; [|lia]. subst m. unfold d in *. simpl in Hn53. lia. }
    destruct (Zdigits2_bounds m Hmpos) as [Hlo _]. fold d in Hlo.
    apply Z.div_le_lower_bound; [lia|].
    replace (d - 1) with (n + 52) in Hlo by lia.
    rewrite Z.pow_add_r in Hlo by lia. lia. }
  destruct (Z.eq_dec M0 (2 ^ 53)) as [Hcarry | Hnocarry].
  - (* the rounded mantissa needs one more shift *)
    rewrite Hcarry. rewrite fexp_64.
    replace (Zdigits2 (2 ^ 53)) with 54 by reflexivity.
    replace (fexp64 (54 + e') - e') with 1 by (unfold fexp64; lia).
    cbn [shr_record_of_loc shr iter_pos].
    replace (shr_1 {| shr_m := 2 ^ 53; shr_r := false; shr_s := false |})
      with {| shr_m := 2 ^ 52; shr_r := false; shr_s := false |} by reflexivity.
    cbn [shr_m].
    exists (2 ^ 52), (e' + 1).
    replace (e' + 1 <=? 1024 - 53) with true by (symmetry; apply Z.leb_le; unfold fexp64 in *; lia).
    split; [reflexivity|]. split; [lia|]. split; [right; split; [lia|reflexivity]|].
    split; [|intros _; lia].
    replace (e' + 1 - e) with (n + 1) by lia.
    rewrite Z.pow_add_r, Z.pow_1_r by lia.
    rewrite Hcarry in Habs. fold n.
    replace (2 * 2 ^ 52 * (2 ^ n * 2) * q) with (2 * 2 ^ 53 * (q * 2 ^ n)) by (change (2 ^ 53) with (2 * 2 ^ 52); ring).
    replace (2 ^ n * q) with (q * 2 ^ n) by ring. exact Habs.
  - assert (HM0hi : M0 < 2 ^ 53) by lia.
    rewrite fexp_64.
    assert (Hd0 : Zdigits2 M0 <= 53) by (apply Zdigits2_le; lia).
    assert (Hn2 : fexp64 (Zdigits2 M0 + e') - e' <= 0) by (unfold fexp64; lia).
    assert (Hshr : shr (shr_record_of_loc M0 loc_Exact) e' (fexp64 (Zdigits2 M0 + e') - e')
                   = (shr_record_of_loc M0 loc_Exact, e')).
    { destruct (fexp64 (Zdigits2 M0 + e') - e'); try reflexivity. lia. }
    rewrite Hshr. cbn [shr_record_of_loc shr_m].
    exists M0, e'.
    split.
    { unfold mkfloat. destruct M0; try reflexivity.
      replace (e' <=? 1024 - 53) with true; [reflexivity|].
      symmetry; apply Z.leb_le; unfold fexp64 in *; lia. }
    split; [lia|]. split; [left; assumption|].
    split; [|intros Hno; specialize (Hnormal Hno); lia].
    replace (e' - e) with n by lia. fold n.
    replace (2 * M0 * 2 ^ n * q) with (2 * M0 * (q * 2 ^ n)) by ring.
    replace (2 ^ n * q) with (q * 2 ^ n) by ring. exact Habs.
Qed.

Lemma iter_xO_pow m k : Zpos (Pos.iter xO m k) = Zpos m * 2 ^ Zpos k.
Proof.
  induction k as [|k IH] using Pos.peano_ind.
  - simpl. lia.
  - rewrite Pos.iter_succ, Pos2Z.inj_succ, Z.pow_succ_r by lia.
    rewrite Pos2Z.inj_xO, IH. ring.
Qed.

Lemma inb_exact m q : inb_rec (shr_record_of_loc m loc_Exact) (m * q) q.
Proof. reflexivity. Qed.

(** A 53-bit mantissa in range is left alone by rounding. *)
Lemma round_aux_canonical s m e :
  2 ^ 52 <= Zpos m < 2 ^ 53 -> -1074 <= e <= 970 ->
  binary_round_aux 53 1024 s (Zpos m) e loc_Exact = S754_finite s m e.
Proof.
  intros Hm He.
  assert (Hd : Zdigits2 (Zpos m) = 53).
  { apply Z.le_antisymm; [apply Zdigits2_le; lia | apply Zdigits2_ge; simpl; lia]. }
  destruct (round_aux_spec s (Zpos m) e loc_Exact (Zpos m * 1) 1) as (M & E & HR & HM & HE & Habs & _);
    try lia; [apply inb_exact | rewrite Hd; unfold fexp64; lia | ].
  rewrite Hd in *. replace (fexp64 (53 + e)) with e in * by (unfold fexp64; lia).
  rewrite Z.sub_diag, Z.pow_0_r in Habs.
  rewrite HR. destruct HE as [-> | [-> ->]].
  - rewrite Z.sub_diag, Z.pow_0_r in Habs.
    assert (M = Zpos m) by lia. subst M. reflexivity.
  - replace (e + 1 - e) with 1 in Habs by lia. rewrite Z.pow_1_r in Habs. lia.
Qed.

Lemma float_of_int_exact n :
  0 < n < 2 ^ 53 ->
  exists M E, binary_normalize 53 1024 n 0 false = S754_finite false M E
    /\ 2 ^ 52 <= Zpos M < 2 ^ 53 /\ E = Zdigits2 n - 53 /\ Zpos M = n * 2 ^ (- E).
Proof.
  intros Hn. destruct n as [|p|p]; try lia.
  unfold binary_normalize, binary_round. rewrite fexp_64.
  destruct (Zdigits2_bounds (Zpos p) ltac:(lia)) as [Hlo Hhi].
  assert (Hd1 : 1 <= Zdigits2 (Zpos p)) by (simpl; lia).
  assert (Hd : Zdigits2 (Zpos p) <= 53) by (apply Zdigits2_le; lia).
  change (Z.pos (digits2_pos p)) with (Zdigits2 (Zpos p)).
  set (d := Zdigits2 (Zpos p)) in *.
  replace (fexp64 (d + 0)) with (d - 53) by (unfold fexp64; lia).
  unfold shl_align.
  destruct (d - 53 - 0) as [|j|j] eqn:Ej; try lia.
  - assert (Hd53 : d = 53) by lia.
    assert (Hb : 2 ^ 52 <= Zpos p < 2 ^ 53).
    { rewrite Hd53 in Hlo, Hhi. exact (conj Hlo Hhi). }
    exists p, 0. rewrite round_aux_canonical by lia.
    repeat split; try lia.
  - assert (Hj : Zpos j = 53 - d) by lia.
    assert (Hval : Zpos (Pos.iter xO p j) = Zpos p * 2 ^ (53 - d)) by (rewrite iter_xO_pow, Hj; reflexivity).
    assert (Hb : 2 ^ 52 <= Zpos (Pos.iter xO p j) < 2 ^ 53).
    { rewrite Hval.
      assert (0 < 2 ^ (53 - d)) by (apply Z.pow_pos_nonneg; lia).
      replace (2 ^ 52) with (2 ^ (d - 1) * 2 ^ (53 - d)) by (rewrite <- Z.pow_add_r by lia; f_equal; lia).
      replace (2 ^ 53) with (2 ^ d * 2 ^ (53 - d)) by (rewrite <- Z.pow_add_r by lia; f_equal; lia).
      nia. }
    exists (Pos.iter xO p j), (d - 53).
    rewrite round_aux_canonical by lia.
    repeat split; try lia. rewrite Hval. f_equal. f_equal. lia.
Qed.

Lemma new_location_spec b r q0 :
  0 < b -> 0 <= r < b ->
  inb_rec (shr_record_of_loc q0 (new_location b r)) (q0 * b + r) b.
Proof.
  intros Hb Hr. unfold new_location, new_location_even, new_location_odd.
  destruct (Z.even b) eqn:Ev.
  - destruct (r =? 0) eqn:E0.
    + apply Z.eqb_eq in E0. subst r. unfold inb_rec, inb; simpl. lia.
    + apply Z.eqb_neq in E0.
      destruct (Z.compare_spec (2 * r) b);
        cbv [inb_rec inb shr_record_of_loc shr_m shr_r shr_s]; lia.
  - assert (Hodd : Z.odd b = true) by (rewrite <- Z.negb_even, Ev; reflexivity).
    apply Z.odd_spec in Hodd. destruct Hodd as [c Hc].
    destruct (r =? 0) eqn:E0.
    + apply Z.eqb_eq in E0. subst r. unfold inb_rec, inb; simpl. lia.
    + apply Z.eqb_neq in E0.
      destruct (Z.compare_spec (2 * r + 1) b);
        cbv [inb_rec inb shr_record_of_loc shr_m shr_r shr_s]; lia.
Qed.

Lemma pow2_pos k : 0 <= k -> 0 < 2 ^ k.
Proof. intros. apply Z.pow_pos_nonneg; lia. Qed.

Lemma pow2_split a b : 0 <= a -> 0 <= b -> 2 ^ (a + b) = 2 ^ a * 2 ^ b.
Proof. intros. apply Z.pow_add_r; lia. Qed.

(** Division of two positive mantissas whose quotient is a normal number. *)
Lemma div_round_normal s m1 e1 m2 e2 :
  0 < m1 -> 0 < m2 ->
  let D := Zdigits2 m1 + e1 - (Zdigits2 m2 + e2) in
  -1021 <= D <= 1022 -> Zdigits2 m1 - Zdigits2 m2 <= 53 ->
  exists M E k,
    (let '(mz, ez, lz) := SFdiv_core_binary 53 1024 m1 e1 m2 e2 in
     binary_round_aux 53 1024 s mz ez lz) = S754_finite s M E
    /\ 2 ^ 52 <= Zpos M < 2 ^ 53 /\ 0 <= k <= 2 /\ E = D - 53 + k
    /\ Z.abs (2 * m1 * 2 ^ (53 - Zdigits2 m1 + Zdigits2 m2) - 2 * Zpos M * 2 ^ k * m2)
       <= 2 ^ k * m2.
Proof.
  intros H1 H2 D HD Hdd.
  unfold SFdiv_core_binary. rewrite fexp_64.
  destruct (Zdigits2_bounds m1 H1) as [L1 U1].
  destruct (Zdigits2_bounds m2 H2) as [L2 U2].
  assert (N1 : 1 <= Zdigits2 m1) by (destruct m1; simpl; lia).
  assert (P2 : 1 <= Zdigits2 m2) by (destruct m2; simpl; lia).
  set (d1 := Zdigits2 m1) in *. set (d2 := Zdigits2 m2) in *.
  fold D.
  replace (Z.min (fexp64 D) (e1 - e2)) with (D - 53) by (unfold fexp64, D; lia).
  set (sh := 53 - d1 + d2).
  replace (e1 - e2 - (D - 53)) with sh by (unfold sh, D; lia).
  assert (Hsh : 0 <= sh) by (unfold sh; lia).
  assert (Hm' : forall x, 0 <= x ->
            match x with Z.pos _ => Z.shiftl m1 x | 0 => m1 | Z.neg _ => 0 end = m1 * 2 ^ x).
  { intros x Hx. destruct x; try lia.
    rewrite Z.shiftl_mul_pow2 by lia. reflexivity. }
  rewrite (Hm' sh Hsh). clear Hm'.
  pose proof (Z_div_mod (m1 * 2 ^ sh) m2 ltac:(lia)) as Hdm.
  destruct (Z.div_eucl (m1 * 2 ^ sh) m2) as [q0 r]. destruct Hdm as [Heq Hr].
  assert (Hp : 0 < 2 ^ sh) by (apply pow2_pos; lia).
  assert (Hq0lo : 2 ^ 52 <= q0).
  { assert (2 ^ 52 * 2 ^ d2 <= m1 * 2 ^ sh).
    { replace (2 ^ 52 * 2 ^ d2) with (2 ^ (d1 - 1) * 2 ^ sh)
        by (rewrite <- !pow2_split by lia; f_equal; unfold sh; lia).
      nia. }
    nia. }
  assert (Hq0hi : q0 < 2 ^ 54).
  { assert (m1 * 2 ^ sh < 2 ^ 54 * 2 ^ (d2 - 1)).
    { replace (2 ^ 54 * 2 ^ (d2 - 1)) with (2 ^ d1 * 2 ^ sh)
        by (rewrite <- !pow2_split by lia; f_equal; unfold sh; lia).
      nia. }
    nia. }
  assert (Hdq : 53 <= Zdigits2 q0 <= 54).
  { split; [apply Zdigits2_ge; simpl; lia | apply Zdigits2_le; lia]. }
  destruct (round_aux_spec s q0 (D - 53) (new_location m2 r) (m1 * 2 ^ sh) m2)
    as (M & E & HR & HM & HE & Habs & Hnorm); try lia.
  { rewrite Heq. replace (m2 * q0) with (q0 * m2) by ring. apply new_location_spec; lia. }
  { unfold fexp64; lia. }
  specialize (Hnorm ltac:(lia)).
  replace (fexp64 (Zdigits2 q0 + (D - 53))) with (Zdigits2 q0 + D - 106) in * by (unfold fexp64; lia).
  destruct M as [|M|M]; try lia.
  exists M, E, (E - (D - 53)).
  split; [exact HR|]. split; [exact (conj Hnorm (proj2 HM))|].
  split; [destruct HE as [HE|[HE _]]; lia|]. split; [lia|].
  fold sh. replace (2 * m1 * 2 ^ sh) with (2 * (m1 * 2 ^ sh)) by ring.
  eapply Z.le_trans; [exact Habs|].
  apply Z.mul_le_mono_nonneg_r; [lia|].
  apply Z.pow_le_mono_r; lia.
Qed.

Lemma normal_digits M : normal M -> Zdigits2 (Zpos M) = 53.
Proof.
  intros [Hlo Hhi].
  apply Z.le_antisymm; [apply Zdigits2_le; lia | apply Zdigits2_ge; simpl; lia].
Qed.

(** Product of two normal mantissas whose result is a normal number. *)
Lemma mul_round_normal s m1 e1 m2 e2 :
  normal m1 -> normal m2 -> -1126 <= e1 + e2 <= 917 ->
  exists M E k,
    binary_round_aux 53 1024 s (Zpos (m1 * m2)) (e1 + e2) loc_Exact = S754_finite s M E
    /\ normal M /\ 52 <= k <= 54 /\ E = e1 + e2 + k
    /\ Z.abs (2 * (Zpos m1 * Zpos m2) - 2 * Zpos M * 2 ^ k) <= 2 ^ k.
Proof.
  intros [L1 U1] [L2 U2] He.
  assert (Hlo : 2 ^ 104 <= Zpos (m1 * m2)).
  { rewrite Pos2Z.inj_mul. change (2 ^ 104) with (2 ^ 52 * 2 ^ 52). nia. }
  assert (Hhi : Zpos (m1 * m2) < 2 ^ 106).
  { rewrite Pos2Z.inj_mul. change (2 ^ 106) with (2 ^ 53 * 2 ^ 53). nia. }
  assert (Hd : 105 <= Zdigits2 (Zpos (m1 * m2)) <= 106).
  { split; [apply Zdigits2_ge; simpl; lia | apply Zdigits2_le; lia]. }
  destruct (round_aux_spec s (Zpos (m1 * m2)) (e1 + e2) loc_Exact (Zpos (m1 * m2) * 1) 1)
    as (M & E & HR & HM & HE & Habs & Hnorm); try lia.
  { apply inb_exact. }
  { unfold fexp64; lia. }
  specialize (Hnorm ltac:(lia)).
  replace (fexp64 (Zdigits2 (Zpos (m1 * m2)) + (e1 + e2)))
    with (Zdigits2 (Zpos (m1 * m2)) + (e1 + e2) - 53) in * by (unfold fexp64; lia).
  destruct M as [|M|M]; try lia.
  exists M, E, (E - (e1 + e2)).
  split; [exact HR|]. split; [exact (conj Hnorm (proj2 HM))|].
  split; [destruct HE as [HE|[HE _]]; lia|]. split; [lia|].
  rewrite <- Pos2Z.inj_mul.
  replace (2 * Zpos (m1 * m2)) with (2 * (Zpos (m1 * m2) * 1)) by ring.
  replace (2 * Zpos M * 2 ^ (E - (e1 + e2))) with (2 * Zpos M * 2 ^ (E - (e1 + e2)) * 1) by ring.
  eapply Z.le_trans; [exact Habs|].
  rewrite Z.mul_1_r. apply Z.pow_le_mono_r; destruct HE as [HE|[HE _]]; lia.
Qed.

Lemma inb_any m l : exists p q, 0 < q /\ inb_rec (shr_record_of_loc m l) p q.
Proof.
  destruct l as [|[| |]].
  - exists (m * 1), 1. split; [lia|apply inb_exact].
  - exists (2 * m + 1), 2. split; [lia|]. cbv [inb_rec inb shr_record_of_loc shr_m shr_r shr_s]. lia.
  - exists (4 * m + 1), 4. split; [lia|]. cbv [inb_rec inb shr_record_of_loc shr_m shr_r shr_s]. lia.
  - exists (4 * m + 3), 4. split; [lia|]. cbv [inb_rec inb shr_record_of_loc shr_m shr_r shr_s]. lia.
Qed.

(** Rounding never yields NaN, and no infinity below the overflow threshold. *)
Lemma round_aux_total s m e l :
  0 <= m -> e <= fexp64 (Zdigits2 m + e) -> Zdigits2 m + e <= 1023 ->
  exists M E, binary_round_aux 53 1024 s m e l = mkfloat s M E
    /\ 0 <= M < 2 ^ 53 /\ E <= fexp64 (Zdigits2 m + e) + 1.
Proof.
  intros Hm He Hd.
  destruct (inb_any m l) as (p & q & Hq & Hin).
  destruct (round_aux_spec s m e l p q Hm Hq Hin He Hd) as (M & E & HR & HM & HE & _).
  exists M, E. split; [exact HR|]. split; [exact HM|]. destruct HE as [HE|[HE _]]; lia.
Qed.

Lemma mkfloat_bounded s M E B :
  0 <= M < 2 ^ 53 -> E <= B -> bounded_float B (mkfloat s M E).
Proof.
  intros HM HE. destruct M; simpl; [exact I | lia | lia].
Qed.

Lemma fdiv_normal M1 E1 M2 E2 :
  normal M1 -> normal M2 -> -1021 <= E1 - E2 <= 1022 ->
  exists M E k,
    fdiv_raw (S754_finite false M1 E1) (S754_finite false M2 E2) = S754_finite false M E
    /\ normal M /\ 0 <= k <= 2 /\ E = E1 - E2 - 53 + k
    /\ Z.abs (2 * Zpos M1 * 2 ^ 53 - 2 * Zpos M * 2 ^ k * Zpos M2) <= 2 ^ k * Zpos M2.
Proof.
  intros N1 N2 HE.
  pose proof (normal_digits _ N1) as D1. pose proof (normal_digits _ N2) as D2.
  destruct (div_round_normal false (Zpos M1) E1 (Zpos M2) E2) as (M & E & k & HR & HN & Hk & HEq & Habs);
    try lia.
  rewrite D1, D2 in *.
  exists M, E, k. unfold fdiv_raw, SFdiv. cbn [xorb].
  split; [exact HR|]. split; [exact HN|]. split; [exact Hk|]. split; [lia|].
  replace (53 - 53 + 53) with 53 in Habs by lia. exact Habs.
Qed.

Lemma int_truediv_normal a b :
  0 < a -> 0 < b -> Zdigits2 a - Zdigits2 b <= 53 ->
  Zdigits2 a <= 1000 -> Zdigits2 b <= 1000 ->
  exists M E k,
    int_truediv a b = Ret (S754_finite false M E)
    /\ normal M /\ 0 <= k <= 2 /\ E = Zdigits2 a - Zdigits2 b - 53 + k
    /\ Z.abs (2 * a * 2 ^ (53 - Zdigits2 a + Zdigits2 b) - 2 * Zpos M * 2 ^ k * b) <= 2 ^ k * b.
Proof.
  intros Ha Hb Hd Hda Hdb.
  assert (1 <= Zdigits2 b) by (destruct b; simpl; lia).
  assert (1 <= Zdigits2 a) by (destruct a; simpl; lia).
  destruct (div_round_normal false a 0 b 0) as (M & E & k & HR & HN & Hk & HEq & Habs); try lia.
  unfold int_truediv.
  replace (b =? 0) with false by (symmetry; apply Z.eqb_neq; lia).
  replace (a =? 0) with false by (symmetry; apply Z.eqb_neq; lia).
  replace (a <? 0) with false by (symmetry; apply Z.ltb_ge; lia).
  replace (b <? 0) with false by (symmetry; apply Z.ltb_ge; lia).
  rewrite !Z.abs_eq by lia. cbn [xorb].
  unfold prec, emax.
  destruct (SFdiv_core_binary 53 1024 a 0 b 0) as [[mz ez] lz].
  rewrite HR.
  exists M, E, k. repeat split; try lia; try apply HN.
Qed.

Lemma abs_cancel c x y : 0 < c -> Z.abs (c * x) <= c * y -> Z.abs x <= y.
Proof. intros Hc H. rewrite Z.abs_mul, (Z.abs_eq c) in H by lia. nia. Qed.

Lemma float_of_int_normal n :
  0 < n < 2 ^ 53 ->
  exists M E, float_of_int n = Ret (S754_finite false M E)
    /\ normal M /\ E = Zdigits2 n - 53 /\ Zpos M = n * 2 ^ (- E).
Proof.
  intros Hn. destruct (float_of_int_exact n Hn) as (M & E & HR & HN & HE & HV).
  exists M, E. unfold float_of_int, prec, emax. rewrite HR. repeat split; try assumption; apply HN.
Qed.

Lemma digits_lt_pow n k : 0 < n < 2 ^ k -> 0 <= k -> 1 <= Zdigits2 n <= k.
Proof.
  intros Hn Hk. split; [destruct n; simpl; lia | apply Zdigits2_le; lia].
Qed.

Lemma int_of_float_finite M E :
  E <= 0 -> int_of_float (S754_finite false M E) = Ret (Zpos M / 2 ^ (- E)).
Proof.
  intros HE. unfold int_of_float. destruct E as [|k|k]; try lia.
  - rewrite Z.shiftl_0_r. change (2 ^ (- 0)) with 1. rewrite Z.div_1_r. reflexivity.
  - rewrite Z.shiftr_div_pow2 by lia. reflexivity.
Qed.

(** [a / b] on ints below [2^31]: a normal double within half an ulp. *)
Lemma int_truediv_approx a b :
  0 < a < 2 ^ 31 -> 0 < b < 2 ^ 31 ->
  exists M E, int_truediv a b = Ret (S754_finite false M E)
    /\ normal M /\ -84 <= E <= -21
    /\ Z.abs (2 * a * 2 ^ (- E) - 2 * Zpos M * b) <= b.
Proof.
  intros Ha Hb.
  pose proof (digits_lt_pow a 31 Ha ltac:(lia)) as Da.
  pose proof (digits_lt_pow b 31 Hb ltac:(lia)) as Db.
  destruct (int_truediv_normal a b) as (M & E & k & HR & HN & Hk & HE & Habs); try lia.
  exists M, E. split; [exact HR|]. split; [exact HN|]. split; [lia|].
  replace (53 - Zdigits2 a + Zdigits2 b) with (k + - E) in Habs by lia.
  rewrite pow2_split in Habs by lia.
  apply (abs_cancel (2 ^ k)); [apply pow2_pos; lia|].
  replace (2 ^ k * (2 * a * 2 ^ (- E) - 2 * Zpos M * b))
    with (2 * a * (2 ^ k * 2 ^ (- E)) - 2 * Zpos M * 2 ^ k * b) by ring.
  exact Habs.
Qed.

(** [n / y] for a positive int below [2^31] and a normal float. *)
Lemma int_div_float_approx n M2 E2 :
  0 < n < 2 ^ 31 -> normal M2 -> -73 <= E2 <= 0 ->
  exists M E, int_div_float n (S754_finite false M2 E2) = Ret (S754_finite false M E)
    /\ normal M /\ -105 - E2 <= E <= -73 - E2
    /\ Z.abs (2 * n * 2 ^ (- E2) * 2 ^ (- E) - 2 * Zpos M * Zpos M2) <= Zpos M2.
Proof.
  intros Hn N2 HE2.
  assert (Hn53 : 0 < n < 2 ^ 53) by (change (2 ^ 53) with (2 ^ 31 * 2 ^ 22); lia).
  pose proof (digits_lt_pow n 31 Hn ltac:(lia)) as Dn.
  destruct (float_of_int_normal n Hn53) as (Mn & En & HRn & HNn & HEn & HVn).
  destruct (fdiv_normal Mn En M2 E2 HNn N2) as (M & E & k & HR & HN & Hk & HE & Habs); [lia|].
  exists M, E. unfold int_div_float. rewrite HRn. cbn [bind]. unfold fdiv. cbn [is_zero].
  rewrite HR. split; [reflexivity|]. split; [exact HN|]. split; [lia|].
  rewrite HVn in Habs.
  replace (2 * (n * 2 ^ (- En)) * 2 ^ 53) with (2 * n * 2 ^ (- En + 53)) in Habs
    by (rewrite pow2_split by lia; ring).
  replace (- En + 53) with (k + - E2 + - E) in Habs by lia.
  rewrite !pow2_split in Habs by lia.
  apply (abs_cancel (2 ^ k)); [apply pow2_pos; lia|].
  replace (2 ^ k * (2 * n * 2 ^ (- E2) * 2 ^ (- E) - 2 * Zpos M * Zpos M2))
    with (2 * n * (2 ^ k * 2 ^ (- E2) * 2 ^ (- E)) - 2 * Zpos M * 2 ^ k * Zpos M2) by ring.
  exact Habs.
Qed.

(** [n * x] for a positive int below [2^k] and a normal float below [2^(51-k)]. *)
Lemma int_mul_float_approx k n Mx Ex :
  0 < n < 2 ^ k -> 0 <= k <= 52 -> normal Mx -> -1000 <= Ex <= - k - 2 ->
  exists M E, int_mul_float n (S754_finite false Mx Ex) = Ret (S754_finite false M E)
    /\ normal M /\ Ex <= E <= Ex + k + 1
    /\ Z.abs (2 * n * Zpos Mx * 2 ^ (- E) - 2 * Zpos M * 2 ^ (- Ex)) <= 2 ^ (- Ex).
Proof.
  intros Hn Hk Nx HEx.
  assert (Hn53 : 0 < n < 2 ^ 53).
  { split; [lia|]. eapply Z.lt_le_trans; [apply Hn|]. apply Z.pow_le_mono_r; lia. }
  pose proof (digits_lt_pow n k Hn ltac:(lia)) as Dn.
  destruct (float_of_int_normal n Hn53) as (Mn & En & HRn & HNn & HEn & HVn).
  destruct (mul_round_normal false Mn En Mx Ex HNn Nx) as (M & E & kk & HR & HN & Hkk & HE & Habs); [lia|].
  exists M, E. unfold int_mul_float. rewrite HRn. cbn [bind]. unfold fmul, SFmul. cbn [xorb].
  unfold prec, emax. rewrite HR. split; [reflexivity|]. split; [exact HN|]. split; [lia|].
  rewrite HVn in Habs.
  apply (abs_cancel (2 ^ (- En))); [apply pow2_pos; lia|].
  assert (Hk2 : 2 ^ (- En) * 2 ^ (- Ex) = 2 ^ kk * 2 ^ (- E))
    by (rewrite <- !pow2_split by lia; f_equal; lia).
  assert (Hx : 2 ^ (- En) * (2 * n * Zpos Mx * 2 ^ (- E) - 2 * Zpos M * 2 ^ (- Ex))
               = 2 ^ (- E) * (2 * (n * 2 ^ (- En) * Zpos Mx) - 2 * Zpos M * 2 ^ kk)).
  { transitivity (2 ^ (- E) * (2 * n * 2 ^ (- En) * Zpos Mx) - 2 * Zpos M * (2 ^ (- En) * 2 ^ (- Ex)));
      [ring | rewrite Hk2; ring]. }
  rewrite Hx, Hk2, Z.abs_mul, (Z.abs_eq (2 ^ (- E))) by (apply Z.lt_le_incl, pow2_pos; lia).
  rewrite (Z.mul_comm (2 ^ kk)).
  apply Z.mul_le_mono_nonneg_l; [apply Z.lt_le_incl, pow2_pos; lia | exact Habs].
Qed.

(** Comparison of normal floats is comparison of their values. *)
Lemma fle_normal M1 E1 M2 E2 :
  normal M1 -> normal M2 -> E1 <= 0 -> E2 <= 0 ->
  fle (S754_finite false M1 E1) (S754_finite false M2 E2) = true
  <-> Zpos M1 * 2 ^ (- E2) <= Zpos M2 * 2 ^ (- E1).
Proof.
  intros [L1 U1] [L2 U2] H1 H2. unfold fle, SFleb, SFcompare.
  destruct (Z.compare_spec E1 E2) as [Heq | Hlt | Hgt].
  - subst E2. rewrite Pos.compare_cont_spec. cbn [Pos.switch_Eq].
    assert (Hp : 0 < 2 ^ (- E1)) by (apply pow2_pos; lia).
    destruct (Pos.compare_spec M1 M2) as [He | Hl | Hg].
    + subst. split; [lia | reflexivity].
    + split; [intros _; apply Z.mul_le_mono_nonneg_r; lia | reflexivity].
    + split; [discriminate | intros H; exfalso].
      assert (Zpos M2 < Zpos M1) by lia. nia.
  - split; [intros _ | reflexivity].
    replace (- E1) with (- E2 + (E2 - E1)) by lia. rewrite pow2_split by lia.
    assert (Hp : 0 < 2 ^ (- E2)) by (apply pow2_pos; lia).
    assert (2 <= 2 ^ (E2 - E1)) by (change 2 with (2 ^ 1) at 1; apply Z.pow_le_mono_r; lia).
    change (2 ^ 53) with (2 * 2 ^ 52) in U1.
    set (a := 2 ^ (- E2)) in *. set (c := 2 ^ (E2 - E1)) in *.
    assert (Zpos M1 * a <= 2 * Zpos M2 * a) by (apply Z.mul_le_mono_nonneg_r; lia).
    assert (0 <= Zpos M2 * a) by nia.
    assert (2 * (Zpos M2 * a) <= c * (Zpos M2 * a)) by (apply Z.mul_le_mono_nonneg_r; lia).
    lia.
  - split; [discriminate | intros H; exfalso].
    replace (- E2) with (- E1 + (E1 - E2)) in H by lia. rewrite pow2_split in H by lia.
    assert (Hp : 0 < 2 ^ (- E1)) by (apply pow2_pos; lia).
    assert (2 <= 2 ^ (E1 - E2)) by (change 2 with (2 ^ 1) at 1; apply Z.pow_le_mono_r; lia).
    change (2 ^ 53) with (2 * 2 ^ 52) in U2.
    set (a := 2 ^ (- E1)) in *. set (c := 2 ^ (E1 - E2)) in *.
    assert (Zpos M2 * a < 2 * Zpos M1 * a) by (apply Z.mul_lt_mono_pos_r; lia).
    assert (0 <= Zpos M1 * a) by nia.
    assert (2 * (Zpos M1 * a) <= c * (Zpos M1 * a)) by (apply Z.mul_le_mono_nonneg_r; lia).
    lia.
Qed.


Lemma fexp64_mono x y : x <= y -> fexp64 x <= fexp64 y.
Proof. unfold fexp64. lia. Qed.

(** [float(n)] for a non-negative int below [2^100]. *)
Lemma float_of_int_total n :
  0 <= n < 2 ^ 100 ->
  (n = 0 /\ float_of_int n = Ret (S754_zero false))
  \/ exists M E, float_of_int n = Ret (S754_finite false M E) /\ normal M /\ -52 <= E <= 48.
Proof.
  intros Hn. destruct (Z.eq_dec n 0) as [->|Hn0]; [left; split; reflexivity|right].
  destruct (Z_lt_le_dec n (2 ^ 53)) as [Hsmall|Hbig].
  - destruct (float_of_int_normal n ltac:(lia)) as (M & E & HR & HN & HE & _).
    pose proof (digits_lt_pow n 53 ltac:(lia) ltac:(lia)).
    exists M, E. repeat split; try assumption; try apply HN; lia.
  - destruct n as [|p|p]; try lia.
    assert (Hd : 54 <= Zdigits2 (Zpos p) <= 100).
    { split; [apply Zdigits2_ge; simpl; lia | apply Zdigits2_le; lia]. }
    unfold float_of_int, binary_normalize, binary_round, prec, emax. rewrite fexp_64.
    change (Z.pos (digits2_pos p)) with (Zdigits2 (Zpos p)).
    set (d := Zdigits2 (Zpos p)) in *.
    replace (fexp64 (d + 0)) with (d - 53) by (unfold fexp64; lia).
    unfold shl_align.
    destruct (d - 53 - 0) as [|j|j] eqn:Ej; try lia.
    destruct (round_aux_spec false (Zpos p) 0 loc_Exact (Zpos p * 1) 1)
      as (M & E & HR & HM & HE & _ & Hnorm); try lia.
    { apply inb_exact. }
    { fold d. unfold fexp64; lia. }
    fold d in HE, Hnorm. specialize (Hnorm ltac:(lia)).
    replace (fexp64 (d + 0)) with (d - 53) in HE by (unfold fexp64; lia).
    destruct M as [|M|M]; try lia.
    exists M, E. rewrite HR. cbn [mkfloat].
    split; [reflexivity|]. split; [exact (conj Hnorm (proj2 HM))|].
    destruct HE as [HE|[HE _]]; lia.
Qed.

Lemma fmul_finite_total s1 M1 E1 s2 M2 E2 :
  normal M1 -> Zpos M2 < 2 ^ 53 -> E1 + E2 <= 917 ->
  exists M E, fmul (S754_finite s1 M1 E1) (S754_finite s2 M2 E2) = mkfloat (xorb s1 s2) M E
    /\ 0 <= M < 2 ^ 53 /\ E <= fexp64 (106 + (E1 + E2)) + 1.
Proof.
  intros [L1 U1] U2 HE.
  assert (Hlo : 2 ^ 52 <= Zpos (M1 * M2)) by (rewrite Pos2Z.inj_mul; nia).
  assert (Hhi : Zpos (M1 * M2) < 2 ^ 106).
  { rewrite Pos2Z.inj_mul. change (2 ^ 106) with (2 ^ 53 * 2 ^ 53). nia. }
  assert (Hd : 53 <= Zdigits2 (Zpos (M1 * M2)) <= 106).
  { split; [apply Zdigits2_ge; simpl; lia | apply Zdigits2_le; lia]. }
  destruct (round_aux_total (xorb s1 s2) (Zpos (M1 * M2)) (E1 + E2) loc_Exact)
    as (M & E & HR & HM & HEb); try lia.
  { unfold fexp64; lia. }
  exists M, E. split; [exact HR|]. split; [exact HM|].
  eapply Z.le_trans; [exact HEb|].
  apply Z.add_le_mono_r, fexp64_mono. lia.
Qed.

(** [n * x] never raises for a small non-negative [n] and a bounded [x]. *)
Lemma int_mul_float_total n x B :
  0 <= n < 2 ^ 100 -> bounded_float B x -> -1074 <= B <= 800 ->
  exists f, int_mul_float n x = Ret f /\ bounded_float (B + 102) f.
Proof.
  intros Hn Hx HB. unfold int_mul_float.
  destruct (float_of_int_total n Hn) as [[-> HR] | (Mn & En & HR & HN & HE)]; rewrite HR; cbn [bind].
  - destruct x as [sx | sx | | sx mx ex]; try contradiction; eexists; split; try reflexivity; exact I.
  - destruct x as [sx | sx | | sx mx ex]; try contradiction.
    + eexists; split; [reflexivity | exact I].
    + destruct Hx as [Hm Hex].
      destruct (fmul_finite_total false Mn En sx mx ex HN Hm ltac:(lia)) as (M & E & HRm & HM & HEb).
      exists (mkfloat (xorb false sx) M E). split; [rewrite HRm; reflexivity|].
      apply mkfloat_bounded; [exact HM|]. unfold fexp64 in HEb. lia.
Qed.

Lemma div_round_total s m1 e1 m2 e2 :
  0 < m1 -> 0 < m2 ->
  let D := Zdigits2 m1 + e1 - (Zdigits2 m2 + e2) in
  D <= 1022 ->
  exists M E,
    (let '(mz, ez, lz) := SFdiv_core_binary 53 1024 m1 e1 m2 e2 in
     binary_round_aux 53 1024 s mz ez lz) = mkfloat s M E
    /\ 0 <= M < 2 ^ 53 /\ E <= fexp64 (D + 1) + 1.
Proof.
  intros H1 H2 D HD.
  unfold SFdiv_core_binary. rewrite fexp_64.
  destruct (Zdigits2_bounds m1 H1) as [L1 U1].
  destruct (Zdigits2_bounds m2 H2) as [L2 U2].
  assert (N1 : 1 <= Zdigits2 m1) by (destruct m1; simpl; lia).
  assert (P2 : 1 <= Zdigits2 m2) by (destruct m2; simpl; lia).
  set (d1 := Zdigits2 m1) in *. set (d2 := Zdigits2 m2) in *.
  fold D.
  set (e' := Z.min (fexp64 D) (e1 - e2)).
  set (sh := e1 - e2 - e').
  assert (Hsh : 0 <= sh) by (unfold sh, e'; lia).
  assert (Hm' : forall x, 0 <= x ->
            match x with Z.pos _ => Z.shiftl m1 x | 0 => m1 | Z.neg _ => 0 end = m1 * 2 ^ x).
  { intros x Hx. destruct x; try lia.
    rewrite Z.shiftl_mul_pow2 by lia. reflexivity. }
  rewrite (Hm' sh Hsh). clear Hm'.
  pose proof (Z_div_mod (m1 * 2 ^ sh) m2 ltac:(lia)) as Hdm.
  destruct (Z.div_eucl (m1 * 2 ^ sh) m2) as [q0 r]. destruct Hdm as [Heq Hr].
  assert (Hp : 0 < 2 ^ sh) by (apply pow2_pos; lia).
  assert (Hq0 : 0 <= q0) by nia.
  assert (Hdlo : d1 + sh - d2 <= Zdigits2 q0).
  { destruct (Z_le_gt_dec (d1 + sh - d2) 0) as [Hle|Hgt].
    - pose proof (Zdigits2_nonneg q0). lia.
    - assert (Hq : 2 ^ (d1 + sh - d2 - 1) <= q0).
      { assert (Hx : 2 ^ (d1 + sh - d2 - 1) * 2 ^ d2 <= m1 * 2 ^ sh).
        { replace (2 ^ (d1 + sh - d2 - 1) * 2 ^ d2) with (2 ^ (d1 - 1) * 2 ^ sh)
            by (rewrite <- !pow2_split by lia; f_equal; lia).
          apply Z.mul_le_mono_nonneg_r; lia. }
        assert (0 < 2 ^ (d1 + sh - d2 - 1)) by (apply pow2_pos; lia).
        nia. }
      assert (0 < q0) by (pose proof (pow2_pos (d1 + sh - d2 - 1) ltac:(lia)); lia).
      apply Zdigits2_ge; [exact Hq | assumption]. }
  assert (Hdhi : Zdigits2 q0 <= Z.max (d1 + sh - d2 + 1) 0).
  { destruct (Z.eq_dec q0 0) as [->|Hne]; [simpl; lia|].
    assert (Hx : q0 * 2 ^ (d2 - 1) < 2 ^ d1 * 2 ^ sh) by nia.
    destruct (Z_le_gt_dec 0 (d1 + sh - d2 + 1)) as [Hle|Hgt].
    - rewrite Z.max_l by lia. apply Zdigits2_le; [|lia].
      split; [lia|].
      replace (2 ^ d1 * 2 ^ sh) with (2 ^ (d1 + sh - d2 + 1) * 2 ^ (d2 - 1)) in Hx
        by (rewrite <- !pow2_split by lia; f_equal; lia).
      pose proof (pow2_pos (d2 - 1) ltac:(lia)). nia.
    - exfalso.
      assert (2 ^ d1 * 2 ^ sh <= 2 ^ (d2 - 1)).
      { rewrite <- pow2_split by lia. apply Z.pow_le_mono_r; lia. }
      pose proof (pow2_pos (d2 - 1) ltac:(lia)). nia. }
  assert (HD' : D = d1 + sh - d2 + e') by (unfold sh, D; lia).
  assert (He' : e' <= fexp64 D) by (unfold e'; lia).
  destruct (round_aux_total s q0 e' (new_location m2 r)) as (M & E & HR & HM & HE); try lia.
  { eapply Z.le_trans; [exact He'|]. apply fexp64_mono. lia. }
  { unfold fexp64 in He'. lia. }
  exists M, E. split; [exact HR|]. split; [exact HM|].
  eapply Z.le_trans; [exact HE|]. apply Z.add_le_mono_r.
  unfold fexp64 in *. lia.
Qed.

(** [t / 2.0] never raises on a bounded float. *)
Lemma fdiv_two_total t B :
  bounded_float B t -> -1074 <= B <= 900 ->
  exists f, fdiv t f2_0 = Ret f /\ bounded_float (B + 1) f.
Proof.
  intros Ht HB. unfold fdiv, f2_0. cbn [is_zero].
  destruct t as [st | st | | st mt et]; try contradiction.
  - eexists; split; [reflexivity | exact I].
  - destruct Ht as [Hm He].
    destruct (div_round_total (xorb st false) (Zpos mt) et 4503599627370496 (-51))
      as (M & E & HR & HM & HE); try lia.
    { pose proof (Zdigits2_le (Zpos mt) 53 ltac:(lia) ltac:(lia)).
      change (Zdigits2 4503599627370496) with 53. lia. }
    exists (mkfloat (xorb st false) M E). split.
    + unfold fdiv_raw, SFdiv, prec, emax. rewrite <- HR. reflexivity.
    + apply mkfloat_bounded; [exact HM|].
      pose proof (Zdigits2_le (Zpos mt) 53 ltac:(lia) ltac:(lia)).
      change (Zdigits2 4503599627370496) with 53 in HE.
      unfold fexp64 in HE. lia.
Qed.

Lemma int_of_float_total f B : bounded_float B f -> exists z, int_of_float f = Ret z.
Proof.
  destruct f; simpl; try contradiction; intros _; eexists; reflexivity.
Qed.

(** A fraction is zero or a finite non-negative float of exponent at most -52. *)
Lemma fraction_bounded x : fraction x = true -> bounded_float (-52) x.
Proof.
  unfold fraction. rewrite !andb_true_iff. intros [[Hv H0] H1].
  destruct x as [s | [|] | | s m e]; try discriminate; [exact I|].
  cbn [valid_binary bounded_float] in *.
  unfold bounded, canonical_mantissa in Hv. rewrite andb_true_iff in Hv.
  destruct Hv as [Hc _]. apply Z.eqb_eq in Hc. rewrite fexp_64 in Hc.
  destruct s; [discriminate|].
  unfold SFleb, SFcompare, f1_0 in H1.
  pose proof (digits2_pos_bounds m) as [_ Hhi].
  assert (Hd : Zpos (digits2_pos m) <= 53) by (unfold fexp64 in Hc; lia).
  split.
  - eapply Z.lt_le_trans; [exact Hhi|]. apply Z.pow_le_mono_r; lia.
  - destruct (Z.compare_spec e (-52)); try lia; discriminate.
Qed.

(** * The script, stage by stage *)

Lemma bind_assoc {A B C} (m : res A) (f : A -> res B) (g : B -> res C) :
  bind (bind m f) g = bind m (fun a => bind (f a) g).
Proof. destruct m; reflexivity. Qed.

Lemma bind_ext {A B} (m : res A) (f g : A -> res B) :
  (forall a, f a = g a) -> bind m f = bind m g.
Proof. intros H. destruct m; simpl; auto. Qed.

Section StageLemmas.
Context {P : Pillow}.

Lemma find_split_vertical_stages img search band :
  find_split_vertical img search band =
  (a <- analysis img ;;
   let '(gray, scale) := a in
   let '(w, h) := size gray in
   mg <- margins h ;;
   let '(y0, y1) := mg in
   sp <- search_params w search band ;;
   let '(xs, band_px) := sp in
   c <- choose (w / 2) (fun x => gutter_score_vertical gray x band_px y0 y1) xs ;;
   to_full c scale).
Proof.
  unfold find_split_vertical, analysis.
  destruct (downsample_for_analysis (convert_RGB img) 900) as [[small scale]|e]; [|reflexivity].
  cbn [bind]. destruct (size (convert_L small)) as [w h].
  unfold margins.
  destruct (int_mul_float h f0_08) as [t0|]; [|reflexivity]. cbn [bind].
  destruct (int_of_float t0) as [y0|]; [|reflexivity]. cbn [bind].
  destruct (int_mul_float h f0_92) as [t1|]; [|reflexivity]. cbn [bind].
  destruct (int_of_float t1) as [y1|]; [|reflexivity]. cbn [bind].
  unfold search_params.
  destruct (int_mul_float w search) as [t|]; [|reflexivity]. cbn [bind].
  destruct (fdiv t f2_0) as [t2|]; [|reflexivity]. cbn [bind].
  destruct (int_of_float t2) as [hw|]; [|reflexivity]. cbn [bind].
  destruct (int_mul_float w band) as [tb|]; [|reflexivity]. cbn [bind].
  destruct (int_of_float tb) as [ib|]; [|reflexivity]. cbn [bind].
  destruct (int_truediv w 500) as [q|]; [|reflexivity]. cbn [bind].
  destruct (int_of_float q) as [iq|]; [|reflexivity]. cbn [bind].
  destruct (range _ _ _) as [xs|]; [|reflexivity]. cbn [bind].
  unfold choose.
  destruct (search_loop _ xs _) as [[best bs]|]; [|reflexivity]. cbn [bind].
  destruct (gutter_score_vertical _ _ _ _ _) as [c|]; [|reflexivity]. cbn [bind].
  destruct (int_mul_float c f0_95) as [thr|]; [|reflexivity]. cbn [bind].
  reflexivity.
Qed.

Lemma find_split_horizontal_stages img search band :
  find_split_horizontal img search band =
  (a <- analysis img ;;
   let '(gray, scale) := a in
   let '(w, h) := size gray in
   mg <- margins w ;;
   let '(x0, x1) := mg in
   sp <- search_params h search band ;;
   let '(xs, band_px) := sp in
   c <- choose (h / 2) (fun y => gutter_score_horizontal gray y band_px x0 x1) xs ;;
   to_full c scale).
Proof.
  unfold find_split_horizontal, analysis.
  destruct (downsample_for_analysis (convert_RGB img) 900) as [[small scale]|e]; [|reflexivity].
  cbn [bind]. destruct (size (convert_L small)) as [w h].
  unfold margins.
  destruct (int_mul_float w f0_08) as [t0|]; [|reflexivity]. cbn [bind].
  destruct (int_of_float t0) as [y0|]; [|reflexivity]. cbn [bind].
  destruct (int_mul_float w f0_92) as [t1|]; [|reflexivity]. cbn [bind].
  destruct (int_of_float t1) as [y1|]; [|reflexivity]. cbn [bind].
  unfold search_params.
  destruct (int_mul_float h search) as [t|]; [|reflexivity]. cbn [bind].
  destruct (fdiv t f2_0) as [t2|]; [|reflexivity]. cbn [bind].
  destruct (int_of_float t2) as [hw|]; [|reflexivity]. cbn [bind].
  destruct (int_mul_float h band) as [tb|]; [|reflexivity]. cbn [bind].
  destruct (int_of_float tb) as [ib|]; [|reflexivity]. cbn [bind].
  destruct (int_truediv h 500) as [q|]; [|reflexivity]. cbn [bind].
  destruct (int_of_float q) as [iq|]; [|reflexivity]. cbn [bind].
  destruct (range _ _ _) as [xs|]; [|reflexivity]. cbn [bind].
  unfold choose.
  destruct (search_loop _ xs _) as [[best bs]|]; [|reflexivity]. cbn [bind].
  destruct (gutter_score_horizontal _ _ _ _ _) as [c|]; [|reflexivity]. cbn [bind].
  destruct (int_mul_float c f0_95) as [thr|]; [|reflexivity]. cbn [bind].
  reflexivity.
Qed.

(** Both axes at once. *)
Lemma find_split_stages m img search band :
  find_split m img search band =
  (a <- analysis img ;;
   let '(gray, scale) := a in
   mg <- margins (across m (size gray)) ;;
   let '(p0, p1) := mg in
   sp <- search_params (along m (size gray)) search band ;;
   let '(xs, band_px) := sp in
   c <- choose (along m (size gray) / 2) (fun x => gutter_score m gray x band_px p0 p1) xs ;;
   to_full c scale).
Proof.
  destruct m; cbn [find_split gutter_score along across];
    rewrite ?find_split_vertical_stages, ?find_split_horizontal_stages;
    destruct (analysis img) as [[gray scale]|]; try reflexivity; cbn [bind];
    destruct (size gray) as [w h]; reflexivity.
Qed.

End StageLemmas.

(** * The scorer *)

Lemma gutter_score_unfold m gray c band_px p0 p1 :
  gutter_score m gray c band_px p0 p1 =
  let '(a0, a1) := band_extent (along m (size gray)) c band_px in
  if a1 <=? a0 then Ret sentinel
  else band <- crop gray (band_box m gray c band_px p0 p1) ;;
       Ret (score_of_histogram (histogram band)).
Proof.
  destruct m; unfold gutter_score, gutter_score_vertical, gutter_score_horizontal,
    band_box, band_extent, along; destruct (size gray) as [w h]; reflexivity.
Qed.

Lemma sum_acc l : forall a, fold_left Z.add l a = a + sum l.
Proof.
  unfold sum. induction l as [|x l IH]; intros a; simpl; [lia|].
  rewrite IH, (IH x). lia.
Qed.

Lemma sum_cons x l : sum (x :: l) = x + sum l.
Proof. unfold sum at 1. simpl. apply sum_acc. Qed.

Lemma sum_map_add {A} (f g : A -> Z) l :
  sum (map (fun i => f i + g i) l) = sum (map f l) + sum (map g l).
Proof.
  induction l as [|x l IH]; [reflexivity|].
  cbn [map]. rewrite !sum_cons, IH. lia.
Qed.

Lemma sum_map_ext {A} (f g : A -> Z) l :
  (forall i, In i l -> f i = g i) -> sum (map f l) = sum (map g l).
Proof.
  induction l as [|x l IH]; intros H; [reflexivity|].
  cbn [map]. rewrite !sum_cons.
  rewrite IH by (intros; apply H; simpl; auto).
  rewrite (H x) by (simpl; auto). reflexivity.
Qed.

Lemma combine_map_self {A B} (g : A -> B) l :
  combine l (map g l) = map (fun i => (i, g i)) l.
Proof. induction l as [|x l IH]; simpl; [|rewrite IH]; reflexivity. Qed.

Lemma score_of_histogram_reference im :
  score_of_histogram (histogram im) = ink_reference (pixels im).
Proof.
  unfold score_of_histogram, histogram, enumerate, ink_reference. cbv zeta.
  rewrite length_map.
  replace (Z.of_nat (length (zrange 0 256))) with 256 by reflexivity.
  rewrite combine_map_self, map_map. reflexivity.
Qed.

Lemma count_cons i p ps :
  count i (p :: ps) = (if intensity p =? i then 1 else 0) + count i ps.
Proof.
  unfold count. cbn [filter]. destruct (intensity p =? i); cbn [length]; lia.
Qed.

Lemma ink_one p :
  sum (map (fun i => (255 - i) * (if intensity p =? i then 1 else 0)) (zrange 0 256))
  = 255 - intensity p.
Proof. destruct p; vm_compute; reflexivity. Qed.

Lemma ink_reference_ink ps : ink_reference ps = ink ps.
Proof.
  unfold ink_reference, ink. induction ps as [|p ps IH].
  - vm_compute. reflexivity.
  - cbn [map]. rewrite sum_cons, <- IH, <- ink_one, <- sum_map_add.
    apply sum_map_ext. intros i _. rewrite count_cons. ring.
Qed.

Lemma intensity_range p : 0 <= intensity p <= 255.
Proof. destruct p; vm_compute; split; discriminate. Qed.

Lemma ink_bounds ps : 0 <= ink ps <= 255 * Z.of_nat (length ps).
Proof.
  unfold ink. induction ps as [|p ps IH]; [vm_compute; split; discriminate|].
  cbn [map length]. rewrite sum_cons, Nat2Z.inj_succ.
  pose proof (intensity_range p). lia.
Qed.

Lemma ink_const v ps :
  (forall p, In p ps -> p = v) -> ink ps = (255 - intensity v) * Z.of_nat (length ps).
Proof.
  unfold ink. induction ps as [|p ps IH]; intros H; [cbn; lia|].
  cbn [map length]. rewrite sum_cons, Nat2Z.inj_succ.
  rewrite IH by (intros; apply H; simpl; auto).
  rewrite (H p) by (simpl; auto). ring.
Qed.

Lemma zrange_length lo hi : Z.of_nat (length (zrange lo hi)) = Z.max 0 (hi - lo).
Proof. unfold zrange. rewrite length_map, length_seq. lia. Qed.

Lemma flat_map_length_const {A B} (f : A -> list B) n l :
  (forall a, length (f a) = n) -> length (flat_map f l) = (length l * n)%nat.
Proof.
  intros H. induction l as [|a l IH]; [reflexivity|].
  cbn [flat_map length]. rewrite length_app, H, IH. lia.
Qed.

Lemma pixels_length im :
  Z.of_nat (length (pixels im)) = Z.max 0 (fst (size im)) * Z.max 0 (snd (size im)).
Proof.
  unfold pixels.
  rewrite (flat_map_length_const _ (length (zrange 0 (fst (size im)))))
    by (intros; apply length_map).
  rewrite Nat2Z.inj_mul, !zrange_length. rewrite !Z.sub_0_r. ring.
Qed.

Lemma crop_ok im l u r d :
  l <= r -> u <= d ->
  exists c, crop im (l, u, r, d) = Ret c /\ size c = (r - l, d - u).
Proof.
  intros Hl Hu. unfold crop.
  destruct (r <? l) eqn:E1; [apply Z.ltb_lt in E1; lia|].
  destruct (d <? u) eqn:E2; [apply Z.ltb_lt in E2; lia|].
  simpl. eexists; split; reflexivity.
Qed.

(** The scorer on a band that is not empty along the search axis. *)
Lemma gutter_score_band m gray c band_px p0 p1 :
  fst (band_extent (along m (size gray)) c band_px)
    < snd (band_extent (along m (size gray)) c band_px) ->
  p0 <= p1 ->
  exists band,
    crop gray (band_box m gray c band_px p0 p1) = Ret band
    /\ gutter_score m gray c band_px p0 p1 = Ret (ink (pixels band))
    /\ Z.of_nat (length (pixels band))
       = (snd (band_extent (along m (size gray)) c band_px)
          - fst (band_extent (along m (size gray)) c band_px)) * (p1 - p0).
Proof.
  intros Hext Hp. rewrite gutter_score_unfold. unfold band_box.
  destruct (band_extent (along m (size gray)) c band_px) as [a0 a1]. cbn [fst snd] in *.
  replace (a1 <=? a0) with false by (symmetry; apply Z.leb_gt; lia).
  destruct m.
  - destruct (crop_ok gray p0 a0 p1 a1) as (band & Hc & Hs); try lia.
    exists band. rewrite Hc. cbn [bind].
    rewrite score_of_histogram_reference, ink_reference_ink, pixels_length, Hs.
    cbn [fst snd]. repeat split. rewrite !Z.max_r by lia. ring.
  - destruct (crop_ok gray a0 p0 a1 p1) as (band & Hc & Hs); try lia.
    exists band. rewrite Hc. cbn [bind].
    rewrite score_of_histogram_reference, ink_reference_ink, pixels_length, Hs.
    cbn [fst snd]. repeat split. rewrite !Z.max_r by lia. ring.
  - destruct (crop_ok gray p0 a0 p1 a1) as (band & Hc & Hs); try lia.
    exists band. rewrite Hc. cbn [bind].
    rewrite score_of_histogram_reference, ink_reference_ink, pixels_length, Hs.
    cbn [fst snd]. repeat split. rewrite !Z.max_r by lia. ring.
Qed.

(** * Arithmetic of the script *)

(** From a half-ulp bound to bounds on the truncated value. *)
Lemma approx_floor_loose N Q M T :
  0 < T -> 0 < Q -> 0 <= M -> Z.abs (2 * N * T - 2 * M * Q) <= Q ->
  2 * Q * (M / T) <= 2 * N + Q /\ 2 * N < 2 * Q * (M / T + 1) + Q.
Proof.
  intros HT HQ HM Habs.
  pose proof (Z.mul_div_le M T HT) as Hlo.
  pose proof (Z.mul_succ_div_gt M T HT) as Hhi.
  set (z := M / T) in *.
  split.
  - destruct (Z_le_gt_dec (2 * Q * z) (2 * N + Q)) as [|Hgt]; [assumption|exfalso].
    assert (2 * Q * z - 2 * N >= Q + 1) by lia.
    assert ((2 * Q * z - 2 * N) * T >= (Q + 1) * T) by nia.
    nia.
  - destruct (Z_lt_le_dec (2 * N) (2 * Q * (z + 1) + Q)) as [|Hge]; [assumption|exfalso].
    assert (2 * N * T >= (2 * Q * (z + 1) + Q) * T) by nia.
    assert (2 * M * Q <= 2 * (T * (z + 1) - 1) * Q) by nia.
    nia.
Qed.

(** When the ulp is finer than [1/Q], truncation gives the floor of [N/Q]. *)
Lemma approx_floor_tight N Q M T :
  0 < Q < T -> 0 <= M -> Z.abs (2 * N * T - 2 * M * Q) <= Q ->
  M / T = N / Q.
Proof.
  intros HQ HM Habs.
  assert (HT : 0 < T) by lia.
  pose proof (Z.mul_div_le M T HT) as Hlo.
  pose proof (Z.mul_succ_div_gt M T HT) as Hhi.
  set (z := M / T) in *.
  assert (H1 : Q * z <= N).
  { destruct (Z_le_gt_dec (Q * z) N) as [|Hgt]; [assumption|exfalso].
    assert ((Q * z - N) * T >= 1 * T) by nia. nia. }
  assert (H2 : N < Q * (z + 1)).
  { destruct (Z_lt_le_dec N (Q * (z + 1))) as [|Hge]; [assumption|exfalso].
    assert (2 * N * T >= 2 * (Q * (z + 1)) * T) by nia.
    assert (2 * M * Q <= 2 * (T * (z + 1) - 1) * Q) by nia.
    nia. }
  apply Z.div_unique with (r := N - Q * z); [left; nia | ring].
Qed.

(** The ulp of a normal double that approximates [N/Q] with [N < 2^31 Q]. *)
Lemma approx_ulp_fine N Q M T :
  0 < Q -> 0 < N < 2 ^ 31 * Q -> 0 < T -> 2 ^ 52 <= M ->
  Z.abs (2 * N * T - 2 * M * Q) <= Q -> 2 ^ 20 * Q < T * Q.
Proof.
  intros HQ HN HT HM Habs.
  assert (2 ^ 53 * Q <= 2 * M * Q) by nia.
  assert (2 * N * T < 2 ^ 32 * Q * T) by nia.
  nia.
Qed.

(** [a / float(D)] for positive ints below [2^31]. *)
Lemma int_div_int_approx a D :
  0 < a < 2 ^ 31 -> 0 < D < 2 ^ 31 ->
  exists fd M E, float_of_int D = Ret fd
    /\ int_div_float a fd = Ret (S754_finite false M E)
    /\ normal M /\ -83 <= E <= -21
    /\ Z.abs (2 * a * 2 ^ (- E) - 2 * Zpos M * D) <= D.
Proof.
  intros Ha HD.
  assert (HD53 : 0 < D < 2 ^ 53) by (change (2 ^ 53) with (2 ^ 31 * 2 ^ 22); lia).
  pose proof (digits_lt_pow D 31 HD ltac:(lia)) as DD.
  destruct (float_of_int_normal D HD53) as (MD & ED & HRD & HND & HED & HVD).
  destruct (int_div_float_approx a MD ED Ha HND ltac:(lia)) as (M & E & HR & HN & HE & Habs).
  exists (S754_finite false MD ED), M, E.
  split; [exact HRD|]. split; [exact HR|]. split; [exact HN|]. split; [lia|].
  rewrite HVD in Habs.
  apply (abs_cancel (2 ^ (- ED))); [apply pow2_pos; lia|].
  replace (2 ^ (- ED) * (2 * a * 2 ^ (- E) - 2 * Zpos M * D))
    with (2 * a * 2 ^ (- ED) * 2 ^ (- E) - 2 * Zpos M * (D * 2 ^ (- ED))) by ring.
  replace (2 ^ (- ED) * D) with (D * 2 ^ (- ED)) by ring. exact Habs.
Qed.

Lemma fle_one_r M E :
  normal M -> E <= 0 ->
  fle (S754_finite false M E) f1_0 = true <-> Zpos M <= 2 ^ (- E).
Proof.
  intros HN HE. unfold f1_0.
  rewrite (fle_normal M E 4503599627370496 (-52) HN) by (try lia; split; vm_compute; congruence).
  change (2 ^ (- -52)) with 4503599627370496. lia.
Qed.

Lemma fle_one_l M E :
  normal M -> E <= 0 ->
  fle f1_0 (S754_finite false M E) = true <-> 2 ^ (- E) <= Zpos M.
Proof.
  intros HN HE. unfold f1_0.
  rewrite (fle_normal 4503599627370496 (-52) M E) by (try lia; try exact HN; split; vm_compute; congruence).
  change (2 ^ (- -52)) with 4503599627370496. lia.
Qed.

(** The scale test: [max(w,h) / float(max_dim) <= 1.0] exactly when
    [max(w,h) <= max_dim]. *)
Lemma scale_le_one a D M E :
  0 < a -> 0 < D < 2 ^ 31 -> normal M -> E <= 0 ->
  Z.abs (2 * a * 2 ^ (- E) - 2 * Zpos M * D) <= D ->
  (Zpos M <= 2 ^ (- E) <-> a <= D).
Proof.
  intros Ha HD [HM _] HE Habs.
  assert (HT : 0 < 2 ^ (- E)) by (apply pow2_pos; lia).
  set (T := 2 ^ (- E)) in *.
  assert (HD52 : D < 2 ^ 52) by (change (2 ^ 52) with (2 ^ 31 * 2 ^ 21); lia).
  split; intros H.
  - destruct (Z_le_gt_dec a D) as [|Hgt]; [assumption|exfalso].
    assert (2 * a * T >= 2 * (D + 1) * T) by nia.
    assert (2 * Zpos M * D <= 2 * T * D) by nia.
    nia.
  - destruct (Z_le_gt_dec (Zpos M) T) as [|Hgt]; [assumption|exfalso].
    assert (2 * Zpos M * D >= 2 * (T + 1) * D) by nia.
    assert (2 * a * T <= 2 * D * T) by nia.
    nia.
Qed.

(** The resampled dimension [int(w / scale)] never exceeds [max_dim]. *)
Lemma new_dim_le a D w Ms Ts Mq Tq :
  0 < D -> 0 < w <= a -> 0 < Ts -> 0 < Tq -> 2 ^ 52 <= Ms -> D < 2 ^ 52 -> 0 <= Mq ->
  Z.abs (2 * a * Ts - 2 * Ms * D) <= D ->
  Z.abs (2 * w * Ts * Tq - 2 * Mq * Ms) <= Ms ->
  0 <= Mq / Tq <= D.
Proof.
  intros HD Hw HTs HTq HMs HD52 HMq Hs Hq.
  split; [apply Z.div_pos; lia|].
  apply Z.lt_succ_r. apply Z.div_lt_upper_bound; [lia|].
  destruct (Z_lt_le_dec Mq (Tq * Z.succ D)) as [|Hge]; [assumption|exfalso].
  assert (H1 : 2 * Mq * Ms >= 2 * (Tq * (D + 1)) * Ms) by nia.
  assert (H2 : 2 * w * Ts * Tq <= 2 * a * Ts * Tq) by nia.
  assert (H3 : 2 * a * Ts <= 2 * Ms * D + D) by lia.
  assert (H4 : 2 * a * Ts * Tq <= (2 * Ms * D + D) * Tq) by nia.
  assert (H5 : 2 * (Tq * (D + 1)) * Ms - Ms <= (2 * Ms * D + D) * Tq) by lia.
  assert (H6 : Ms * (2 * Tq - 1) <= D * Tq) by nia.
  assert (H7 : Ms * Tq <= Ms * (2 * Tq - 1)) by nia.
  assert (H8 : D * Tq < Ms * Tq) by nia.
  lia.
Qed.

(** * The downsampler *)

Lemma pow2_lt_inv a b : 0 <= b -> 2 ^ a < 2 ^ b -> a < b.
Proof. intros Hb H. apply (Z.pow_lt_mono_r_iff 2); lia. Qed.

Section Downsampler.
Context {P : Pillow}.

Lemma downsample_spec img D w h :
  im_size img = (w, h) -> 1 <= w < 2 ^ 31 -> 1 <= h < 2 ^ 31 -> 1 <= D < 2 ^ 31 ->
  downsampled img w h D (downsample_for_analysis img D).
Proof.
  intros Hsz Hw Hh HD. unfold downsample_for_analysis. rewrite Hsz.
  destruct (int_div_int_approx (Z.max w h) D) as (fd & Ms & Es & Hfd & HR & HN & HE & Habs); try lia.
  rewrite Hfd. cbn [bind]. rewrite HR. cbn [bind].
  pose proof (fle_one_r Ms Es HN ltac:(lia)) as Hle.
  pose proof (scale_le_one (Z.max w h) D Ms Es ltac:(lia) ltac:(lia) HN ltac:(lia) Habs) as Hiff.
  destruct (fle (S754_finite false Ms Es) f1_0) eqn:Efle.
  - apply ds_unchanged. apply Hiff, Hle. reflexivity.
  - assert (Hgt : D < Z.max w h).
    { destruct (Z_lt_le_dec D (Z.max w h)) as [|Hc]; [assumption|exfalso].
      apply Hiff, Hle in Hc. congruence. }
    assert (HMT : 2 ^ (- Es) < Zpos Ms).
    { destruct (Z_lt_le_dec (2 ^ (- Es)) (Zpos Ms)) as [|Hc]; [assumption|exfalso].
      apply Hle in Hc. congruence. }
    assert (HEs : -52 <= Es).
    { destruct HN as [_ HU].
      assert (- Es < 53) by (apply pow2_lt_inv; lia). lia. }
    destruct (int_div_float_approx w Ms Es ltac:(lia) HN ltac:(lia)) as (Mw & Ew & HRw & HNw & HEw & Hw').
    destruct (int_div_float_approx h Ms Es ltac:(lia) HN ltac:(lia)) as (Mh & Eh & HRh & HNh & HEh & Hh').
    rewrite HRw. cbn [bind]. rewrite (int_of_float_finite Mw Ew) by lia. cbn [bind].
    rewrite HRh. cbn [bind]. rewrite (int_of_float_finite Mh Eh) by lia. cbn [bind].
    assert (HD52 : D < 2 ^ 52) by (change (2 ^ 52) with (2 ^ 31 * 2 ^ 21); lia).
    assert (Hbw : 0 <= Zpos Mw / 2 ^ (- Ew) <= D).
    { apply (new_dim_le (Z.max w h) D w (Zpos Ms) (2 ^ (- Es)) (Zpos Mw) (2 ^ (- Ew)));
        try lia; try (apply pow2_pos; lia); try apply HN; try exact Hw'. }
    assert (Hbh : 0 <= Zpos Mh / 2 ^ (- Eh) <= D).
    { apply (new_dim_le (Z.max w h) D h (Zpos Ms) (2 ^ (- Es)) (Zpos Mh) (2 ^ (- Eh)));
        try lia; try (apply pow2_pos; lia); try apply HN; try exact Hh'. }
    apply (ds_resampled img w h D fd Ms Es Mw Ew Mh Eh); try assumption; lia.
Qed.

(** The analysis image has both sizes in [[1, 900]], and the scale is a
    normal double at least one. *)
Lemma analysis_spec img w h :
  im_size img = (w, h) -> 1 <= w < 2 ^ 31 -> 1 <= h < 2 ^ 31 ->
  exists gray Ms Es,
    analysis img = Ret (gray, S754_finite false Ms Es)
    /\ normal Ms /\ -52 <= Es <= -21 /\ 2 ^ (- Es) <= Zpos Ms
    /\ 1 <= fst (size gray) <= 900 /\ 1 <= snd (size gray) <= 900.
Proof.
  intros Hsz Hw Hh. unfold analysis.
  assert (Hsz' : im_size (convert_RGB img) = (w, h)) by (rewrite convert_RGB_size; exact Hsz).
  pose proof (downsample_spec (convert_RGB img) 900 w h Hsz' Hw Hh ltac:(lia)) as Hds.
  inversion Hds as [Hle Heq | fd Ms Es Mw Ew Mh Eh Hgt Hfd HR HN HE HMT Habs Hqw Hqh HEw HEh Haw Hah Hbw Hbh Heq].
  - cbn [bind]. exists (convert_L (convert_RGB img)), 4503599627370496%positive, (-52).
    split; [reflexivity|]. split; [split; vm_compute; congruence|]. split; [lia|].
    split; [vm_compute; congruence|].
    rewrite convert_L_size, Hsz'. cbn [fst snd]. lia.
  - cbn [bind]. eexists _, Ms, Es.
    split; [reflexivity|]. split; [exact HN|]. split; [exact HE|]. split; [lia|].
    rewrite convert_L_size, resize_size by lia. cbn [fst snd]. lia.
Qed.

End Downsampler.

(** * The search *)

Lemma range_spec start stop step :
  1 <= step ->
  exists xs, range start stop step = Ret xs
    /\ xs = map (fun i => start + Z.of_nat i * step) (seq 0 (length xs))
    /\ Z.of_nat (length xs) = Z.max 0 ((stop - start + step - 1) / step)
    /\ (forall x, In x xs -> start <= x < stop).
Proof.
  intros Hs. unfold range.
  replace (step =? 0) with false by (symmetry; apply Z.eqb_neq; lia).
  replace (0 <? step) with true by (symmetry; apply Z.ltb_lt; lia).
  set (n := (stop - start + step - 1) / step).
  eexists. split; [reflexivity|].
  rewrite length_map, length_seq. split; [reflexivity|]. split; [lia|].
  intros x Hx. apply in_map_iff in Hx. destruct Hx as (i & <- & Hi).
  apply in_seq in Hi.
  assert (Hn : Z.of_nat i < n) by lia.
  assert (Hmul : step * n <= stop - start + step - 1) by (apply Z.mul_div_le; lia).
  split; [nia|].
  assert (Z.of_nat i * step <= (n - 1) * step) by nia.
  nia.
Qed.

Lemma search_loop_total score xs :
  (forall x, In x xs -> exists s, score x = Ret s) ->
  forall st, exists st', search_loop score xs st = Ret st'.
Proof.
  induction xs as [|x xs IH]; intros H st; [eexists; reflexivity|].
  cbn [search_loop]. destruct (H x (or_introl eq_refl)) as [s ->]. cbn [bind].
  apply IH. intros y Hy. apply H. right. exact Hy.
Qed.

(** The loop keeps a candidate with the least score, the first one of
    them in the order of the scan. *)
Lemma search_loop_some score xs : forall b0 s0 best bs,
  search_loop score xs (b0, Some s0) = Ret (best, bs) ->
  exists b, bs = Some b /\ b <= s0
    /\ ((best = b0 /\ b = s0) \/ (In best xs /\ score best = Ret b))
    /\ (forall x s, In x xs -> score x = Ret s -> b <= s).
Proof.
  induction xs as [|x xs IH]; intros b0 s0 best bs H.
  - cbn in H. injection H as <- <-. exists s0. repeat split; try lia; auto.
    intros x s [].
  - cbn [search_loop] in H. destruct (score x) as [s|] eqn:Es; [|discriminate].
    cbn [bind snd] in H.
    destruct (s <? s0) eqn:Elt.
    + apply Z.ltb_lt in Elt. apply IH in H.
      destruct H as (b & -> & Hb & Hor & Hmin). exists b.
      split; [reflexivity|]. split; [lia|]. split.
      * right. destruct Hor as [[-> ->] | [Hin Hsc]]; [split; [left; reflexivity | exact Es]|].
        split; [right; exact Hin | exact Hsc].
      * intros y sy [<- | Hy] Hsy; [rewrite Es in Hsy; injection Hsy as <-; lia|].
        eapply Hmin; eauto.
    + apply Z.ltb_ge in Elt. apply IH in H.
      destruct H as (b & -> & Hb & Hor & Hmin). exists b.
      split; [reflexivity|]. split; [lia|]. split.
      * destruct Hor as [[-> ->] | [Hin Hsc]]; [left; auto|right].
        split; [right; exact Hin | exact Hsc].
      * intros y sy [<- | Hy] Hsy; [rewrite Es in Hsy; injection Hsy as <-; lia|].
        eapply Hmin; eauto.
Qed.

Lemma search_loop_none score xs mid best bs :
  search_loop score xs (mid, None) = Ret (best, bs) ->
  (xs = [] /\ best = mid /\ bs = None)
  \/ exists b, bs = Some b /\ In best xs /\ score best = Ret b
       /\ (forall x s, In x xs -> score x = Ret s -> b <= s).
Proof.
  destruct xs as [|x xs]; intros H.
  - cbn in H. injection H as <- <-. left. auto.
  - right. cbn [search_loop] in H. destruct (score x) as [s|] eqn:Es; [|discriminate].
    cbn [bind snd] in H. apply search_loop_some in H.
    destruct H as (b & -> & Hb & Hor & Hmin). exists b.
    split; [reflexivity|].
    destruct Hor as [[-> ->] | [Hin Hsc]].
    + split; [left; reflexivity|]. split; [exact Es|].
      intros y sy [<- | Hy] Hsy; [rewrite Es in Hsy; injection Hsy as <-; lia|].
      eapply Hmin; eauto.
    + split; [right; exact Hin|]. split; [exact Hsc|].
      intros y sy [<- | Hy] Hsy; [rewrite Es in Hsy; injection Hsy as <-; lia|].
      eapply Hmin; eauto.
Qed.

(** [n > x] is monotone in the int. *)
Lemma int_gt_float_mono a b x :
  a <= b -> int_gt_float a x = true -> int_gt_float b x = true.
Proof.
  unfold int_gt_float, int_cmp_float. intros Hab.
  assert (Hcmp : forall u v, u <= v -> forall t,
            match u ?= t with Gt => true | _ => false end = true ->
            match v ?= t with Gt => true | _ => false end = true).
  { intros u v Huv t. destruct (Z.compare_spec u t); try discriminate.
    destruct (Z.compare_spec v t); try lia; reflexivity. }
  destruct x as [s | s | | s m e].
  - apply Hcmp; exact Hab.
  - destruct s; auto.
  - discriminate.
  - destruct e as [|k|k].
    + apply Hcmp; exact Hab.
    + apply Hcmp; exact Hab.
    + apply Hcmp. assert (0 < 2 ^ Z.pos k) by (apply pow2_pos; lia). nia.
Qed.


Lemma normal_const M : (4503599627370496 <=? Zpos M) && (Zpos M <? 9007199254740992) = true -> normal M.
Proof.
  rewrite andb_true_iff, Z.leb_le, Z.ltb_lt. intros [H1 H2]. split; assumption.
Qed.

(** The margins [int(n * 0.08)] and [int(n * 0.92)] of an analysis size. *)
Lemma margins_spec n :
  1 <= n <= 900 ->
  exists p0 p1, margins n = Ret (p0, p1) /\ 0 <= p0 <= p1 /\ p1 <= n.
Proof.
  intros Hn. unfold margins, f0_08, f0_92.
  assert (Hn10 : 0 < n < 2 ^ 10) by (change (2 ^ 10) with 1024; lia).
  destruct (int_mul_float_approx 10 n 5764607523034235 (-56) Hn10 ltac:(lia))
    as (M0 & E0 & HR0 & HN0 & HE0 & Habs0); [apply normal_const; reflexivity | lia |].
  destruct (int_mul_float_approx 10 n 8286623314361713 (-53) Hn10 ltac:(lia))
    as (M1 & E1 & HR1 & HN1 & HE1 & Habs1); [apply normal_const; reflexivity | lia |].
  rewrite HR0. cbn [bind]. rewrite int_of_float_finite by lia. cbn [bind].
  rewrite HR1. cbn [bind]. rewrite int_of_float_finite by lia. cbn [bind].
  eexists _, _. split; [reflexivity|].
  change (2 ^ (- -56)) with 72057594037927936 in Habs0.
  change (2 ^ (- -53)) with 9007199254740992 in Habs1.
  replace (2 * n * Z.pos 5764607523034235 * 2 ^ (- E0))
    with (2 * (n * 5764607523034235) * 2 ^ (- E0)) in Habs0 by ring.
  replace (2 * n * Z.pos 8286623314361713 * 2 ^ (- E1))
    with (2 * (n * 8286623314361713) * 2 ^ (- E1)) in Habs1 by ring.
  assert (HT0 : 0 < 2 ^ (- E0)) by (apply pow2_pos; lia).
  assert (HT1 : 0 < 2 ^ (- E1)) by (apply pow2_pos; lia).
  pose proof (approx_floor_loose (n * 5764607523034235) 72057594037927936 (Zpos M0) _
                HT0 ltac:(lia) ltac:(lia) Habs0) as B0.
  pose proof (approx_floor_loose (n * 8286623314361713) 9007199254740992 (Zpos M1) _
                HT1 ltac:(lia) ltac:(lia) Habs1) as B1.
  assert (0 <= Zpos M0 / 2 ^ (- E0)) by (apply Z.div_pos; [lia | apply pow2_pos; lia]).
  assert (0 <= Zpos M1 / 2 ^ (- E1)) by (apply Z.div_pos; [lia | apply pow2_pos; lia]).
  lia.
Qed.

(** [int(d / 500)] is the floor of the quotient. *)
Lemma stride_spec d :
  0 <= d < 2 ^ 31 ->
  exists q, int_truediv d 500 = Ret q /\ int_of_float q = Ret (d / 500).
Proof.
  intros Hd. destruct (Z.eq_dec d 0) as [->|Hd0].
  - eexists. split; reflexivity.
  - destruct (int_truediv_approx d 500 ltac:(lia) ltac:(lia)) as (M & E & HR & HN & HE & Habs).
    exists (S754_finite false M E). split; [exact HR|].
    rewrite int_of_float_finite by lia. f_equal.
    assert (HT : 0 < 2 ^ (- E)) by (apply pow2_pos; lia).
    apply approx_floor_tight; try lia.
    pose proof (approx_ulp_fine d 500 (Zpos M) (2 ^ (- E)) ltac:(lia) ltac:(lia) HT (proj1 HN) Habs).
    lia.
Qed.

(** The search window, band thickness and candidates for a size below
    [2^31] and fractions in [[0, 1]]. *)
Lemma search_params_spec d search band :
  0 <= d < 2 ^ 31 -> fraction search = true -> fraction band = true ->
  exists t t2 half_window xs band_px,
    int_mul_float d search = Ret t /\ fdiv t f2_0 = Ret t2
    /\ int_of_float t2 = Ret half_window
    /\ search_params d search band = Ret (xs, band_px)
    /\ 2 <= band_px
    /\ range (Z.max 1 (d / 2 - half_window))
             (Z.min (d - 2) (d / 2 + half_window) + 1)
             (Z.max 1 (d / 500)) = Ret xs.
Proof.
  intros Hd Hs Hb. unfold search_params.
  assert (Hd100 : 0 <= d < 2 ^ 100).
  { split; [lia|]. eapply Z.lt_le_trans; [apply Hd|]. apply Z.pow_le_mono_r; lia. }
  destruct (int_mul_float_total d search (-52) Hd100 (fraction_bounded _ Hs) ltac:(lia))
    as (t & Ht & Bt).
  destruct (fdiv_two_total t (-52 + 102) Bt ltac:(lia)) as (t2 & Ht2 & Bt2).
  destruct (int_of_float_total t2 _ Bt2) as (hw & Hhw).
  destruct (int_mul_float_total d band (-52) Hd100 (fraction_bounded _ Hb) ltac:(lia))
    as (tb & Htb & Btb).
  destruct (int_of_float_total tb _ Btb) as (ib & Hib).
  destruct (stride_spec d Hd) as (q & Hq & Hiq).
  destruct (range_spec (Z.max 1 (d / 2 - hw)) (Z.min (d - 2) (d / 2 + hw) + 1) (Z.max 1 (d / 500)))
    as (xs & Hxs & _); [lia|].
  exists t, t2, hw, xs, (Z.max 2 ib).
  rewrite Ht. cbn [bind]. rewrite Ht2. cbn [bind]. rewrite Hhw. cbn [bind].
  rewrite Htb. cbn [bind]. rewrite Hib. cbn [bind].
  rewrite Hq. cbn [bind]. rewrite Hiq. cbn [bind]. rewrite Hxs. cbn [bind].
  repeat split; try reflexivity. lia.
Qed.

(** The scorer never raises when the perpendicular range is not inverted. *)
Lemma gutter_score_total m gray c band_px p0 p1 :
  p0 <= p1 -> 0 <= along m (size gray) ->
  exists s, gutter_score m gray c band_px p0 p1 = Ret s
    /\ 0 <= s <= Z.max sentinel (255 * (along m (size gray) * (p1 - p0))).
Proof.
  intros Hp Hdim.
  destruct (Z_lt_le_dec (fst (band_extent (along m (size gray)) c band_px))
                        (snd (band_extent (along m (size gray)) c band_px))) as [Hlt|Hge].
  - destruct (gutter_score_band m gray c band_px p0 p1 Hlt Hp) as (band & _ & HR & Hlen).
    exists (ink (pixels band)). split; [exact HR|].
    pose proof (ink_bounds (pixels band)) as Hb. rewrite Hlen in Hb.
    unfold band_extent in *. cbn [fst snd] in *.
    split; [lia|].
    assert ((Z.min (along m (size gray)) (Z.max 0 (c - band_px / 2) + band_px)
             - Z.max 0 (c - band_px / 2)) * (p1 - p0)
            <= along m (size gray) * (p1 - p0)) by (apply Z.mul_le_mono_nonneg_r; lia).
    lia.
  - exists sentinel. rewrite gutter_score_unfold.
    destruct (band_extent (along m (size gray)) c band_px) as [a0 a1]. cbn [fst snd] in Hge.
    replace (a1 <=? a0) with true by (symmetry; apply Z.leb_le; lia).
    split; [reflexivity|]. unfold sentinel. lia.
Qed.

Lemma sentinel_small : sentinel < 2 ^ 100.
Proof. vm_compute. reflexivity. Qed.

Lemma choose_total mid scorer xs :
  (forall x, exists s, scorer x = Ret s /\ 0 <= s < 2 ^ 100) ->
  exists c, choose mid scorer xs = Ret c /\ (c = mid \/ In c xs).
Proof.
  intros Hsc. unfold choose.
  destruct (search_loop_total scorer xs (fun x _ => let '(ex_intro _ s (conj H _)) := Hsc x in ex_intro _ s H) (mid, None))
    as ([best bs] & Hloop).
  rewrite Hloop. cbn [bind].
  destruct (Hsc mid) as (c & Hc & Hcb). rewrite Hc. cbn [bind].
  destruct (int_mul_float_total c f0_95 (-53) Hcb) as (thr & Hthr & _);
    [unfold f0_95; split; [reflexivity | lia] | lia |].
  rewrite Hthr. cbn [bind]. eexists. split; [reflexivity|].
  destruct (falls_back bs thr); [left; reflexivity|].
  apply search_loop_none in Hloop. destruct Hloop as [(_ & -> & _) | (b & _ & Hin & _)]; auto.
Qed.

Lemma to_full_total c scale B :
  0 <= c < 2 ^ 100 -> bounded_float B scale -> -1074 <= B <= 800 ->
  exists z, to_full c scale = Ret z.
Proof.
  intros Hc Hs HB. unfold to_full.
  destruct (int_mul_float_total c scale B Hc Hs HB) as (p & Hp & Bp).
  rewrite Hp. cbn [bind]. exact (int_of_float_total p _ Bp).
Qed.

(** [int(c * scale)] on an analysis coordinate is the floor of the
    double product, itself within half an ulp of the exact product. *)
Lemma to_full_floor c Ms Es :
  0 < c < 2 ^ 10 -> normal Ms -> -52 <= Es <= -21 ->
  exists M E, int_mul_float c (S754_finite false Ms Es) = Ret (S754_finite false M E)
    /\ E < 0
    /\ Z.abs (2 * c * Zpos Ms * 2 ^ (- E) - 2 * Zpos M * 2 ^ (- Es)) <= 2 ^ (- Es)
    /\ to_full c (S754_finite false Ms Es) = Ret (Zpos M / 2 ^ (- E))
    /\ (Zpos M / 2 ^ (- E)) * 2 ^ (- E) <= Zpos M < (Zpos M / 2 ^ (- E) + 1) * 2 ^ (- E).
Proof.
  intros Hc HN HE.
  destruct (int_mul_float_approx 10 c Ms Es Hc ltac:(lia) HN ltac:(lia))
    as (M & E & HR & HNM & HEM & Habs).
  exists M, E. split; [exact HR|]. split; [lia|]. split; [exact Habs|].
  unfold to_full. rewrite HR. cbn [bind]. rewrite int_of_float_finite by lia.
  split; [reflexivity|].
  assert (HT : 0 < 2 ^ (- E)) by (apply pow2_pos; lia).
  pose proof (Z.mul_div_le (Zpos M) _ HT).
  pose proof (Z.mul_succ_div_gt (Zpos M) _ HT). lia.
Qed.

(** * The decision *)

Lemma range_inv start stop step xs :
  1 <= step -> range start stop step = Ret xs ->
  forall x, In x xs -> start <= x < stop.
Proof.
  intros Hs HR. destruct (range_spec start stop step Hs) as (xs' & HR' & _ & _ & Hin).
  rewrite HR in HR'. injection HR' as ->. exact Hin.
Qed.

(** Every candidate lies strictly inside the analysis image. *)
Lemma search_params_inv d search band xs band_px :
  search_params d search band = Ret (xs, band_px) ->
  forall x, In x xs -> 1 <= x <= d - 2.
Proof.
  unfold search_params. intros H.
  destruct (int_mul_float d search) as [t|]; [|discriminate]. cbn [bind] in H.
  destruct (fdiv t f2_0) as [t2|]; [|discriminate]. cbn [bind] in H.
  destruct (int_of_float t2) as [hw|]; [|discriminate]. cbn [bind] in H.
  destruct (int_mul_float d band) as [tb|]; [|discriminate]. cbn [bind] in H.
  destruct (int_of_float tb) as [ib|]; [|discriminate]. cbn [bind] in H.
  destruct (int_truediv d 500) as [q|]; [|discriminate]. cbn [bind] in H.
  destruct (int_of_float q) as [iq|]; [|discriminate]. cbn [bind] in H.
  destruct (range _ _ _) as [xs'|] eqn:HR; [|discriminate]. cbn [bind] in H.
  injection H as -> _.
  intros x Hx. pose proof (range_inv _ _ _ _ (Z.le_max_l 1 iq) HR x Hx). lia.
Qed.

Lemma choose_inv mid scorer xs c :
  choose mid scorer xs = Ret c -> c = mid \/ In c xs.
Proof.
  unfold choose. intros H.
  destruct (search_loop scorer xs (mid, None)) as [[best bs]|] eqn:Hloop; [|discriminate].
  cbn [bind] in H.
  destruct (scorer mid) as [cs|]; [|discriminate]. cbn [bind] in H.
  destruct (int_mul_float cs f0_95) as [thr|]; [|discriminate]. cbn [bind] in H.
  injection H as <-.
  destruct (falls_back bs thr); [left; reflexivity|].
  apply search_loop_none in Hloop. destruct Hloop as [(_ & -> & _) | (b & _ & Hin & _)]; auto.
Qed.



Section Totality.
Context {P : Pillow}.

Lemma find_split_total m img search band w h :
  im_size img = (w, h) -> 1 <= w < 2 ^ 31 -> 1 <= h < 2 ^ 31 ->
  fraction search = true -> fraction band = true ->
  exists z, find_split m img search band = Ret z.
Proof.
  intros Hsz Hw Hh Hs Hb. rewrite find_split_stages.
  destruct (analysis_spec img w h Hsz Hw Hh) as (gray & Ms & Es & Ha & HN & HE & _ & Hgw & Hgh).
  rewrite Ha. cbn [bind].
  assert (Hal : 1 <= along m (size gray) <= 900) by (destruct m; cbn [along]; lia).
  assert (Hac : 1 <= across m (size gray) <= 900) by (destruct m; cbn [across]; lia).
  destruct (margins_spec _ Hac) as (p0 & p1 & Hm & Hp & Hp1). rewrite Hm. cbn [bind].
  change (2 ^ 31) with 2147483648 in *.
  destruct (search_params_spec (along m (size gray)) search band ltac:(change (2 ^ 31) with 2147483648; lia) Hs Hb)
    as (t & t2 & hw & xs & band_px & _ & _ & _ & Hsp & _ & Hrange).
  rewrite Hsp. cbn [bind].
  destruct (choose_total (along m (size gray) / 2)
              (fun x => gutter_score m gray x band_px p0 p1) xs) as (c & Hc & Hcin).
  { intros x. destruct (gutter_score_total m gray x band_px p0 p1) as (s & HR & Hsb); try lia.
    exists s. split; [exact HR|]. split; [lia|].
    assert (along m (size gray) * (p1 - p0) <= 900 * 900) by nia.
    pose proof sentinel_small.
    assert (255 * (900 * 900) < 2 ^ 100) by (vm_compute; reflexivity). lia. }
  rewrite Hc. cbn [bind].
  apply (to_full_total c _ (-21)); [| split; [apply HN | lia] | lia].
  assert (0 <= along m (size gray) / 2 <= 900).
  { split; [apply Z.div_pos; lia | apply Z.div_le_upper_bound; lia]. }
  assert (900 < 2 ^ 100) by (vm_compute; reflexivity).
  destruct Hcin as [-> | Hin]; [lia|].
  pose proof (search_params_inv _ _ _ _ _ Hsp c Hin). lia.
Qed.

End Totality.

(** * The orientation test *)

(** The double-precision test [a / b >= 1.35] decides [a/b >= 27/20]
    exactly on sizes below [2^31]. *)
Lemma ratio_test a b :
  0 < a < 2 ^ 31 -> 0 < b < 2 ^ 31 ->
  exists r, int_truediv a b = Ret r /\ fge r f1_35 = (27 * b <=? 20 * a).
Proof.
  intros Ha Hb.
  destruct (int_truediv_approx a b Ha Hb) as (M & E & HR & HN & HE & Habs).
  exists (S754_finite false M E). split; [exact HR|].
  unfold fge, f1_35.
  pose proof (fle_normal 6079859496950170 (-52) M E
                (normal_const 6079859496950170 eq_refl) HN ltac:(lia) ltac:(lia)) as Hfle.
  change (fle (S754_finite false 6079859496950170 (-52)) (S754_finite false M E))
    with (SFleb (S754_finite false 6079859496950170 (-52)) (S754_finite false M E)) in Hfle.
  change (2 ^ (- -52)) with 4503599627370496 in Hfle.
  destruct HN as [HMlo HMhi].
  change (2 ^ 52) with 4503599627370496 in HMlo.
  change (2 ^ 53) with 9007199254740992 in HMhi.
  change (2 ^ 31) with 2147483648 in Ha, Hb.
  assert (HT : 0 < 2 ^ (- E)) by (apply pow2_pos; lia).
  assert (Hcase : 9007199254740992 <= 2 ^ (- E) \/ 2 ^ (- E) = 4503599627370496
                  \/ 2 ^ (- E) <= 2251799813685248).
  { destruct (Z.compare_spec E (-52)) as [Heq|Hlt|Hgt].
    - right; left. subst E. reflexivity.
    - left. change 9007199254740992 with (2 ^ 53). apply Z.pow_le_mono_r; lia.
    - right; right. change 2251799813685248 with (2 ^ 51). apply Z.pow_le_mono_r; lia. }
  set (T := 2 ^ (- E)) in *.
  destruct (Z.leb_spec (27 * b) (20 * a)) as [Hge|Hlt].
  - apply Hfle.
    destruct Hcase as [Hbig | [Heq | Hsmall]].
    + exfalso. assert (2 * a * T >= 2 * a * 9007199254740992) by nia.
      assert (2 * Zpos M * b <= 2 * 9007199254740991 * b) by nia. lia.
    + rewrite Heq in *.
      destruct (Z_le_gt_dec 6079859496950170 (Zpos M)) as [|Hgt]; [lia|exfalso].
      assert (2 * Zpos M * b <= 2 * 6079859496950169 * b) by nia. lia.
    + assert (6079859496950170 * T <= 6079859496950170 * 2251799813685248) by nia.
      assert (4503599627370496 * 4503599627370496 <= Zpos M * 4503599627370496) by nia.
      lia.
  - destruct (SFleb (S754_finite false 6079859496950170 (-52)) (S754_finite false M E)) eqn:Efle;
      [exfalso|reflexivity].
    assert (Hle : 6079859496950170 * T <= Zpos M * 4503599627370496) by (apply Hfle; reflexivity).
    destruct Hcase as [Hbig | [Heq | Hsmall]].
    + assert (6079859496950170 * T >= 6079859496950170 * 9007199254740992) by nia. lia.
    + rewrite Heq in *.
      assert (6079859496950170 <= Zpos M) by lia.
      assert (2 * Zpos M * b >= 2 * 6079859496950170 * b) by nia.
      lia.
    + assert (2 * a * T <= 2 * a * 2251799813685248) by nia.
      assert (2 * Zpos M * b >= 2 * 4503599627370496 * b) by nia.
      lia.
Qed.

Section Claims.
Context {P : Pillow}.

(** C3. Orientation classifier.  In auto mode an image of positive
    width [w] and height [h] is split vertically iff [w / max(h,1) >= 1.35],
    otherwise horizontally iff [h / max(w,1) >= 1.35], otherwise it is a
    single page; the double-precision comparisons are inclusive and
    agree with the exact ratios [w/h >= 27/20] and [h/w >= 27/20];
    [w=135, h=100] is vertical and [w=134, h=100] is single.  An explicit
    vertical or horizontal mode is returned as it is. *)
Theorem C3_orientation_classifier (w h : Z) :
  0 < w < 2 ^ 31 -> 0 < h < 2 ^ 31 ->
  (exists rv rh,
      int_truediv w (Z.max h 1) = Ret rv /\ int_truediv h (Z.max w 1) = Ret rh
      /\ fge rv f1_35 = (27 * h <=? 20 * w) /\ fge rh f1_35 = (27 * w <=? 20 * h)
      /\ choose_mode Auto w h =
         Ret (if fge rv f1_35 then Some Vertical
              else if fge rh f1_35 then Some Horizontal else None))
  /\ choose_mode Vertical w h = Ret (Some Vertical)
  /\ choose_mode Horizontal w h = Ret (Some Horizontal)
  /\ choose_mode Auto 135 100 = Ret (Some Vertical)
  /\ choose_mode Auto 134 100 = Ret None.
Proof.
  intros Hw Hh.
  split; [|repeat split; reflexivity].
  rewrite !Z.max_l by lia.
  destruct (ratio_test w h Hw Hh) as (rv & Hrv & Hv).
  destruct (ratio_test h w Hh Hw) as (rh & Hrh & Hhh).
  exists rv, rh. repeat split; try assumption.
  unfold choose_mode, is_probably_double_page.
  rewrite !Z.max_l by lia. rewrite Hrv. cbn [bind].
  destruct (fge rv f1_35); [reflexivity|].
  rewrite Hrh. cbn [bind]. destruct (fge rh f1_35); reflexivity.
Qed.

(** The guard of the scorer: a band that is empty along the search
    axis after clamping (its end is not beyond its start) scores
    [10^18], whatever the image content and the perpendicular range. *)
Lemma gutter_score_empty_extent (m : mode) (gray : gray_image) (c band_px p0 p1 : Z) :
  snd (band_extent (along m (size gray)) c band_px)
    <= fst (band_extent (along m (size gray)) c band_px) ->
  gutter_score m gray c band_px p0 p1 = Ret (10 ^ 18)
  /\ band_area (along m (size gray)) c band_px p0 p1 = 0.
Proof.
  intros Hdeg. split.
  - rewrite gutter_score_unfold.
    destruct (band_extent (along m (size gray)) c band_px) as [a0 a1]. cbn [fst snd] in Hdeg.
    replace (a1 <=? a0) with true by (symmetry; apply Z.leb_le; lia). reflexivity.
  - unfold band_area. rewrite Z.max_l by lia. reflexivity.
Qed.

(** C7. Reference definition of the score.  On a band that is not
    degenerate the score is the sum over the intensities 0..255 of
    [(255 - i) * count(i)] over the pixels of the band, which is the
    total darkness [255 - p] of its pixels; it lies between 0 and 255
    times the number of pixels, is 0 when every pixel is white (255)
    and 255 times the number of pixels when every pixel is black (0). *)
Theorem C7_score_reference (m : mode) (gray : gray_image) (c band_px p0 p1 : Z) :
  fst (band_extent (along m (size gray)) c band_px)
    < snd (band_extent (along m (size gray)) c band_px) ->
  p0 <= p1 ->
  exists band,
    crop gray (band_box m gray c band_px p0 p1) = Ret band
    /\ gutter_score m gray c band_px p0 p1 = Ret (ink_reference (pixels band))
    /\ ink_reference (pixels band) = ink (pixels band)
    /\ Z.of_nat (length (pixels band))
       = (snd (band_extent (along m (size gray)) c band_px)
          - fst (band_extent (along m (size gray)) c band_px)) * (p1 - p0)
    /\ 0 <= ink_reference (pixels band) <= 255 * Z.of_nat (length (pixels band))
    /\ ((forall p, In p (pixels band) -> p = xff) -> ink_reference (pixels band) = 0)
    /\ ((forall p, In p (pixels band) -> p = x00) ->
        ink_reference (pixels band) = 255 * Z.of_nat (length (pixels band))).
Proof.
  intros Hext Hp.
  destruct (gutter_score_band m gray c band_px p0 p1 Hext Hp) as (band & Hc & HR & Hlen).
  exists band. rewrite ink_reference_ink.
  split; [exact Hc|]. split; [exact HR|]. split; [reflexivity|]. split; [exact Hlen|].
  split; [apply ink_bounds|]. split; intros Hall.
  - rewrite (ink_const xff) by exact Hall. reflexivity.
  - rewrite (ink_const x00) by exact Hall. reflexivity.
Qed.

(** C2 (as amended). Splitter partition.  For an image whose size along
    the split axis is at least 2, the seam is clamped to
    [[1, dimension-1]], both crops succeed and are non-empty, their sizes
    along the split axis add up to the original one and their sizes
    across it are the original's. *)
Theorem C2_splitter_partition (m : mode) (im : image) (search band : float) (s : Z) :
  2 <= along m (im_size im) -> 0 <= across m (im_size im) ->
  find_split m im search band = Ret s ->
  exists a b,
    split_image m im search band = Ret (a, b)
    /\ 1 <= clamp_seam (along m (im_size im)) s <= along m (im_size im) - 1
    /\ along m (im_size a) = clamp_seam (along m (im_size im)) s
    /\ along m (im_size b) = along m (im_size im) - clamp_seam (along m (im_size im)) s
    /\ 0 < along m (im_size a) /\ 0 < along m (im_size b)
    /\ along m (im_size a) + along m (im_size b) = along m (im_size im)
    /\ across m (im_size a) = across m (im_size im)
    /\ across m (im_size b) = across m (im_size im).
Proof.
  intros Hdim Hacr Hs. unfold split_image.
  destruct (im_size im) as [w h] eqn:Hsz.
  assert (Hcl : forall d, 2 <= d -> 1 <= clamp_seam d s <= d - 1) by (unfold clamp_seam; lia).
  destruct m; cbn [along across find_split fst snd] in *; rewrite Hs; cbn [bind];
    specialize (Hcl _ Hdim).
  - destruct (im_crop_spec im 0 0 w (clamp_seam h s)) as (a & Ha & Hsa); try lia.
    destruct (im_crop_spec im 0 (clamp_seam h s) w h) as (b & Hb & Hsb); try lia.
    rewrite Ha, Hb. cbn [bind]. exists a, b. rewrite Hsa, Hsb. cbn [fst snd].
    repeat split; lia.
  - destruct (im_crop_spec im 0 0 (clamp_seam w s) h) as (a & Ha & Hsa); try lia.
    destruct (im_crop_spec im (clamp_seam w s) 0 w h) as (b & Hb & Hsb); try lia.
    rewrite Ha, Hb. cbn [bind]. exists a, b. rewrite Hsa, Hsb. cbn [fst snd].
    repeat split; lia.
  - destruct (im_crop_spec im 0 0 w (clamp_seam h s)) as (a & Ha & Hsa); try lia.
    destruct (im_crop_spec im 0 (clamp_seam h s) w h) as (b & Hb & Hsb); try lia.
    rewrite Ha, Hb. cbn [bind]. exists a, b. rewrite Hsa, Hsb. cbn [fst snd].
    repeat split; lia.
Qed.

(** C4. The downsampler never upscales.  When [max(w,h) <= max_dim] it
    returns the image itself with scale [1.0].  Otherwise [scale] is the
    double within half an ulp of [max(w,h) / max_dim], it is above one,
    and the image is resized to [max(1, int(w / scale))] by
    [max(1, int(h / scale))], where each quotient is the double within
    half an ulp of the exact one and [int] rounds it down.  In every
    case the returned scale is at least [1.0]. *)
Theorem C4_downsampler_never_upscales (img : image) (max_dim w h : Z) :
  im_size img = (w, h) -> 1 <= w < 2 ^ 31 -> 1 <= h < 2 ^ 31 -> 1 <= max_dim < 2 ^ 31 ->
  (Z.max w h <= max_dim -> downsample_for_analysis img max_dim = Ret (img, f1_0))
  /\ (max_dim < Z.max w h ->
      exists fd Ms Es Mw Ew Mh Eh,
        float_of_int max_dim = Ret fd
        /\ int_div_float (Z.max w h) fd = Ret (S754_finite false Ms Es)
        /\ Z.abs (2 * Z.max w h * 2 ^ (- Es) - 2 * Zpos Ms * max_dim) <= max_dim
        /\ fle (S754_finite false Ms Es) f1_0 = false
        /\ int_div_float w (S754_finite false Ms Es) = Ret (S754_finite false Mw Ew)
        /\ int_div_float h (S754_finite false Ms Es) = Ret (S754_finite false Mh Eh)
        /\ Z.abs (2 * w * 2 ^ (- Es) * 2 ^ (- Ew) - 2 * Zpos Mw * Zpos Ms) <= Zpos Ms
        /\ Z.abs (2 * h * 2 ^ (- Es) * 2 ^ (- Eh) - 2 * Zpos Mh * Zpos Ms) <= Zpos Ms
        /\ int_of_float (S754_finite false Mw Ew) = Ret (Zpos Mw / 2 ^ (- Ew))
        /\ int_of_float (S754_finite false Mh Eh) = Ret (Zpos Mh / 2 ^ (- Eh))
        /\ downsample_for_analysis img max_dim
           = Ret (resize img (Z.max 1 (Zpos Mw / 2 ^ (- Ew)), Z.max 1 (Zpos Mh / 2 ^ (- Eh))),
                  S754_finite false Ms Es)
        /\ im_size (resize img (Z.max 1 (Zpos Mw / 2 ^ (- Ew)), Z.max 1 (Zpos Mh / 2 ^ (- Eh))))
           = (Z.max 1 (Zpos Mw / 2 ^ (- Ew)), Z.max 1 (Zpos Mh / 2 ^ (- Eh))))
  /\ (exists out scale,
        downsample_for_analysis img max_dim = Ret (out, scale) /\ fle f1_0 scale = true).
Proof.
  intros Hsz Hw Hh HD.
  pose proof (downsample_spec img max_dim w h Hsz Hw Hh HD) as Hds.
  inversion Hds as [Hle Heq | fd Ms Es Mw Ew Mh Eh Hgt Hfd HR HN HE HMT Habs Hqw Hqh HEw HEh Haw Hah Hbw Hbh Heq].
  - split; [intros _; reflexivity|]. split; [intros Hgt; lia|].
    exists img, f1_0. split; reflexivity.
  - split; [intros Hle; lia|]. split.
    + intros _. exists fd, Ms, Es, Mw, Ew, Mh, Eh.
      split; [exact Hfd|]. split; [exact HR|]. split; [exact Habs|].
      split.
      { destruct (fle (S754_finite false Ms Es) f1_0) eqn:Efle; [exfalso|reflexivity].
        apply fle_one_r in Efle; [lia | exact HN | lia]. }
      split; [exact Hqw|]. split; [exact Hqh|]. split; [exact Haw|]. split; [exact Hah|].
      split; [apply int_of_float_finite; exact HEw|].
      split; [apply int_of_float_finite; exact HEh|].
      split; [reflexivity|]. apply resize_size; lia.
    + eexists _, _. split; [reflexivity|].
      apply fle_one_l; [exact HN | lia | lia].
Qed.

(** C10. Size of the resampled image.  Whenever the downsampler
    resamples (the returned scale is above [1.0]), both sizes of the
    returned image are [max(1, int(size / scale))] and lie in
    [[1, max_dim]]. *)
Theorem C10_resampled_size_bounds (img out : image) (scale : float) (max_dim w h : Z) :
  im_size img = (w, h) -> 1 <= w < 2 ^ 31 -> 1 <= h < 2 ^ 31 -> 1 <= max_dim < 2 ^ 31 ->
  downsample_for_analysis img max_dim = Ret (out, scale) ->
  fle scale f1_0 = false ->
  exists qw iw qh ih,
    int_div_float w scale = Ret qw /\ int_of_float qw = Ret iw
    /\ int_div_float h scale = Ret qh /\ int_of_float qh = Ret ih
    /\ im_size out = (Z.max 1 iw, Z.max 1 ih)
    /\ 1 <= fst (im_size out) <= max_dim
    /\ 1 <= snd (im_size out) <= max_dim.
Proof.
  intros Hsz Hw Hh HD Hret Hscale.
  pose proof (downsample_spec img max_dim w h Hsz Hw Hh HD) as Hds.
  rewrite Hret in Hds.
  inversion Hds as [Hle Heq | fd Ms Es Mw Ew Mh Eh Hgt Hfd HR HN HE HMT Habs Hqw Hqh HEw HEh Haw Hah Hbw Hbh Heq].
  - subst scale. discriminate Hscale.
  - subst. eexists _, _, _, _.
    split; [exact Hqw|]. split; [apply int_of_float_finite; exact HEw|].
    split; [exact Hqh|]. split; [apply int_of_float_finite; exact HEh|].
    rewrite resize_size by lia. cbn [fst snd].
    split; [reflexivity|]. lia.
Qed.

End Claims.

Lemma C3_orientation_classifier_witness :
  choose_mode Auto 2000 1000 = Ret (Some Vertical).
Proof.
  destruct (C3_orientation_classifier 2000 1000 ltac:(vm_compute; split; reflexivity)
              ltac:(vm_compute; split; reflexivity))
    as [(rv & rh & Hrv & Hrh & Hv & Hh & Hc) _].
  rewrite Hc, Hv. reflexivity.
Defined.

Lemma C7_score_reference_witness :
  exists band,
    crop (uniform 10 10 xff) (band_box Vertical (uniform 10 10 xff) 5 2 1 9) = Ret band
    /\ gutter_score Vertical (uniform 10 10 xff) 5 2 1 9 = Ret (ink_reference (pixels band))
    /\ ink_reference (pixels band) = 0.
Proof.
  destruct (C7_score_reference Vertical (uniform 10 10 xff) 5 2 1 9)
    as (band & Hc & HR & _ & _ & _ & Hwhite & _).
  - vm_compute. reflexivity.
  - lia.
  - exists band. split; [exact Hc|]. split; [exact HR|].
    apply Hwhite. vm_compute in Hc. injection Hc as <-.
    intros p Hp. vm_compute in Hp.
    repeat (destruct Hp as [<- | Hp]; [reflexivity|]). contradiction.
Defined.

Lemma C2_splitter_partition_witness :
  exists a b,
    split_image Vertical (uniform 100 20 x80) f0_12 f0_01 = Ret (a, b)
    /\ fst (size a) + fst (size b) = 100.
Proof.
  destruct (C2_splitter_partition (P := GrayPillow) Vertical (uniform 100 20 x80) f0_12 f0_01 50)
    as (a & b & Hsp & _ & _ & _ & _ & _ & Hsum & _).
  - vm_compute. discriminate.
  - vm_compute. discriminate.
  - vm_compute. reflexivity.
  - exists a, b. split; [exact Hsp | exact Hsum].
Defined.

(** C2 as stated fails on an image one pixel wide split vertically: the
    clamped seam is 1, outside [[1, 0]], and the right page is empty. *)
Lemma C2_counterexample :
  exists a b,
    split_image Vertical (uniform 1 10 x80) f0_12 f0_01 = Ret (a, b)
    /\ size a = (1, 10) /\ size b = (0, 10)
    /\ clamp_seam 1 0 = 1.
Proof.
  eexists _, _. split; [vm_compute; reflexivity|].
  repeat split.
Qed.

Lemma C4_downsampler_never_upscales_witness :
  downsample_for_analysis (uniform 100 20 x80) 900 = Ret (uniform 100 20 x80, f1_0).
Proof.
  destruct (C4_downsampler_never_upscales (P := GrayPillow) (uniform 100 20 x80) 900 100 20)
    as (Hsmall & _ & _).
  - reflexivity.
  - vm_compute. split; [discriminate | reflexivity].
  - vm_compute. split; [discriminate | reflexivity].
  - vm_compute. split; [discriminate | reflexivity].
  - apply Hsmall. vm_compute. discriminate.
Defined.

Lemma C10_resampled_size_bounds_witness :
  exists out scale,
    downsample_for_analysis (uniform 1000 20 x80) 900 = Ret (out, scale)
    /\ 1 <= fst (size out) <= 900 /\ 1 <= snd (size out) <= 900.
Proof.
  exists (resize_nearest (uniform 1000 20 x80) (900, 18)),
         (S754_finite false 5003999585967218 (-52)).
  assert (Hret : downsample_for_analysis (uniform 1000 20 x80) 900
                 = Ret (resize_nearest (uniform 1000 20 x80) (900, 18),
                        S754_finite false 5003999585967218 (-52)))
    by (vm_compute; reflexivity).
  split; [exact Hret|].
  destruct (C10_resampled_size_bounds (P := GrayPillow) (uniform 1000 20 x80)
              (resize_nearest (uniform 1000 20 x80) (900, 18))
              (S754_finite false 5003999585967218 (-52)) 900 1000 20)
    as (qw & iw & qh & ih & _ & _ & _ & _ & _ & Hbw & Hbh).
  - reflexivity.
  - vm_compute. split; [discriminate | reflexivity].
  - vm_compute. split; [discriminate | reflexivity].
  - vm_compute. split; [discriminate | reflexivity].
  - exact Hret.
  - vm_compute. reflexivity.
  - split; [exact Hbw | exact Hbh].
Defined.

(** C8 (as amended). Bounded search cost.  For an analysis size [d]
    and fractions in [[0, 1]] the locator scans the positions
    [start, start + stride, ...] with [stride = max(1, d // 500)], all
    within [[max(1, mid - half_window), min(d - 2, mid + half_window)]];
    there are at most 997 of them whatever the size, and at most 898
    (with stride 1) for sizes up to 900. *)
Theorem C8_bounded_search (d : Z) (search band : float) :
  0 <= d < 2 ^ 31 -> fraction search = true -> fraction band = true ->
  exists t t2 half_window xs band_px,
    int_mul_float d search = Ret t /\ fdiv t f2_0 = Ret t2
    /\ int_of_float t2 = Ret half_window
    /\ search_params d search band = Ret (xs, band_px)
    /\ xs = map (fun i => Z.max 1 (d / 2 - half_window) + Z.of_nat i * Z.max 1 (d / 500))
                (seq 0 (length xs))
    /\ (forall x, In x xs ->
          Z.max 1 (d / 2 - half_window) <= x <= Z.min (d - 2) (d / 2 + half_window))
    /\ Z.of_nat (length xs) <= 997
    /\ (d <= 900 -> Z.max 1 (d / 500) = 1 /\ Z.of_nat (length xs) <= 898).
Proof.
  intros Hd Hs Hb.
  destruct (search_params_spec d search band Hd Hs Hb)
    as (t & t2 & hw & xs & band_px & Ht & Ht2 & Hhw & Hsp & _ & Hrange).
  exists t, t2, hw, xs, band_px.
  destruct (range_spec (Z.max 1 (d / 2 - hw)) (Z.min (d - 2) (d / 2 + hw) + 1) (Z.max 1 (d / 500)))
    as (xs' & HR & Hmap & Hlen & Hin); [lia|].
  rewrite Hrange in HR. injection HR as <-.
  repeat (split; [assumption|]).
  split; [intros x Hx; specialize (Hin x Hx); lia|].
  set (start := Z.max 1 (d / 2 - hw)) in *.
  set (stop := Z.min (d - 2) (d / 2 + hw) + 1) in *.
  assert (Hspan : stop - start <= d - 2) by (unfold start, stop; lia).
  assert (Hq : 0 <= d / 500) by (apply Z.div_pos; lia).
  assert (Hq1 : 500 * (d / 500) <= d) by (apply Z.mul_div_le; lia).
  assert (Hq2 : d < 500 * (d / 500 + 1)).
  { pose proof (Z.mul_succ_div_gt d 500 ltac:(lia)). lia. }
  split.
  - rewrite Hlen. apply Z.max_lub; [lia|].
    destruct (Z_le_gt_dec (d / 500) 1) as [Hle|Hgt].
    + rewrite Z.max_l by lia. rewrite Z.div_1_r. lia.
    + rewrite Z.max_r by lia.
      apply Z.div_le_upper_bound; [lia|]. nia.
  - intros Hd900.
    assert (Hst : Z.max 1 (d / 500) = 1).
    { assert (d / 500 < 2) by (apply Z.div_lt_upper_bound; lia). lia. }
    split; [exact Hst|]. rewrite Hlen, Hst, Z.div_1_r. lia.
Qed.

Lemma C8_bounded_search_witness :
  exists xs band_px,
    search_params 900 f0_12 f0_01 = Ret (xs, band_px) /\ Z.of_nat (length xs) <= 997.
Proof.
  destruct (C8_bounded_search 900 f0_12 f0_01) as (t & t2 & hw & xs & bp & _ & _ & _ & Hsp & _ & _ & Hlen & _).
  - vm_compute. split; [discriminate | reflexivity].
  - reflexivity.
  - reflexivity.
  - exists xs, bp. split; [exact Hsp | exact Hlen].
Defined.

(** C8 as stated fails: on an analysis image of size 900 with search
    fraction 0.99 the stride is 1 and 891 positions are scored. *)
Lemma C8_counterexample :
  fraction f0_99 = true
  /\ exists xs band_px,
       search_params 900 f0_99 f0_01 = Ret (xs, band_px)
       /\ length xs = 891%nat /\ (500 < length xs)%nat.
Proof.
  split; [reflexivity|].
  eexists _, _. split; [vm_compute; reflexivity|].
  split; [reflexivity | vm_compute; lia].
Qed.

Section Claims2.
Context {P : Pillow}.

(** C9. Locator totality.  For every image with sizes in [[1, 2^31)]
    and fractions in [[0, 1]], both locators return an integer: no
    exception is raised in the downsampler, the margins, the search
    window, the scorer calls or the back-mapping. *)
Theorem C9_locator_total (img : image) (search band : float) (w h : Z) :
  im_size img = (w, h) -> 1 <= w < 2 ^ 31 -> 1 <= h < 2 ^ 31 ->
  fraction search = true -> fraction band = true ->
  (exists x, find_split_vertical img search band = Ret x)
  /\ (exists y, find_split_horizontal img search band = Ret y).
Proof.
  intros Hsz Hw Hh Hs Hb. split.
  - exact (find_split_total Vertical img search band w h Hsz Hw Hh Hs Hb).
  - exact (find_split_total Horizontal img search band w h Hsz Hw Hh Hs Hb).
Qed.


(** C6 (as amended). Back-mapping.  The returned coordinate is
    [int(c * scale)] for the chosen analysis coordinate [c]: the double
    product (within half an ulp of the exact one) truncated, that is,
    rounded down, not rounded to the nearest integer. *)
Theorem C6_back_mapping_truncates (m : mode) (img : image) (search band : float) (w h z : Z) :
  im_size img = (w, h) -> 1 <= w < 2 ^ 31 -> 1 <= h < 2 ^ 31 ->
  find_split m img search band = Ret z ->
  exists gray Ms Es p0 p1 xs band_px c,
    analysis img = Ret (gray, S754_finite false Ms Es)
    /\ margins (across m (size gray)) = Ret (p0, p1)
    /\ search_params (along m (size gray)) search band = Ret (xs, band_px)
    /\ choose (along m (size gray) / 2) (fun x => gutter_score m gray x band_px p0 p1) xs = Ret c
    /\ to_full c (S754_finite false Ms Es) = Ret z
    /\ ((c = 0 /\ z = 0)
        \/ exists M E,
             int_mul_float c (S754_finite false Ms Es) = Ret (S754_finite false M E)
             /\ E < 0
             /\ Z.abs (2 * c * Zpos Ms * 2 ^ (- E) - 2 * Zpos M * 2 ^ (- Es)) <= 2 ^ (- Es)
             /\ z * 2 ^ (- E) <= Zpos M < (z + 1) * 2 ^ (- E)).
Proof.
  intros Hsz Hw Hh Hz. rewrite find_split_stages in Hz.
  destruct (analysis_spec img w h Hsz Hw Hh) as (gray & Ms & Es & Ha & HN & HE & _ & Hgw & Hgh).
  rewrite Ha in Hz. cbn [bind] in Hz.
  destruct (margins (across m (size gray))) as [[p0 p1]|] eqn:Hm; [|discriminate].
  cbn [bind] in Hz.
  destruct (search_params (along m (size gray)) search band) as [[xs band_px]|] eqn:Hsp; [|discriminate].
  cbn [bind] in Hz.
  destruct (choose (along m (size gray) / 2) (fun x => gutter_score m gray x band_px p0 p1) xs)
    as [c|] eqn:Hc; [|discriminate].
  cbn [bind] in Hz.
  exists gray, Ms, Es, p0, p1, xs, band_px, c.
  repeat (split; [first [assumption | reflexivity]|]).
  assert (Hal : 1 <= along m (size gray) <= 900) by (destruct m; cbn [along]; lia).
  assert (Hcr : 0 <= c <= 900).
  { destruct (choose_inv _ _ _ _ Hc) as [-> | Hin].
    - split; [apply Z.div_pos; lia | apply Z.div_le_upper_bound; lia].
    - pose proof (search_params_inv _ _ _ _ _ Hsp c Hin). lia. }
  destruct (Z.eq_dec c 0) as [-> | Hc0].
  - left. split; [reflexivity|].
    unfold to_full, int_mul_float in Hz. cbn in Hz. congruence.
  - right.
    destruct (to_full_floor c Ms Es ltac:(change (2 ^ 10) with 1024; lia) HN HE)
      as (M & E & HR & HEn & Habs & Hfull & Hfl).
    rewrite Hfull in Hz. injection Hz as <-.
    exists M, E. repeat split; try assumption; lia.
Qed.

End Claims2.

Lemma C9_locator_total_witness :
  (exists x, find_split_vertical (uniform 100 20 x80) f0_12 f0_01 = Ret x)
  /\ (exists y, find_split_horizontal (uniform 100 20 x80) f0_12 f0_01 = Ret y).
Proof.
  apply (C9_locator_total (P := GrayPillow) (uniform 100 20 x80) f0_12 f0_01 100 20).
  - reflexivity.
  - vm_compute. split; [discriminate | reflexivity].
  - vm_compute. split; [discriminate | reflexivity].
  - reflexivity.
  - reflexivity.
Defined.



Lemma C6_back_mapping_truncates_witness :
  exists c Ms Es, to_full c (S754_finite false Ms Es) = Ret 50.
Proof.
  destruct (C6_back_mapping_truncates (P := GrayPillow) Vertical (uniform 100 20 x80)
              f0_12 f0_01 100 20 50)
    as (gray & Ms & Es & p0 & p1 & xs & band_px & c & _ & _ & _ & _ & Hfull & _).
  - reflexivity.
  - vm_compute. split; [discriminate | reflexivity].
  - vm_compute. split; [discriminate | reflexivity].
  - vm_compute. reflexivity.
  - exists c, Ms, Es. exact Hfull.
Defined.

(** C6 as stated fails on a uniform 902 by 20 image: the chosen
    analysis coordinate is the midline 450, the scale is the double
    nearest to 902/900, their double product is just below 451, and the
    locator returns 450 where rounding to the nearest integer gives 451. *)
Lemma C6_counterexample :
  exists gray scale,
    analysis (uniform 902 20 x80) = Ret (gray, scale)
    /\ find_split_vertical (uniform 902 20 x80) f0_12 f0_01 = Ret 450
    /\ to_full 450 scale = Ret 450
    /\ to_full_rounded 450 scale = Ret 451.
Proof.
  eexists _, _. split; [vm_compute; reflexivity|].
  split; [vm_compute; reflexivity|].
  split; vm_compute; reflexivity.
Qed.

(** * The analysis image and the seam, in exact arithmetic *)

(** A quotient rounded twice (once for the scale, once for the size)
    and then truncated is the exact floor of [s * D / N], or one less
    when that quotient is an integer. *)
Lemma resample_floor N s D Ms Ts Mq Tq :
  0 < D <= 900 -> 0 < s <= N -> N < 2 ^ 31 ->
  2 ^ 52 <= Ms -> 2 ^ 21 <= Ts -> 2 ^ 52 <= Mq -> 0 < Tq ->
  Z.abs (2 * N * Ts - 2 * Ms * D) <= D ->
  Z.abs (2 * s * Ts * Tq - 2 * Mq * Ms) <= Ms ->
  Mq / Tq <= D ->
  (Mq / Tq) * N <= s * D /\ s * D <= (Mq / Tq + 1) * N.
Proof.
  intros HD Hs HN HMs HTs HMq HTq H1 H2 Hk.
  set (k := Mq / Tq) in *.
  assert (Hk0 : 0 <= k) by (apply Z.div_pos; lia).
  assert (Hfl : k * Tq <= Mq < (k + 1) * Tq).
  { unfold k. pose proof (Z.mul_div_le Mq Tq HTq).
    pose proof (Z.mul_succ_div_gt Mq Tq HTq). lia. }
  assert (P52 : 2 ^ 52 = 4503599627370496) by reflexivity.
  assert (P31 : 2 ^ 31 = 2147483648) by reflexivity.
  assert (P21 : 2 ^ 21 = 2097152) by reflexivity.
  assert (HTqN : N < Tq).
  { assert ((k + 1) * Tq <= 901 * Tq) by (apply Z.mul_le_mono_nonneg_r; lia). lia. }
  split.
  - destruct (Z_le_gt_dec (k * N) (s * D)) as [|Hc]; [assumption|exfalso].
    assert (A1 : 2 * (k * Tq) * Ms * N <= 2 * Mq * Ms * N).
    { apply Z.mul_le_mono_nonneg_r; [lia|]. apply Z.mul_le_mono_nonneg_r; lia. }
    assert (B1 : 2 * Mq * Ms * N <= (2 * s * Ts * Tq + Ms) * N).
    { apply Z.mul_le_mono_nonneg_r; lia. }
    assert (C1 : (2 * N * Ts) * (s * Tq) <= (2 * Ms * D + D) * (s * Tq)).
    { apply Z.mul_le_mono_nonneg_r; [apply Z.mul_nonneg_nonneg; lia | lia]. }
    assert (D1 : (s * D + 1) * (2 * Tq * Ms) <= (k * N) * (2 * Tq * Ms)).
    { apply Z.mul_le_mono_nonneg_r; [repeat apply Z.mul_nonneg_nonneg; lia | lia]. }
    assert (E0 : s * D <= 2147483648 * 900) by (apply Z.mul_le_mono_nonneg; lia).
    assert (E1 : (s * D) * Tq < Ms * Tq).
    { apply Z.mul_lt_mono_pos_r; lia. }
    assert (F1 : N * Ms < Tq * Ms).
    { apply Z.mul_lt_mono_pos_r; lia. }
    lia.
  - destruct (Z_le_gt_dec (s * D) ((k + 1) * N)) as [|Hc]; [assumption|exfalso].
    assert (A1 : 2 * s * Ts * Tq * D <= (2 * Mq * Ms + Ms) * D).
    { apply Z.mul_le_mono_nonneg_r; lia. }
    assert (B1 : (2 * (Mq + 1) * Ms) * D <= (2 * ((k + 1) * Tq) * Ms) * D).
    { apply Z.mul_le_mono_nonneg_r; [lia|]. apply Z.mul_le_mono_nonneg_r; lia. }
    assert (C1 : (2 * Ms * D) * ((k + 1) * Tq) <= (2 * N * Ts + D) * ((k + 1) * Tq)).
    { apply Z.mul_le_mono_nonneg_r; [apply Z.mul_nonneg_nonneg; lia | lia]. }
    assert (D1 : ((k + 1) * N + 1) * (2 * Ts * Tq) <= (s * D) * (2 * Ts * Tq)).
    { apply Z.mul_le_mono_nonneg_r; [repeat apply Z.mul_nonneg_nonneg; lia | lia]. }
    assert (E0 : (k + 1) * D <= 901 * 900) by (apply Z.mul_le_mono_nonneg; lia).
    assert (E1 : ((k + 1) * D) * Tq < (2 * Ts) * Tq).
    { apply Z.mul_lt_mono_pos_r; lia. }
    assert (F1 : 0 <= Ms * D) by (apply Z.mul_nonneg_nonneg; lia).
    lia.
Qed.

(** The back-mapped coordinate of a candidate of the analysis image
    stays below the full-resolution size. *)
Lemma seam_below n c Ms Ts Mq Tq M T :
  0 < Ts < Ms -> 0 < Tq -> 0 < T -> 0 <= c ->
  (c + 1) * Tq <= Mq ->
  Z.abs (2 * n * Ts * Tq - 2 * Mq * Ms) <= Ms ->
  Z.abs (2 * c * Ms * T - 2 * M * Ts) <= Ts ->
  M / T <= n - 1.
Proof.
  intros HTs HTq HT Hc Hfl H1 H2.
  assert (A1 : 2 * ((c + 1) * Tq) * Ms <= 2 * Mq * Ms).
  { apply Z.mul_le_mono_nonneg_r; lia. }
  assert (B1 : Ms * 1 <= Ms * Tq) by (apply Z.mul_le_mono_nonneg_l; lia).
  assert (C1 : Tq * (2 * c * Ms + Ms) <= Tq * (2 * n * Ts)) by lia.
  apply Z.mul_le_mono_pos_l in C1; [|lia].
  assert (D1 : (2 * c * Ms + Ms) * T <= (2 * n * Ts) * T).
  { apply Z.mul_le_mono_nonneg_r; lia. }
  assert (E1 : Ms * 1 <= Ms * T) by (apply Z.mul_le_mono_nonneg_l; lia).
  assert (F1 : Ts * M < Ts * (T * n)) by lia.
  apply Z.mul_lt_mono_pos_l in F1; [|lia].
  pose proof (Z.div_lt_upper_bound M T n HT F1). lia.
Qed.

(** Multiplying by [1.0] and truncating gives the integer back. *)
Lemma to_full_one c : 0 <= c < 2 ^ 10 -> to_full c f1_0 = Ret c.
Proof.
  intros Hc. destruct (Z.eq_dec c 0) as [-> | Hc0]; [reflexivity|].
  assert (HN : normal 4503599627370496) by (split; vm_compute; congruence).
  destruct (to_full_floor c 4503599627370496 (-52) ltac:(lia) HN ltac:(lia))
    as (M & E & _ & HE & Habs & Hfull & _).
  change (S754_finite false 4503599627370496 (-52)) with f1_0 in Hfull.
  rewrite Hfull. f_equal.
  change (2 ^ (- -52)) with 4503599627370496 in Habs.
  assert (HT : 0 < 2 ^ (- E)) by (apply pow2_pos; lia).
  assert (HM : Zpos M = c * 2 ^ (- E)) by lia.
  rewrite HM. apply Z.div_mul. lia.
Qed.

Section Seam.
Context {P : Pillow}.

(** The stages a returned seam went through. *)
Lemma find_split_inv m img search band gray scale z :
  analysis img = Ret (gray, scale) ->
  find_split m img search band = Ret z ->
  exists c,
    (c = along m (size gray) / 2 \/ 1 <= c <= along m (size gray) - 2)
    /\ to_full c scale = Ret z.
Proof.
  intros Ha Hz. rewrite find_split_stages, Ha in Hz. cbn [bind] in Hz.
  destruct (margins (across m (size gray))) as [[p0 p1]|]; [|discriminate].
  cbn [bind] in Hz.
  destruct (search_params (along m (size gray)) search band) as [[xs band_px]|] eqn:Hsp;
    [|discriminate].
  cbn [bind] in Hz.
  destruct (choose (along m (size gray) / 2) (fun x => gutter_score m gray x band_px p0 p1) xs)
    as [c|] eqn:Hc; [|discriminate].
  cbn [bind] in Hz. exists c. split; [|exact Hz].
  destruct (choose_inv _ _ _ _ Hc) as [-> | Hin]; [left; reflexivity|right].
  exact (search_params_inv _ _ _ _ _ Hsp c Hin).
Qed.

(** Images of at most 900 pixels on their long side are analysed as
    they are. *)
Lemma analysis_small img w h :
  im_size img = (w, h) -> 1 <= w <= 900 -> 1 <= h <= 900 ->
  analysis img = Ret (convert_L (convert_RGB img), f1_0).
Proof.
  intros Hsz Hw Hh.
  assert (Hsz' : im_size (convert_RGB img) = (w, h)) by (rewrite convert_RGB_size; exact Hsz).
  assert (P31 : 2 ^ 31 = 2147483648) by reflexivity.
  pose proof (downsample_spec (convert_RGB img) 900 w h Hsz' ltac:(lia) ltac:(lia) ltac:(lia)) as Hds.
  unfold analysis.
  inversion Hds as [Hle Heq | fd Ms Es Mw Ew Mh Eh Hgt]; [reflexivity | lia].
Qed.

(** What the analysis returns for an image with a side above 900. *)
Lemma analysis_large img w h :
  im_size img = (w, h) -> 1 <= w < 2 ^ 31 -> 1 <= h < 2 ^ 31 -> 900 < Z.max w h ->
  exists gray Ms Es Mw Ew Mh Eh,
    analysis img = Ret (gray, S754_finite false Ms Es)
    /\ size gray = (Z.max 1 (Zpos Mw / 2 ^ (- Ew)), Z.max 1 (Zpos Mh / 2 ^ (- Eh)))
    /\ normal Ms /\ -52 <= Es <= -21 /\ 2 ^ (- Es) < Zpos Ms
    /\ Z.abs (2 * Z.max w h * 2 ^ (- Es) - 2 * Zpos Ms * 900) <= 900
    /\ normal Mw /\ normal Mh /\ Ew <= 0 /\ Eh <= 0
    /\ Z.abs (2 * w * 2 ^ (- Es) * 2 ^ (- Ew) - 2 * Zpos Mw * Zpos Ms) <= Zpos Ms
    /\ Z.abs (2 * h * 2 ^ (- Es) * 2 ^ (- Eh) - 2 * Zpos Mh * Zpos Ms) <= Zpos Ms
    /\ 0 <= Zpos Mw / 2 ^ (- Ew) <= 900 /\ 0 <= Zpos Mh / 2 ^ (- Eh) <= 900.
Proof.
  intros Hsz Hw Hh Hbig.
  assert (Hsz' : im_size (convert_RGB img) = (w, h)) by (rewrite convert_RGB_size; exact Hsz).
  pose proof (downsample_spec (convert_RGB img) 900 w h Hsz' Hw Hh ltac:(lia)) as Hds.
  unfold analysis.
  inversion Hds as [Hle Heq | fd Ms Es Mw Ew Mh Eh Hgt Hfd HR HN HE HMT Habs Hqw Hqh HEw HEh Haw Hah Hbw Hbh Heq];
    [lia|].
  cbn [bind].
  destruct (int_div_float_approx w Ms Es ltac:(lia) HN ltac:(lia)) as (Mw' & Ew' & HRw & HNw & _).
  destruct (int_div_float_approx h Ms Es ltac:(lia) HN ltac:(lia)) as (Mh' & Eh' & HRh & HNh & _).
  rewrite Hqw in HRw. injection HRw as <- <-.
  rewrite Hqh in HRh. injection HRh as <- <-.
  eexists _, Ms, Es, Mw, Ew, Mh, Eh.
  split; [reflexivity|].
  split; [rewrite convert_L_size, resize_size by lia; reflexivity|].
  repeat split; try assumption; try apply HN; try apply HNw; try apply HNh; lia.
Qed.

(** The returned seam is a coordinate of the image. *)
Lemma find_split_bounds m img search band w h z :
  im_size img = (w, h) -> 1 <= w < 2 ^ 31 -> 1 <= h < 2 ^ 31 ->
  find_split m img search band = Ret z ->
  0 <= z <= along m (w, h) - 1.
Proof.
  intros Hsz Hw Hh Hz.
  destruct (Z_le_gt_dec (Z.max w h) 900) as [Hsmall | Hbig].
  - pose proof (analysis_small img w h Hsz ltac:(lia) ltac:(lia)) as Ha.
    destruct (find_split_inv m img search band _ _ z Ha Hz) as (c & Hc & Hfull).
    rewrite convert_L_size, convert_RGB_size, Hsz in Hc.
    assert (Hal : 1 <= along m (w, h) <= 900) by (destruct m; cbn [along fst snd]; lia).
    assert (Hcr : 0 <= c <= along m (w, h) - 1).
    { destruct Hc as [-> | Hc]; [|lia].
      split; [apply Z.div_pos; lia|].
      assert (along m (w, h) / 2 < along m (w, h)) by (apply Z.div_lt_upper_bound; lia). lia. }
    rewrite to_full_one in Hfull by (change (2 ^ 10) with 1024; lia).
    injection Hfull as <-. exact Hcr.
  - destruct (analysis_large img w h Hsz Hw Hh ltac:(lia))
      as (gray & Ms & Es & Mw & Ew & Mh & Eh & Ha & Hgs & HN & HE & HMT & Habs
          & HNw & HNh & HEw & HEh & Haw & Hah & Hbw & Hbh).
    destruct (find_split_inv m img search band _ _ z Ha Hz) as (c & Hc & Hfull).
    rewrite Hgs in Hc.
    set (kw := Zpos Mw / 2 ^ (- Ew)) in *. set (kh := Zpos Mh / 2 ^ (- Eh)) in *.
    assert (Hk : exists n Mq Eq_,
               along m (w, h) = n /\ 1 <= n
               /\ along m (Z.max 1 kw, Z.max 1 kh) = Z.max 1 (Zpos Mq / 2 ^ (- Eq_))
               /\ Eq_ <= 0 /\ 0 <= Zpos Mq / 2 ^ (- Eq_) <= 900
               /\ Z.abs (2 * n * 2 ^ (- Es) * 2 ^ (- Eq_) - 2 * Zpos Mq * Zpos Ms) <= Zpos Ms).
    { destruct m; cbn [along fst snd].
      - exists h, Mh, Eh. repeat split; (assumption || lia || reflexivity).
      - exists w, Mw, Ew. repeat split; (assumption || lia || reflexivity).
      - exists h, Mh, Eh. repeat split; (assumption || lia || reflexivity). }
    destruct Hk as (n & Mq & Eq_ & -> & Hn & Hd & HEq & Hkq & Hq).
    rewrite Hd in Hc. clear Hd.
    set (k := Zpos Mq / 2 ^ (- Eq_)) in *.
    assert (Hcr : 0 <= c <= Z.max 1 k - 1).
    { destruct Hc as [-> | Hc]; [|lia].
      split; [apply Z.div_pos; lia|].
      assert (Z.max 1 k / 2 < Z.max 1 k) by (apply Z.div_lt_upper_bound; lia). lia. }
    destruct (Z.eq_dec c 0) as [-> | Hc0].
    + unfold to_full, int_mul_float in Hfull. cbn in Hfull.
      injection Hfull as <-. lia.
    + destruct (to_full_floor c Ms Es ltac:(change (2 ^ 10) with 1024; lia) HN HE)
        as (M & E & _ & HEn & HabsM & Hfull' & _).
      rewrite Hfull' in Hfull. injection Hfull as <-.
      assert (HT : 0 < 2 ^ (- E)) by (apply pow2_pos; lia).
      assert (HTq : 0 < 2 ^ (- Eq_)) by (apply pow2_pos; lia).
      assert (HTs : 0 < 2 ^ (- Es)) by (apply pow2_pos; lia).
      split; [apply Z.div_pos; lia|].
      apply (seam_below n c (Zpos Ms) (2 ^ (- Es)) (Zpos Mq) (2 ^ (- Eq_)) (Zpos M) (2 ^ (- E)));
        try lia; try assumption.
      assert (Hfl : k * 2 ^ (- Eq_) <= Zpos Mq).
      { unfold k. rewrite Z.mul_comm. apply Z.mul_div_le. exact HTq. }
      assert ((c + 1) * 2 ^ (- Eq_) <= k * 2 ^ (- Eq_)) by (apply Z.mul_le_mono_nonneg_r; lia).
      lia.
Qed.


End Seam.

(** * The orientation test *)

(** The decision of the auto mode in exact arithmetic. *)
Lemma choose_mode_auto w h :
  0 < w < 2 ^ 31 -> 0 < h < 2 ^ 31 ->
  choose_mode Auto w h =
  Ret (if 27 * h <=? 20 * w then Some Vertical
       else if 27 * w <=? 20 * h then Some Horizontal else None).
Proof.
  intros Hw Hh. unfold choose_mode, is_probably_double_page.
  rewrite !Z.max_l by lia.
  destruct (ratio_test w h Hw Hh) as (rv & Hrv & Hv).
  destruct (ratio_test h w Hh Hw) as (rh & Hrh & Hhh).
  rewrite Hrv. cbn [bind]. rewrite Hv.
  destruct (27 * h <=? 20 * w); [reflexivity|].
  rewrite Hrh. cbn [bind]. rewrite Hhh.
  destruct (27 * w <=? 20 * h); reflexivity.
Qed.

(** * Lists of coordinates and samples *)

Lemma in_zrange lo hi i : In i (zrange lo hi) <-> lo <= i < hi.
Proof.
  unfold zrange. rewrite in_map_iff. split.
  - intros (k & <- & Hk). apply in_seq in Hk. lia.
  - intros Hi. exists (Z.to_nat (i - lo)). split; [lia|]. apply in_seq. lia.
Qed.

Lemma flat_map_ext_in {A B} (f g : A -> list B) l :
  (forall a, In a l -> f a = g a) -> flat_map f l = flat_map g l.
Proof.
  induction l as [|a l IH]; intros H; [reflexivity|].
  cbn [flat_map]. rewrite (H a (or_introl eq_refl)). f_equal.
  apply IH. intros b Hb. apply H. right. exact Hb.
Qed.

(** Two rasters of the same size with the same samples have the same
    sample list, hence the same histogram. *)
Lemma pixels_ext a b :
  size a = size b ->
  (forall x y, 0 <= x < fst (size a) -> 0 <= y < snd (size a) ->
               getpixel a x y = getpixel b x y) ->
  pixels a = pixels b.
Proof.
  intros Hs H. unfold pixels. rewrite <- Hs.
  apply flat_map_ext_in. intros y Hy. apply in_zrange in Hy.
  apply map_ext_in. intros x Hx. apply in_zrange in Hx.
  apply H; lia.
Qed.


(** A candidate of the locator, or the midline, has a non-empty band. *)
Lemma candidate_band d c band_px :
  1 <= d -> 2 <= band_px -> (c = d / 2 \/ 1 <= c <= d - 2) ->
  0 <= fst (band_extent d c band_px) < snd (band_extent d c band_px)
  /\ snd (band_extent d c band_px) <= d.
Proof.
  intros Hd Hb Hc. unfold band_extent. cbn [fst snd].
  assert (0 <= band_px / 2) by (apply Z.div_pos; lia).
  assert (c < d).
  { destruct Hc as [-> | Hc]; [apply Z.div_lt_upper_bound; lia | lia]. }
  assert (0 <= c).
  { destruct Hc as [-> | Hc]; [apply Z.div_pos; lia | lia]. }
  lia.
Qed.

(** * The loop keeps the first minimum *)

Lemma search_loop_first_some score xs : forall b0 s0 best bs,
  search_loop score xs (b0, Some s0) = Ret (best, bs) ->
  exists b, bs = Some b
    /\ ((best = b0 /\ b = s0 /\ forall x s, In x xs -> score x = Ret s -> s0 <= s)
        \/ (exists l1 l2, xs = l1 ++ best :: l2 /\ score best = Ret b /\ b < s0
              /\ (forall x s, In x l1 -> score x = Ret s -> b < s)
              /\ (forall x s, In x l2 -> score x = Ret s -> b <= s))).
Proof.
  induction xs as [|x xs IH]; intros b0 s0 best bs H.
  - cbn in H. injection H as <- <-. exists s0. split; [reflexivity|]. left.
    repeat split. intros x s [].
  - cbn [search_loop] in H. destruct (score x) as [s|] eqn:Hsx; [|discriminate].
    cbn [bind snd] in H.
    destruct (Z.ltb_spec s s0) as [Hlt | Hge].
    + apply IH in H. destruct H as (b & -> & [(-> & -> & Hall) | (l1 & l2 & -> & Hb & Hlt' & H1 & H2)]).
      * exists s. split; [reflexivity|]. right. exists [], xs.
        repeat split; try assumption. intros x0 s' [].
      * exists b. split; [reflexivity|]. right. exists (x :: l1), l2.
        repeat split; try assumption; try lia.
        intros x0 s' [<- | Hin] Hs'; [|eauto].
        rewrite Hsx in Hs'. injection Hs' as <-. lia.
    + apply IH in H. destruct H as (b & -> & [(-> & -> & Hall) | (l1 & l2 & -> & Hb & Hlt' & H1 & H2)]).
      * exists s0. split; [reflexivity|]. left. repeat split.
        intros x0 s' [<- | Hin] Hs'; [|eauto].
        rewrite Hsx in Hs'. injection Hs' as <-. lia.
      * exists b. split; [reflexivity|]. right. exists (x :: l1), l2.
        repeat split; try assumption.
        intros x0 s' [<- | Hin] Hs'; [|eauto].
        rewrite Hsx in Hs'. injection Hs' as <-. lia.
Qed.

Lemma search_loop_first score xs mid best bs :
  search_loop score xs (mid, None) = Ret (best, bs) ->
  (xs = [] /\ best = mid /\ bs = None)
  \/ exists l1 l2 b, bs = Some b /\ xs = l1 ++ best :: l2 /\ score best = Ret b
       /\ (forall x s, In x l1 -> score x = Ret s -> b < s)
       /\ (forall x s, In x l2 -> score x = Ret s -> b <= s).
Proof.
  destruct xs as [|x xs]; intros H.
  - cbn in H. injection H as <- <-. left. repeat split.
  - right. cbn [search_loop] in H. destruct (score x) as [s|] eqn:Hsx; [|discriminate].
    cbn [bind snd] in H. apply search_loop_first_some in H.
    destruct H as (b & -> & [(-> & -> & Hall) | (l1 & l2 & -> & Hb & Hlt' & H1 & H2)]).
    + exists [], xs, s. repeat split; try assumption. intros x0 s' [].
    + exists (x :: l1), l2, b. repeat split; try assumption.
      intros x0 s' [<- | Hin] Hs'; [|eauto].
      rewrite Hsx in Hs'. injection Hs' as <-. lia.
Qed.

Lemma inside_true im x y :
  0 <= x < fst (size im) -> 0 <= y < snd (size im) -> inside im x y = true.
Proof.
  intros Hx Hy. unfold inside.
  rewrite !andb_true_iff, !Z.leb_le, !Z.ltb_lt. lia.
Qed.

Lemma histogram_ext a b :
  size a = size b ->
  (forall x y, 0 <= x < fst (size a) -> 0 <= y < snd (size a) ->
               getpixel a x y = getpixel b x y) ->
  histogram a = histogram b.
Proof.
  intros Hs H. unfold histogram. rewrite (pixels_ext a b Hs H). reflexivity.
Qed.

(** The score depends on the samples of the band only. *)
Lemma gutter_score_agree m g1 g2 c band_px p0 p1 :
  size g1 = size g2 ->
  (forall a t,
      fst (band_extent (along m (size g1)) c band_px) <= a
        < snd (band_extent (along m (size g1)) c band_px) ->
      p0 <= t < p1 ->
      match m with
      | Vertical => getpixel g1 a t = getpixel g2 a t
      | _ => getpixel g1 t a = getpixel g2 t a
      end) ->
  gutter_score m g1 c band_px p0 p1 = gutter_score m g2 c band_px p0 p1.
Proof.
  intros Hs Hag. rewrite !gutter_score_unfold. unfold band_box. rewrite <- Hs.
  destruct (band_extent (along m (size g1)) c band_px) as [a0 a1]. cbn [fst snd] in Hag.
  destruct (a1 <=? a0); [reflexivity|].
  assert (Hins : forall x y, inside g2 x y = inside g1 x y).
  { intros x y. unfold inside. rewrite Hs. reflexivity. }
  assert (Hcrop : forall l u r d,
             (forall x y, l <= x < r -> u <= y < d -> getpixel g1 x y = getpixel g2 x y) ->
             (band <- crop g1 (l, u, r, d) ;; Ret (score_of_histogram (histogram band)))
             = (band <- crop g2 (l, u, r, d) ;; Ret (score_of_histogram (histogram band)))).
  { intros l u r d Hpx. unfold crop.
    destruct ((r <? l) || (d <? u)); [reflexivity|]. cbn [bind]. do 2 f_equal.
    apply histogram_ext; [reflexivity|]. cbn [size getpixel fst snd]. intros x y Hx Hy.
    rewrite Hins. destruct (inside g1 (x + l) (y + u)); [|reflexivity].
    apply Hpx; lia. }
  destruct m; apply Hcrop; intros x y Hx Hy.
  - exact (Hag y x Hy Hx).
  - exact (Hag x y Hx Hy).
  - exact (Hag y x Hy Hx).
Qed.

(** The product of a candidate by the scale, rounded and then
    truncated, is the exact floor of [c * N / 900], or one less when
    that quotient is an integer. *)
Lemma backmap_floor N c Ms Ts M T :
  0 < c <= 900 -> 0 < N < 2 ^ 31 -> 2 ^ 52 <= Ms -> 2 ^ 21 <= Ts -> 2 ^ 10 <= T -> 0 <= M ->
  Z.abs (2 * N * Ts - 2 * Ms * 900) <= 900 ->
  Z.abs (2 * c * Ms * T - 2 * M * Ts) <= Ts ->
  (M / T) * 900 <= c * N /\ c * N <= (M / T + 1) * 900.
Proof.
  intros Hc HN HMs HTs HT HM H1 H2.
  assert (P52 : 2 ^ 52 = 4503599627370496) by reflexivity.
  assert (P31 : 2 ^ 31 = 2147483648) by reflexivity.
  assert (P21 : 2 ^ 21 = 2097152) by reflexivity.
  assert (P10 : 2 ^ 10 = 1024) by reflexivity.
  set (k := M / T) in *.
  assert (Hk0 : 0 <= k) by (apply Z.div_pos; lia).
  assert (Hfl : k * T <= M < (k + 1) * T).
  { unfold k. pose proof (Z.mul_div_le M T ltac:(lia)).
    pose proof (Z.mul_succ_div_gt M T ltac:(lia)). lia. }
  assert (HcT : 0 <= c * T) by (apply Z.mul_nonneg_nonneg; lia).
  assert (HTT : 0 <= 2 * T * Ts) by (repeat apply Z.mul_nonneg_nonneg; lia).
  split.
  - destruct (Z_le_gt_dec (k * 900) (c * N)) as [|Hn]; [assumption|exfalso].
    assert (A1 : 2 * (k * T) * Ts * 900 <= 2 * M * Ts * 900).
    { apply Z.mul_le_mono_nonneg_r; [lia|]. apply Z.mul_le_mono_nonneg_r; lia. }
    assert (C1 : (2 * Ms * 900) * (c * T) <= (2 * N * Ts + 900) * (c * T)).
    { apply Z.mul_le_mono_nonneg_r; lia. }
    assert (D1 : (c * N + 1) * (2 * T * Ts) <= (k * 900) * (2 * T * Ts)).
    { apply Z.mul_le_mono_nonneg_r; lia. }
    assert (E1 : (900 * c) * T < Ts * T) by (apply Z.mul_lt_mono_pos_r; lia).
    assert (F1 : 900 * Ts < T * Ts) by (apply Z.mul_lt_mono_pos_r; lia).
    lia.
  - destruct (Z_le_gt_dec (c * N) ((k + 1) * 900)) as [|Hn]; [assumption|exfalso].
    assert (A1 : 2 * (M + 1) * Ts * 900 <= 2 * ((k + 1) * T) * Ts * 900).
    { apply Z.mul_le_mono_nonneg_r; [lia|]. apply Z.mul_le_mono_nonneg_r; lia. }
    assert (C1 : (2 * N * Ts) * (c * T) <= (2 * Ms * 900 + 900) * (c * T)).
    { apply Z.mul_le_mono_nonneg_r; lia. }
    assert (D1 : ((k + 1) * 900 + 1) * (2 * T * Ts) <= (c * N) * (2 * T * Ts)).
    { apply Z.mul_le_mono_nonneg_r; lia. }
    assert (E1 : (900 * c) * T < (2 * Ts) * T) by (apply Z.mul_lt_mono_pos_r; lia).
    assert (F1 : 0 <= 900 * Ts) by lia.
    lia.
Qed.

(** What [choose] returns: the midline, or the first least candidate. *)
Lemma choose_first mid scorer xs c :
  choose mid scorer xs = Ret c ->
  exists cs thr,
    scorer mid = Ret cs /\ int_mul_float cs f0_95 = Ret thr
    /\ ((c = mid
         /\ forall x s, In x xs -> scorer x = Ret s -> int_gt_float s thr = true)
        \/ (exists l1 l2 b,
              xs = l1 ++ c :: l2 /\ scorer c = Ret b /\ int_gt_float b thr = false
              /\ (forall x s, In x l1 -> scorer x = Ret s -> b < s)
              /\ (forall x s, In x l2 -> scorer x = Ret s -> b <= s))).
Proof.
  unfold choose. intros H.
  destruct (search_loop scorer xs (mid, None)) as [[best bs]|] eqn:Hloop; [|discriminate].
  cbn [bind] in H.
  destruct (scorer mid) as [cs|] eqn:Hcs; [|discriminate]. cbn [bind] in H.
  destruct (int_mul_float cs f0_95) as [thr|] eqn:Hthr; [|discriminate]. cbn [bind] in H.
  injection H as <-. exists cs, thr. split; [reflexivity|]. split; [exact Hthr|].
  apply search_loop_first in Hloop.
  destruct Hloop as [(-> & -> & ->) | (l1 & l2 & b & -> & -> & Hb & H1 & H2)].
  - left. cbn [falls_back]. split; [reflexivity|]. intros x s [].
  - cbn [falls_back]. destruct (int_gt_float b thr) eqn:Hgt.
    + left. split; [reflexivity|]. intros x s Hin Hs.
      apply (int_gt_float_mono b s); [|exact Hgt].
      apply in_app_or in Hin. destruct Hin as [Hin | [<- | Hin]].
      * pose proof (H1 x s Hin Hs). lia.
      * rewrite Hb in Hs. injection Hs as <-. lia.
      * exact (H2 x s Hin Hs).
    + right. exists l1, l2, b. repeat split; assumption.
Qed.

(** * The candidates are in increasing order *)

Lemma map_seq_split (f : nat -> Z) :
  (forall i j, (i < j)%nat -> f i < f j) ->
  forall l1 a n c l2,
    map f (seq a n) = l1 ++ c :: l2 ->
    (forall x, In x l1 -> x < c) /\ (forall x, In x l2 -> c < x).
Proof.
  intros Hf. induction l1 as [|y l1 IH]; intros a n c l2 H.
  - destruct n as [|n]; [discriminate|]. cbn in H. injection H as <- <-.
    split; [intros x []|]. intros x Hx. apply in_map_iff in Hx.
    destruct Hx as (j & <- & Hj). apply in_seq in Hj. apply Hf. lia.
  - destruct n as [|n]; [discriminate|]. cbn in H. injection H as <- H.
    destruct (IH _ _ _ _ H) as [H1 H2]. split; [|exact H2].
    intros x [<- | Hx]; [|exact (H1 x Hx)].
    assert (Hc : In c (map f (seq (S a) n))) by (rewrite H; apply in_elt).
    apply in_map_iff in Hc. destruct Hc as (j & <- & Hj). apply in_seq in Hj.
    apply Hf. lia.
Qed.

Lemma range_split start stop step l1 c l2 :
  1 <= step -> range start stop step = Ret (l1 ++ c :: l2) ->
  (forall x, In x l1 -> x < c) /\ (forall x, In x l2 -> c < x).
Proof.
  intros Hs H. unfold range in H.
  destruct (Z.eqb_spec step 0); [lia|]. injection H as H.
  apply (map_seq_split (fun i => start + Z.of_nat i * step)) in H; [exact H|].
  intros i j Hij. nia.
Qed.

Lemma search_params_range d search band xs band_px :
  search_params d search band = Ret (xs, band_px) ->
  exists start stop step, 1 <= step /\ range start stop step = Ret xs.
Proof.
  unfold search_params. intros H.
  destruct (int_mul_float d search) as [t|]; [|discriminate]. cbn [bind] in H.
  destruct (fdiv t f2_0) as [t2|]; [|discriminate]. cbn [bind] in H.
  destruct (int_of_float t2) as [hw|]; [|discriminate]. cbn [bind] in H.
  destruct (int_mul_float d band) as [tb|]; [|discriminate]. cbn [bind] in H.
  destruct (int_of_float tb) as [ib|]; [|discriminate]. cbn [bind] in H.
  destruct (int_truediv d 500) as [q|]; [|discriminate]. cbn [bind] in H.
  destruct (int_of_float q) as [iq|]; [|discriminate]. cbn [bind] in H.
  destruct (range _ _ _) as [xs'|] eqn:HR; [|discriminate]. cbn [bind] in H.
  injection H as <- _. eexists _, _, _. split; [|exact HR]. lia.
Qed.

(** * Further properties of the locator *)

Section Locator.
Context {P : Pillow}.

(** X1. An image whose sides are at most 900 pixels is analysed at full
    resolution: the analysis image is the grayscale of the image
    itself, the scale is exactly [1.0], and the back-mapping
    [int(best * 1.0)] changes nothing.  The locator's result is the
    selected candidate itself: the midline [dim // 2] or a position in
    [[1, dim - 2]]. *)
Theorem small_image_seam_exact (m : mode) (img : image) (search band : float) (w h : Z) :
  im_size img = (w, h) -> 1 <= w <= 900 -> 1 <= h <= 900 ->
  analysis img = Ret (convert_L (convert_RGB img), f1_0)
  /\ find_split m img search band =
     (mg <- margins (across m (w, h)) ;;
      let '(p0, p1) := mg in
      sp <- search_params (along m (w, h)) search band ;;
      let '(xs, band_px) := sp in
      choose (along m (w, h) / 2)
             (fun x => gutter_score m (convert_L (convert_RGB img)) x band_px p0 p1) xs)
  /\ (forall z, find_split m img search band = Ret z ->
        z = along m (w, h) / 2 \/ 1 <= z <= along m (w, h) - 2).
Proof.
  intros Hsz Hw Hh.
  pose proof (analysis_small img w h Hsz Hw Hh) as Ha.
  assert (Hgs : size (convert_L (convert_RGB img)) = (w, h)).
  { rewrite convert_L_size, convert_RGB_size. exact Hsz. }
  assert (Hal : 1 <= along m (w, h) <= 900) by (destruct m; cbn [along fst snd]; lia).
  assert (Hone : forall c, c = along m (w, h) / 2 \/ 1 <= c <= along m (w, h) - 2 ->
                           to_full c f1_0 = Ret c).
  { intros c Hc. apply to_full_one. change (2 ^ 10) with 1024.
    destruct Hc as [-> | Hc]; [|lia].
    split; [apply Z.div_pos; lia | apply Z.div_lt_upper_bound; lia]. }
  split; [exact Ha|]. split.
  - rewrite find_split_stages, Ha. cbn [bind]. rewrite Hgs.
    destruct (margins (across m (w, h))) as [[p0 p1]|]; [|reflexivity]. cbn [bind].
    destruct (search_params (along m (w, h)) search band) as [[xs band_px]|] eqn:Hsp;
      [|reflexivity].
    cbn [bind].
    destruct (choose (along m (w, h) / 2)
                (fun x => gutter_score m (convert_L (convert_RGB img)) x band_px p0 p1) xs)
      as [c|] eqn:Hc; [|reflexivity].
    cbn [bind]. apply Hone.
    destruct (choose_inv _ _ _ _ Hc) as [-> | Hin]; [left; reflexivity|right].
    exact (search_params_inv _ _ _ _ _ Hsp c Hin).
  - intros z Hz. destruct (find_split_inv m img search band _ _ z Ha Hz) as (c & Hc & Hfull).
    rewrite Hgs in Hc. rewrite (Hone c Hc) in Hfull. injection Hfull as <-. exact Hc.
Qed.

(** X2. An image with a side above 900 pixels is resampled, and the
    float arithmetic of the downsampler is exact up to one pixel: each
    side of the analysis image is [max(1, k)] where [k] is the floor of
    [side * 900 / max(w, h)], or one less than it when that quotient is
    an integer.  In particular the long side of the analysis image is
    899 or 900. *)
Theorem analysis_size_exact (img : image) (w h : Z) :
  im_size img = (w, h) -> 1 <= w < 2 ^ 31 -> 1 <= h < 2 ^ 31 -> 900 < Z.max w h ->
  exists gray scale kw kh,
    analysis img = Ret (gray, scale)
    /\ size gray = (Z.max 1 kw, Z.max 1 kh)
    /\ kw * Z.max w h <= w * 900 <= (kw + 1) * Z.max w h
    /\ kh * Z.max w h <= h * 900 <= (kh + 1) * Z.max w h
    /\ 899 <= Z.max (fst (size gray)) (snd (size gray)) <= 900.
Proof.
  intros Hsz Hw Hh Hbig.
  destruct (analysis_large img w h Hsz Hw Hh Hbig)
    as (gray & Ms & Es & Mw & Ew & Mh & Eh & Ha & Hgs & HN & HE & HMT & Habs
        & HNw & HNh & HEw & HEh & Haw & Hah & Hbw & Hbh).
  assert (HTs : 2 ^ 21 <= 2 ^ (- Es)) by (apply Z.pow_le_mono_r; lia).
  assert (HTw : 0 < 2 ^ (- Ew)) by (apply pow2_pos; lia).
  assert (HTh : 0 < 2 ^ (- Eh)) by (apply pow2_pos; lia).
  pose proof (resample_floor (Z.max w h) w 900 (Zpos Ms) (2 ^ (- Es)) (Zpos Mw) (2 ^ (- Ew))
                ltac:(lia) ltac:(lia) ltac:(lia) (proj1 HN) HTs (proj1 HNw) HTw Habs Haw
                (proj2 Hbw)) as Fw.
  pose proof (resample_floor (Z.max w h) h 900 (Zpos Ms) (2 ^ (- Es)) (Zpos Mh) (2 ^ (- Eh))
                ltac:(lia) ltac:(lia) ltac:(lia) (proj1 HN) HTs (proj1 HNh) HTh Habs Hah
                (proj2 Hbh)) as Fh.
  exists gray, (S754_finite false Ms Es), (Zpos Mw / 2 ^ (- Ew)), (Zpos Mh / 2 ^ (- Eh)).
  split; [exact Ha|]. split; [exact Hgs|].
  split; [lia|]. split; [lia|].
  rewrite Hgs. cbn [fst snd].
  set (kw := Zpos Mw / 2 ^ (- Ew)) in *. set (kh := Zpos Mh / 2 ^ (- Eh)) in *.
  destruct (Z.max_spec w h) as [[Hlt HM] | [Hge HM]]; rewrite HM in *.
  - assert (899 <= kh).
    { destruct Fh as [_ Fh]. rewrite (Z.mul_comm h 900) in Fh.
      apply Z.mul_le_mono_pos_r in Fh; lia. }
    lia.
  - assert (899 <= kw).
    { destruct Fw as [_ Fw]. rewrite (Z.mul_comm w 900) in Fw.
      apply Z.mul_le_mono_pos_r in Fw; lia. }
    lia.
Qed.

(** X3. The seam returned by a locator always lies inside the image:
    it is at least 0 and at most [dim - 1], where [dim] is the
    full-resolution size along the search axis.  Hence of the two
    clamps applied in [main], [max(1, min(dim - 1, split))], only the
    lower one can change the value. *)
Theorem seam_inside_image (m : mode) (img : image) (search band : float) (w h z : Z) :
  im_size img = (w, h) -> 1 <= w < 2 ^ 31 -> 1 <= h < 2 ^ 31 ->
  find_split m img search band = Ret z ->
  0 <= z <= along m (w, h) - 1
  /\ clamp_seam (along m (w, h)) z = Z.max 1 z.
Proof.
  intros Hsz Hw Hh Hz.
  pose proof (find_split_bounds m img search band w h z Hsz Hw Hh Hz) as Hin.
  split; [exact Hin | unfold clamp_seam; lia].
Qed.

(** X5. In auto mode the per-image step of [main] always completes on
    an image with sides in [[1, 2^31)], and never produces an empty
    page.  Either both aspect ratios are below 27/20 and the image is
    skipped, or it is split along the longer axis: the first page is
    [max(1, s)] pixels long and the second is the rest, where [s] is
    the locator's seam, both at least one pixel, and both keep the
    other dimension. *)
Theorem auto_pages_nonempty (im : image) (search band : float) (w h : Z) :
  im_size im = (w, h) -> 1 <= w < 2 ^ 31 -> 1 <= h < 2 ^ 31 ->
  fraction search = true -> fraction band = true ->
  (20 * w < 27 * h /\ 20 * h < 27 * w
   /\ process_image Auto im search band = Ret None)
  \/ (exists a b s,
        process_image Auto im search band = Ret (Some (a, b))
        /\ ((27 * h <= 20 * w
             /\ find_split_vertical im search band = Ret s
             /\ 1 <= Z.max 1 s <= w - 1
             /\ im_size a = (Z.max 1 s, h) /\ im_size b = (w - Z.max 1 s, h))
            \/ (27 * w <= 20 * h
                /\ find_split_horizontal im search band = Ret s
                /\ 1 <= Z.max 1 s <= h - 1
                /\ im_size a = (w, Z.max 1 s) /\ im_size b = (w, h - Z.max 1 s)))).
Proof.
  intros Hsz Hw Hh Hs Hb. unfold process_image. rewrite Hsz.
  rewrite choose_mode_auto by lia. cbn [bind].
  destruct (Z.leb_spec (27 * h) (20 * w)) as [Hv | Hv].
  - right.
    destruct (find_split_total Vertical im search band w h Hsz Hw Hh Hs Hb) as (s & Hfs).
    pose proof (find_split_bounds Vertical im search band w h s Hsz Hw Hh Hfs) as Hin.
    cbn [find_split along fst] in Hfs, Hin.
    unfold split_image. rewrite Hsz, Hfs. cbn [bind].
    replace (clamp_seam w s) with (Z.max 1 s) by (unfold clamp_seam; lia).
    destruct (im_crop_spec im 0 0 (Z.max 1 s) h) as (a & Ha & Hsa); try lia.
    destruct (im_crop_spec im (Z.max 1 s) 0 w h) as (b & Hb' & Hsb); try lia.
    rewrite Ha, Hb'. cbn [bind]. exists a, b, s. split; [reflexivity|]. left.
    rewrite Hsa, Hsb. repeat split; try assumption; try lia; f_equal; lia.
  - destruct (Z.leb_spec (27 * w) (20 * h)) as [Hh' | Hh'].
    + right.
      destruct (find_split_total Horizontal im search band w h Hsz Hw Hh Hs Hb) as (s & Hfs).
      pose proof (find_split_bounds Horizontal im search band w h s Hsz Hw Hh Hfs) as Hin.
      cbn [find_split along snd] in Hfs, Hin.
      unfold split_image. rewrite Hsz, Hfs. cbn [bind].
      replace (clamp_seam h s) with (Z.max 1 s) by (unfold clamp_seam; lia).
      destruct (im_crop_spec im 0 0 w (Z.max 1 s)) as (a & Ha & Hsa); try lia.
      destruct (im_crop_spec im 0 (Z.max 1 s) w h) as (b & Hb' & Hsb); try lia.
      rewrite Ha, Hb'. cbn [bind]. exists a, b, s. split; [reflexivity|]. right.
      rewrite Hsa, Hsb. repeat split; try assumption; try lia; f_equal; lia.
    + left. repeat split; lia.
Qed.

End Locator.

(** X6. Splitting loses and duplicates nothing.  For a grayscale image
    split by [main]'s two crops, every sample of the source is the
    sample at the same place of the first page when it lies before the
    seam, and of the second page, shifted by the seam, otherwise; the
    pages' sizes along the split axis add up to the source's. *)
Theorem split_preserves_pixels (m : mode) (im a b : gray_image) (search band : float) :
  split_image (P := GrayPillow) m im search band = Ret (a, b) ->
  along m (size a) + along m (size b) = along m (size im)
  /\ forall x y, 0 <= x < fst (size im) -> 0 <= y < snd (size im) ->
       getpixel im x y =
       match m with
       | Vertical =>
           if x <? fst (size a) then getpixel a x y else getpixel b (x - fst (size a)) y
       | _ =>
           if y <? snd (size a) then getpixel a x y else getpixel b x (y - snd (size a))
       end.
Proof.
  unfold split_image. cbn [im_size im_crop GrayPillow].
  destruct (size im) as [w h] eqn:Hsz. intros H.
  assert (Hin : forall x y, 0 <= x < w -> 0 <= y < h -> inside im x y = true).
  { intros x y Hx Hy. apply inside_true; rewrite Hsz; assumption. }
  destruct m.
  - destruct (find_split_horizontal _ _ _) as [s|]; [|discriminate].
    cbn [bind] in H. unfold crop in H.
    destruct ((w <? 0) || (clamp_seam h s <? 0)); [discriminate|]. cbn [bind] in H.
    destruct ((w <? 0) || (h <? clamp_seam h s)); [discriminate|]. cbn [bind] in H.
    injection H as <- <-. cbn [size getpixel along fst snd]. split; [lia|].
    intros x y Hx Hy.
    destruct (Z.ltb_spec y (clamp_seam h s - 0)).
    + rewrite !Z.add_0_r, Hin by lia. reflexivity.
    + rewrite Z.add_0_r. replace (y - (clamp_seam h s - 0) + clamp_seam h s) with y by lia.
      rewrite Hin by lia. reflexivity.
  - destruct (find_split_vertical _ _ _) as [s|]; [|discriminate].
    cbn [bind] in H. unfold crop in H.
    destruct ((clamp_seam w s <? 0) || (h <? 0)); [discriminate|]. cbn [bind] in H.
    destruct ((w <? clamp_seam w s) || (h <? 0)); [discriminate|]. cbn [bind] in H.
    injection H as <- <-. cbn [size getpixel along fst snd]. split; [lia|].
    intros x y Hx Hy.
    destruct (Z.ltb_spec x (clamp_seam w s - 0)).
    + rewrite !Z.add_0_r, Hin by lia. reflexivity.
    + rewrite Z.add_0_r. replace (x - (clamp_seam w s - 0) + clamp_seam w s) with x by lia.
      rewrite Hin by lia. reflexivity.
  - destruct (find_split_horizontal _ _ _) as [s|]; [|discriminate].
    cbn [bind] in H. unfold crop in H.
    destruct ((w <? 0) || (clamp_seam h s <? 0)); [discriminate|]. cbn [bind] in H.
    destruct ((w <? 0) || (h <? clamp_seam h s)); [discriminate|]. cbn [bind] in H.
    injection H as <- <-. cbn [size getpixel along fst snd]. split; [lia|].
    intros x y Hx Hy.
    destruct (Z.ltb_spec y (clamp_seam h s - 0)).
    + rewrite !Z.add_0_r, Hin by lia. reflexivity.
    + rewrite Z.add_0_r. replace (y - (clamp_seam h s - 0) + clamp_seam h s) with y by lia.
      rewrite Hin by lia. reflexivity.
Qed.

(** X7. The scorer reads the band and nothing else: two analysis images
    of the same size whose samples agree on the clamped band (the
    positions [a] along the search axis inside the band's extent and
    [t] across it in [[p0, p1)]) get the same score, whatever they hold
    elsewhere. *)
Theorem score_reads_band_only (m : mode) (g1 g2 : gray_image) (c band_px p0 p1 : Z) :
  size g1 = size g2 ->
  (forall a t,
      fst (band_extent (along m (size g1)) c band_px) <= a
        < snd (band_extent (along m (size g1)) c band_px) ->
      p0 <= t < p1 ->
      match m with
      | Vertical => getpixel g1 a t = getpixel g2 a t
      | _ => getpixel g1 t a = getpixel g2 t a
      end) ->
  gutter_score m g1 c band_px p0 p1 = gutter_score m g2 c band_px p0 p1.
Proof.
  exact (gutter_score_agree m g1 g2 c band_px p0 p1).
Qed.


(** X10. The two aspect tests of the auto mode exclude each other, so
    their order does not matter: turning an image by a quarter (swapping
    width and height) swaps the decisions vertical and horizontal and
    keeps the decision to skip. *)
Theorem auto_mode_transpose (w h : Z) :
  0 < w < 2 ^ 31 -> 0 < h < 2 ^ 31 ->
  choose_mode Auto h w =
  match choose_mode Auto w h with
  | Ret (Some Vertical) => Ret (Some Horizontal)
  | Ret (Some Horizontal) => Ret (Some Vertical)
  | r => r
  end.
Proof.
  intros Hw Hh. rewrite !choose_mode_auto by assumption.
  destruct (Z.leb_spec (27 * h) (20 * w)); destruct (Z.leb_spec (27 * w) (20 * h));
    try reflexivity.
  exfalso. lia.
Qed.

Section BackMapping.
Context {P : Pillow}.

(** X4. For an image with a side above 900 pixels the seam is the
    chosen analysis coordinate [c] scaled back exactly, up to the
    truncation: with [N = max(w, h)], the result of
    [int(c * scale)] is the integer part of [c * N / 900], or one less
    when that quotient is an integer (as for [c = 450], [N = 902]).
    The double rounding of [scale] and of the product never costs more
    than that. *)
Theorem seam_is_exact_floor (m : mode) (img : image) (search band : float) (w h z : Z) :
  im_size img = (w, h) -> 1 <= w < 2 ^ 31 -> 1 <= h < 2 ^ 31 -> 900 < Z.max w h ->
  find_split m img search band = Ret z ->
  exists gray scale c,
    analysis img = Ret (gray, scale)
    /\ (c = along m (size gray) / 2 \/ 1 <= c <= along m (size gray) - 2)
    /\ to_full c scale = Ret z
    /\ z * 900 <= c * Z.max w h <= (z + 1) * 900.
Proof.
  intros Hsz Hw Hh Hbig Hz.
  destruct (analysis_large img w h Hsz Hw Hh Hbig)
    as (gray & Ms & Es & Mw & Ew & Mh & Eh & Ha & Hgs & HN & HE & HMT & Habs
        & HNw & HNh & HEw & HEh & Haw & Hah & Hbw & Hbh).
  destruct (find_split_inv m img search band _ _ z Ha Hz) as (c & Hc & Hfull).
  exists gray, (S754_finite false Ms Es), c.
  split; [exact Ha|]. split; [exact Hc|]. split; [exact Hfull|].
  assert (Hal : 1 <= along m (size gray) <= 900).
  { rewrite Hgs. destruct m; cbn [along fst snd]; lia. }
  assert (Hcr : 0 <= c <= 899).
  { destruct Hc as [-> | Hc]; [|lia].
    split; [apply Z.div_pos; lia|].
    assert (along m (size gray) / 2 < along m (size gray)) by (apply Z.div_lt_upper_bound; lia).
    lia. }
  destruct (Z.eq_dec c 0) as [-> | Hc0].
  - unfold to_full, int_mul_float in Hfull. cbn in Hfull. injection Hfull as <-. lia.
  - destruct (int_mul_float_approx 10 c Ms Es ltac:(change (2 ^ 10) with 1024; lia)
                ltac:(lia) HN ltac:(lia)) as (M & E & HR & HNM & HEM & HabsM).
    unfold to_full in Hfull. rewrite HR in Hfull. cbn [bind] in Hfull.
    rewrite int_of_float_finite in Hfull by lia. injection Hfull as <-.
    assert (HT : 2 ^ 10 <= 2 ^ (- E)) by (apply Z.pow_le_mono_r; lia).
    assert (HTs : 2 ^ 21 <= 2 ^ (- Es)) by (apply Z.pow_le_mono_r; lia).
    pose proof (backmap_floor (Z.max w h) c (Zpos Ms) (2 ^ (- Es)) (Zpos M) (2 ^ (- E))
                  ltac:(lia) ltac:(lia) (proj1 HN) HTs HT ltac:(lia) Habs HabsM) as Hfl.
    lia.
Qed.

End BackMapping.

(** X9. Among equally dark candidates the locator takes the leftmost
    (topmost) one.  The candidates of [search_params] are in increasing
    order, so when a candidate is kept it scores no more than any other
    candidate and strictly less than every candidate before it, and its
    score is not above the threshold [center_score * 0.95]; otherwise
    the midline is returned and every candidate scores above the
    threshold. *)
Theorem locator_takes_leftmost_minimum (d mid : Z) (search band : float) (xs : list Z)
    (band_px : Z) (scorer : Z -> res Z) (c : Z) :
  search_params d search band = Ret (xs, band_px) ->
  choose mid scorer xs = Ret c ->
  exists cs thr,
    scorer mid = Ret cs /\ int_mul_float cs f0_95 = Ret thr
    /\ ((c = mid
         /\ forall x s, In x xs -> scorer x = Ret s -> int_gt_float s thr = true)
        \/ (In c xs
            /\ exists b,
                 scorer c = Ret b /\ int_gt_float b thr = false
                 /\ forall x s, In x xs -> scorer x = Ret s ->
                                b <= s /\ (x < c -> b < s))).
Proof.
  intros Hsp Hc.
  destruct (choose_first mid scorer xs c Hc) as (cs & thr & Hcs & Hthr & Hcase).
  exists cs, thr. split; [exact Hcs|]. split; [exact Hthr|].
  destruct Hcase as [Hfb | (l1 & l2 & b & Hxs & Hb & Hle & H1 & H2)]; [left; exact Hfb|].
  right. destruct (search_params_range _ _ _ _ _ Hsp) as (start & stop & step & Hstep & HR).
  rewrite Hxs in HR. destruct (range_split _ _ _ _ _ _ Hstep HR) as [Hlt Hgt].
  split; [rewrite Hxs; apply in_elt|].
  exists b. split; [exact Hb|]. split; [exact Hle|].
  intros x s Hin Hs. rewrite Hxs in Hin. apply in_app_or in Hin.
  destruct Hin as [Hin | [<- | Hin]].
  - pose proof (H1 x s Hin Hs). lia.
  - rewrite Hb in Hs. injection Hs as <-. lia.
  - pose proof (H2 x s Hin Hs). pose proof (Hgt x Hin). lia.
Qed.

(** * The float computations of the locator on analysis sizes *)

Lemma zrange_forallb (f : Z -> bool) lo hi :
  forallb f (zrange lo hi) = true -> forall n, lo <= n < hi -> f n = true.
Proof.
  intros H n Hn. rewrite forallb_forall in H. apply H, in_zrange. exact Hn.
Qed.

Lemma margins_floor n :
  1 <= n <= 900 -> margins n = Ret (8 * n / 100, 92 * n / 100).
Proof.
  intros Hn.
  assert (H : forallb margins_check (zrange 1 901) = true) by (vm_compute; reflexivity).
  pose proof (zrange_forallb _ _ _ H n ltac:(lia)) as Hc.
  unfold margins_check in Hc. destruct (margins n) as [[p0 p1]|]; [|discriminate].
  apply andb_true_iff in Hc. destruct Hc as [H0 H1].
  apply Z.eqb_eq in H0, H1. subst. reflexivity.
Qed.

(** X12. On an analysis image (sizes up to 900) the margins
    [int(n * 0.08)] and [int(n * 0.92)], computed in double precision,
    are exactly the integer parts of [8n/100] and [92n/100]: rounding
    never moves the scored strip by a pixel. *)
Theorem margins_exact (n : Z) :
  1 <= n <= 900 -> margins n = Ret (8 * n / 100, 92 * n / 100).
Proof.
  exact (margins_floor n).
Qed.

Lemma default_window_spec d :
  1 <= d <= 900 ->
  search_params d f0_12 f0_01
  = Ret (zrange (Z.max 1 (d / 2 - 6 * d / 100)) (Z.min (d - 2) (d / 2 + 6 * d / 100) + 1),
         Z.max 2 (d / 100))
  /\ Z.of_nat (length (zrange (Z.max 1 (d / 2 - 6 * d / 100))
                              (Z.min (d - 2) (d / 2 + 6 * d / 100) + 1))) <= 109.
Proof.
  intros Hd. split.
  - assert (H : forallb search_params_check (zrange 1 901) = true) by (vm_compute; reflexivity).
    pose proof (zrange_forallb _ _ _ H d ltac:(lia)) as Hc.
    unfold search_params_check, default_window in Hc. cbn [fst snd] in Hc.
    destruct (search_params d f0_12 f0_01) as [[xs band_px]|]; [|discriminate].
    destruct (list_eq_dec Z.eq_dec xs _) as [-> |]; [|discriminate].
    apply Z.eqb_eq in Hc. subst. reflexivity.
  - rewrite zrange_length.
    assert (6 * d / 100 <= 54) by (apply Z.div_le_upper_bound; lia).
    assert (0 <= 6 * d / 100) by (apply Z.div_pos; lia).
    lia.
Qed.

(** X13. With the default arguments [--search 0.12 --band 0.01], on an
    analysis dimension [d] between 1 and 900 the double-precision
    window is the integer one: the half window is [6d // 100], the
    stride is 1, the candidates are all the integers from
    [max(1, d//2 - 6d//100)] to [min(d - 2, d//2 + 6d//100)], at most
    109 of them, and the band is [max(2, d // 100)] pixels thick. *)
Theorem default_search_window (d : Z) :
  1 <= d <= 900 ->
  search_params d f0_12 f0_01
  = Ret (zrange (Z.max 1 (d / 2 - 6 * d / 100)) (Z.min (d - 2) (d / 2 + 6 * d / 100) + 1),
         Z.max 2 (d / 100))
  /\ Z.of_nat (length (zrange (Z.max 1 (d / 2 - 6 * d / 100))
                              (Z.min (d - 2) (d / 2 + 6 * d / 100) + 1))) <= 109.
Proof.
  exact (default_window_spec d).
Qed.

(** * The orientation test on sizes with a zero side *)

Lemma ratio_test0 a b :
  0 <= a < 2 ^ 31 -> 0 < b < 2 ^ 31 ->
  exists r, int_truediv a b = Ret r /\ fge r f1_35 = (27 * b <=? 20 * a).
Proof.
  intros Ha Hb. destruct (Z.eq_dec a 0) as [-> | Ha0].
  - exists (S754_zero false). unfold int_truediv.
    destruct (Z.eqb_spec b 0); [lia|]. cbn [Z.eqb].
    destruct (Z.ltb_spec b 0); [lia|]. split; [reflexivity|].
    destruct (Z.leb_spec (27 * b) (20 * 0)); [lia | reflexivity].
  - apply ratio_test; lia.
Qed.

(** X11. The guards [max(h, 1)] and [max(w, 1)] make the aspect test
    total on sizes with a zero side: it never divides by zero, and it
    decides as if the zero side were 1, so an image with a zero side is
    classified by the other side alone. *)
Theorem classifier_zero_sizes (w h : Z) :
  0 <= w < 2 ^ 31 -> 0 <= h < 2 ^ 31 ->
  choose_mode Auto w h =
  Ret (if 27 * Z.max h 1 <=? 20 * w then Some Vertical
       else if 27 * Z.max w 1 <=? 20 * h then Some Horizontal else None).
Proof.
  intros Hw Hh. unfold choose_mode, is_probably_double_page.
  assert (P31 : 2 ^ 31 = 2147483648) by reflexivity.
  destruct (ratio_test0 w (Z.max h 1) Hw ltac:(lia)) as (rv & Hrv & Hv).
  destruct (ratio_test0 h (Z.max w 1) Hh ltac:(lia)) as (rh & Hrh & Hhh).
  rewrite Hrv. cbn [bind]. rewrite Hv.
  destruct (27 * Z.max h 1 <=? 20 * w); [reflexivity|].
  rewrite Hrh. cbn [bind]. rewrite Hhh.
  destruct (27 * Z.max w 1 <=? 20 * h); reflexivity.
Qed.

(** * The two scorers are one, up to transposition *)

Lemma sum_map_zero {A} (l : list A) : sum (map (fun _ => 0) l) = 0.
Proof.
  induction l as [|a l IH]; [reflexivity|]. cbn [map]. rewrite sum_cons, IH. reflexivity.
Qed.

Lemma sum_swap {A B} (phi : A -> B -> Z) (X : list A) (Y : list B) :
  sum (map (fun y => sum (map (fun x => phi x y) X)) Y)
  = sum (map (fun x => sum (map (fun y => phi x y) Y)) X).
Proof.
  induction Y as [|y Y IH].
  - cbn [map]. rewrite sum_map_zero. reflexivity.
  - cbn [map]. rewrite sum_cons, IH.
    rewrite <- sum_map_add. apply sum_map_ext. intros x _. rewrite sum_cons. reflexivity.
Qed.

Lemma count_app i l1 l2 : count i (l1 ++ l2) = count i l1 + count i l2.
Proof.
  unfold count. rewrite filter_app, length_app. lia.
Qed.

Lemma count_flat_map {A} i (g : A -> list byte) l :
  count i (flat_map g l) = sum (map (fun a => count i (g a)) l).
Proof.
  induction l as [|a l IH]; [reflexivity|].
  cbn [flat_map map]. rewrite count_app, sum_cons, IH. reflexivity.
Qed.

Lemma count_map {A} i (g : A -> byte) l :
  count i (map g l) = sum (map (fun a => if intensity (g a) =? i then 1 else 0) l).
Proof.
  induction l as [|a l IH]; [reflexivity|].
  cbn [map]. rewrite count_cons, sum_cons, IH. reflexivity.
Qed.

(** Transposing a raster permutes its samples: the histogram is kept. *)
Lemma histogram_transpose im : histogram (transpose im) = histogram im.
Proof.
  unfold histogram. cbv zeta. apply map_ext. intros i.
  unfold pixels, transpose. cbn [size getpixel fst snd].
  rewrite !count_flat_map.
  rewrite (sum_map_ext _ (fun y => sum (map (fun x => if intensity (getpixel im y x) =? i
                                                      then 1 else 0)
                                            (zrange 0 (snd (size im))))))
    by (intros y _; apply count_map).
  rewrite (sum_map_ext (fun a => count i _)
             (fun y => sum (map (fun x => if intensity (getpixel im x y) =? i then 1 else 0)
                                (zrange 0 (fst (size im))))))
    by (intros y _; apply count_map).
  apply (sum_swap (fun x y => if intensity (getpixel im y x) =? i then 1 else 0)).
Qed.

Lemma inside_transpose im x y : inside (transpose im) x y = inside im y x.
Proof.
  unfold inside, transpose. cbn [size fst snd].
  destruct (0 <=? x), (x <? snd (size im)), (0 <=? y), (y <? fst (size im)); reflexivity.
Qed.

(** The horizontal scorer on the transposed image. *)
Lemma gutter_score_transpose gray c band_px p0 p1 :
  gutter_score_horizontal (transpose gray) c band_px p0 p1
  = gutter_score_vertical gray c band_px p0 p1.
Proof.
  unfold gutter_score_horizontal, gutter_score_vertical, transpose at 1.
  cbn [size]. destruct (size gray) as [w h] eqn:Hsz. cbn [fst snd].
  destruct (Z.min w (Z.max 0 (c - band_px / 2) + band_px) <=? Z.max 0 (c - band_px / 2));
    [reflexivity|].
  set (x0 := Z.max 0 (c - band_px / 2)). set (x1 := Z.min w (x0 + band_px)).
  unfold crop. rewrite orb_comm.
  destruct ((x1 <? x0) || (p1 <? p0)); [reflexivity|]. cbn [bind]. do 2 f_equal.
  rewrite <- (histogram_transpose
                {| size := (x1 - x0, p1 - p0);
                   getpixel := fun x y => if inside gray (x + x0) (y + p0)
                                          then getpixel gray (x + x0) (y + p0) else x00 |}).
  apply histogram_ext; [reflexivity|].
  cbn [size getpixel transpose fst snd]. intros x y _ _.
  rewrite inside_transpose. reflexivity.
Qed.

Lemma search_loop_ext f g xs :
  (forall x, f x = g x) -> forall st, search_loop f xs st = search_loop g xs st.
Proof.
  intros H. induction xs as [|x xs IH]; intros st; [reflexivity|].
  cbn [search_loop]. rewrite H. destruct (g x) as [s|]; [|reflexivity].
  cbn [bind]. apply IH.
Qed.

Lemma choose_ext mid f g xs :
  (forall x, f x = g x) -> choose mid f xs = choose mid g xs.
Proof.
  intros H. unfold choose. rewrite (search_loop_ext f g xs H), H. reflexivity.
Qed.

(** X15. The horizontal scorer is the vertical scorer on the transposed
    image: for every analysis image, center, band thickness and
    perpendicular range, [gutter_score_horizontal] on the image turned
    over its diagonal returns what [gutter_score_vertical] returns on
    the image (the same score, the same sentinel, the same error). *)
Theorem scorers_agree_by_transposition (gray : gray_image) (c band_px p0 p1 : Z) :
  gutter_score_horizontal (transpose gray) c band_px p0 p1
  = gutter_score_vertical gray c band_px p0 p1.
Proof.
  exact (gutter_score_transpose gray c band_px p0 p1).
Qed.

(** X16. The horizontal locator is the vertical locator on the
    transposed image.  For a grayscale image of at most 900 pixels a
    side, which is analysed as it is, [find_split_horizontal] on the
    image turned over its diagonal returns exactly what
    [find_split_vertical] returns on the image, for every search and
    band fraction: the two functions are the same algorithm on swapped
    axes. *)
Theorem locators_agree_by_transposition (im : gray_image) (search band : float) (w h : Z) :
  size im = (w, h) -> 1 <= w <= 900 -> 1 <= h <= 900 ->
  find_split_horizontal (P := GrayPillow) (transpose im) search band
  = find_split_vertical (P := GrayPillow) im search band.
Proof.
  intros Hsz Hw Hh.
  assert (HszT : size (transpose im) = (h, w)).
  { unfold transpose. cbn [size]. rewrite Hsz. reflexivity. }
  rewrite (find_split_horizontal_stages (P := GrayPillow)).
  rewrite (find_split_vertical_stages (P := GrayPillow)).
  rewrite (analysis_small (P := GrayPillow) im w h Hsz Hw Hh).
  rewrite (analysis_small (P := GrayPillow) (transpose im) h w HszT Hh Hw).
  cbn [bind convert_RGB convert_L GrayPillow]. rewrite HszT, Hsz. cbn [fst snd].
  destruct (margins h) as [[p0 p1]|]; [|reflexivity]. cbn [bind].
  destruct (search_params w search band) as [[xs band_px]|]; [|reflexivity]. cbn [bind].
  rewrite (choose_ext _ (fun y => gutter_score_horizontal (transpose im) y band_px p0 p1)
             (fun x => gutter_score_vertical im x band_px p0 p1)); [reflexivity|].
  intros x. apply gutter_score_transpose.
Qed.

(** * What the locator reads with the default arguments *)

Lemma search_loop_ext_in f g xs :
  (forall x, In x xs -> f x = g x) -> forall st, search_loop f xs st = search_loop g xs st.
Proof.
  induction xs as [|x xs IH]; intros H st; [reflexivity|].
  cbn [search_loop]. rewrite (H x (or_introl eq_refl)).
  destruct (g x) as [s|]; [|reflexivity]. cbn [bind].
  apply IH. intros y Hy. apply H. right. exact Hy.
Qed.

Lemma choose_ext_in mid f g xs :
  f mid = g mid -> (forall x, In x xs -> f x = g x) -> choose mid f xs = choose mid g xs.
Proof.
  intros Hm H. unfold choose. rewrite (search_loop_ext_in f g xs H), Hm. reflexivity.
Qed.

(** X14. With the default arguments and an image of at most 900 pixels
    a side, the seam depends only on the central strip of the image:
    two grayscale images of the same size that agree on the positions
    from [d//2 - 6d//100 - b//2] up to [d//2 + 6d//100 + b] along the
    search axis ([d] its size, [b = max(2, d // 100)] the band) and
    between the margins [8n // 100] and [92n // 100] across it get the
    same seam, whatever they hold near the edges. *)
Theorem default_locator_reads_center_only (m : mode) (g1 g2 : gray_image) (w h : Z) :
  size g1 = (w, h) -> size g2 = (w, h) -> 1 <= w <= 900 -> 1 <= h <= 900 ->
  (forall a t,
      along m (w, h) / 2 - 6 * along m (w, h) / 100 - Z.max 2 (along m (w, h) / 100) / 2 <= a
        < along m (w, h) / 2 + 6 * along m (w, h) / 100 + Z.max 2 (along m (w, h) / 100) ->
      8 * across m (w, h) / 100 <= t < 92 * across m (w, h) / 100 ->
      match m with
      | Vertical => getpixel g1 a t = getpixel g2 a t
      | _ => getpixel g1 t a = getpixel g2 t a
      end) ->
  find_split (P := GrayPillow) m g1 f0_12 f0_01
  = find_split (P := GrayPillow) m g2 f0_12 f0_01.
Proof.
  intros Hs1 Hs2 Hw Hh Hag.
  rewrite !(find_split_stages (P := GrayPillow)).
  rewrite (analysis_small (P := GrayPillow) g1 w h Hs1 Hw Hh).
  rewrite (analysis_small (P := GrayPillow) g2 w h Hs2 Hw Hh).
  cbn [bind convert_RGB convert_L GrayPillow]. rewrite Hs1, Hs2.
  set (d := along m (w, h)) in *. set (n := across m (w, h)) in *.
  assert (Hd : 1 <= d <= 900) by (unfold d; destruct m; cbn [along fst snd]; lia).
  assert (Hn : 1 <= n <= 900) by (unfold n; destruct m; cbn [across fst snd]; lia).
  rewrite (margins_floor n Hn). cbn [bind].
  rewrite (proj1 (default_window_spec d Hd)). cbn [bind].
  set (bp := Z.max 2 (d / 100)) in *. set (hw := 6 * d / 100) in *.
  assert (Hhw : 0 <= hw) by (apply Z.div_pos; lia).
  assert (Hbp2 : 0 <= bp / 2) by (apply Z.div_pos; lia).
  assert (Hmid : 0 <= d / 2) by (apply Z.div_pos; lia).
  assert (Hscore : forall c, d / 2 - hw <= c <= d / 2 + hw -> 0 <= c ->
             gutter_score m g1 c bp (8 * n / 100) (92 * n / 100)
             = gutter_score m g2 c bp (8 * n / 100) (92 * n / 100)).
  { intros c Hc Hc0. apply gutter_score_agree; [congruence|].
    rewrite Hs1. fold d. unfold band_extent. cbn [fst snd].
    intros a t Ha Ht. apply Hag; lia. }
  rewrite (choose_ext_in (d / 2)
             (fun x => gutter_score m g1 x bp (8 * n / 100) (92 * n / 100))
             (fun x => gutter_score m g2 x bp (8 * n / 100) (92 * n / 100))); [reflexivity| |].
  - apply Hscore; lia.
  - intros x Hx. apply in_zrange in Hx. apply Hscore; lia.
Qed.

(** * File names *)

Lemma list_of_append a b :
  String.list_ascii_of_string (String.append a b)
  = String.list_ascii_of_string a ++ String.list_ascii_of_string b.
Proof.
  induction a as [|c a IH]; [reflexivity|]. cbn. rewrite IH. reflexivity.
Qed.

Lemma list_of_string_inj a b :
  String.list_ascii_of_string a = String.list_ascii_of_string b -> a = b.
Proof.
  intros H. rewrite <- (String.string_of_list_ascii_of_string a),
              <- (String.string_of_list_ascii_of_string b), H. reflexivity.
Qed.

Lemma length_list_of_string s :
  length (String.list_ascii_of_string s) = String.length s.
Proof.
  induction s as [|c s IH]; [reflexivity|]. cbn. rewrite IH. reflexivity.
Qed.

Lemma app_inj_len {A} (a b x y : list A) :
  length x = length y -> a ++ x = b ++ y -> a = b /\ x = y.
Proof.
  intros Hl H.
  assert (Hab : length a = length b).
  { apply (f_equal (@length A)) in H. rewrite !length_app in H. lia. }
  clear Hl. revert b H Hab.
  induction a as [|c a IH]; intros [|d b] H Hab; try discriminate.
  - split; [reflexivity | exact H].
  - cbn in H. injection H as Hc H'. injection Hab as Hab'. subst d.
    destruct (IH b H' Hab') as [-> ->]. split; reflexivity.
Qed.

(** X17. The two page names differ from each other and from
    [stem + suffix], the name of the source file: a page never has the
    name of the image it comes from, whatever the stem and the suffix. *)
Theorem out_names_fresh (stem suffix : String.string) :
  fst (out_names stem suffix) <> snd (out_names stem suffix)
  /\ fst (out_names stem suffix) <> String.append stem suffix
  /\ snd (out_names stem suffix) <> String.append stem suffix.
Proof.
  unfold out_names. cbn [fst snd]. split; [|split]; intros H;
    apply (f_equal String.list_ascii_of_string) in H;
    rewrite !list_of_append in H; apply app_inv_head in H.
  - apply app_inv_tail in H. discriminate.
  - apply (f_equal (@length _)) in H. rewrite length_app in H. cbn in H. lia.
  - apply (f_equal (@length _)) in H. rewrite length_app in H. cbn in H. lia.
Qed.

(** X18. Pages of different images do not collide.  For two source
    names whose suffixes have the same length (in particular the same
    suffix), equal first page names, or equal second page names, force
    equal stems and suffixes, and a first page name is never a second
    page name. *)
Theorem out_names_no_collision (s1 s2 x1 x2 : String.string) :
  String.length x1 = String.length x2 ->
  (fst (out_names s1 x1) = fst (out_names s2 x2) -> s1 = s2 /\ x1 = x2)
  /\ (snd (out_names s1 x1) = snd (out_names s2 x2) -> s1 = s2 /\ x1 = x2)
  /\ fst (out_names s1 x1) <> snd (out_names s2 x2).
Proof.
  intros Hl. rewrite <- !length_list_of_string in Hl.
  unfold out_names. cbn [fst snd].
  split; [|split]; intros H;
    apply (f_equal String.list_ascii_of_string) in H;
    rewrite !list_of_append, !app_assoc in H;
    apply (app_inj_len _ _ _ _ Hl) in H; destruct H as [H Hx].
  - apply app_inv_tail in H. split; apply list_of_string_inj; assumption.
  - apply app_inv_tail in H. split; apply list_of_string_inj; assumption.
  - apply app_inj_len in H; [|reflexivity]. destruct H as [_ H]. discriminate.
Qed.

(** * Listing the images *)

Lemma fold_left_flat_map {A B S} (f : S -> B -> S) (g : A -> list B) l : forall s,
  fold_left f (flat_map g l) s = fold_left (fun s a => fold_left f (g a) s) l s.
Proof.
  induction l as [|a l IH]; intros s; [reflexivity|].
  cbn [flat_map fold_left]. rewrite fold_left_app. apply IH.
Qed.

Section Listing.
Variable path : Type.
Variable path_eq_dec : forall a b : path, {a = b} + {a <> b}.

(** The loop keeps [seen] equal to the set of the yielded paths, yields
    no path twice, and yields every path it meets. *)
Lemma visit_fold ps : forall seen out,
  NoDup out -> (forall p, In p seen <-> In p out) ->
  NoDup (snd (fold_left (visit path_eq_dec) ps (seen, out)))
  /\ (forall p, In p (snd (fold_left (visit path_eq_dec) ps (seen, out)))
                <-> In p out \/ In p ps).
Proof.
  induction ps as [|q ps IH]; intros seen out Hnd Hs; cbn [fold_left].
  - split; [exact Hnd|]. intros p. cbn. tauto.
  - unfold visit at 2 4. destruct (in_dec path_eq_dec q seen) as [Hq | Hq].
    + destruct (IH seen out Hnd Hs) as [H1 H2]. split; [exact H1|].
      intros p. rewrite H2. cbn [In]. apply Hs in Hq.
      split; [tauto|]. intros [H | [<- | H]]; tauto.
    + assert (Hq' : ~ In q out) by (intros H; apply Hq, Hs, H).
      assert (Hnd' : NoDup (out ++ [q])).
      { apply NoDup_app; [exact Hnd | repeat constructor; intros [] |].
        intros x Hx [<- | []]. exact (Hq' Hx). }
      assert (Hs' : forall p, In p (q :: seen) <-> In p (out ++ [q])).
      { intros p. rewrite in_app_iff. cbn [In]. rewrite Hs. tauto. }
      destruct (IH (q :: seen) (out ++ [q]) Hnd' Hs') as [H1 H2]. split; [exact H1|].
      intros p. rewrite H2, in_app_iff. cbn [In]. tauto.
Qed.

(** X19. [iter_images] yields no path twice, and yields exactly the
    paths matched by one of the twelve patterns
    [*.jpeg *.JPEG *.jpg *.JPG *.png *.PNG *.tif *.TIF *.tiff *.TIFF *.webp *.WEBP]
    (the sorted extensions, each in lower then in upper case), by
    [rglob] when [recursive] is set and by [glob] otherwise.  So [main]
    visits each image once, also when a file matches two patterns, and
    a file is listed only through one of these patterns. *)
Theorem iter_images_spec (glob rglob : path -> String.string -> list path)
    (root : path) (recursive : bool) :
  NoDup (iter_images path_eq_dec glob rglob root recursive)
  /\ forall p,
       In p (iter_images path_eq_dec glob rglob root recursive)
       <-> exists pat,
             In pat ["*.jpeg"; "*.JPEG"; "*.jpg"; "*.JPG"; "*.png"; "*.PNG";
                     "*.tif"; "*.TIF"; "*.tiff"; "*.TIFF"; "*.webp"; "*.WEBP"]%string
             /\ In p ((if recursive then rglob root else glob root) pat).
Proof.
  unfold iter_images. cbv zeta.
  set (glob_fn := if recursive then rglob root else glob root).
  rewrite <- (fold_left_flat_map
                (fun st pat => fold_left (visit path_eq_dec) (glob_fn pat) st)
                patterns_of (sorted IMAGE_EXTS)).
  rewrite <- (fold_left_flat_map (visit path_eq_dec) glob_fn).
  change (flat_map patterns_of (sorted IMAGE_EXTS))
    with ["*.jpeg"; "*.JPEG"; "*.jpg"; "*.JPG"; "*.png"; "*.PNG";
          "*.tif"; "*.TIF"; "*.tiff"; "*.TIFF"; "*.webp"; "*.WEBP"]%string.
  set (pats := ["*.jpeg"; "*.JPEG"; "*.jpg"; "*.JPG"; "*.png"; "*.PNG";
                "*.tif"; "*.TIF"; "*.tiff"; "*.TIFF"; "*.webp"; "*.WEBP"]%string).
  destruct (visit_fold (flat_map glob_fn pats) [] [] (NoDup_nil _)
              (fun p => conj (fun H => H) (fun H => H))) as [Hnd Hin].
  split; [exact Hnd|]. intros p. rewrite Hin, in_flat_map. cbn [In]. tauto.
Qed.

End Listing.

(** * The counters of [main] *)

Section MainFacts.
Context {P : Pillow} {F : FileSystem}.

Lemma loop_body_counters a in_root out_root dr st p n :
  counters_ok (match dr with None => false | Some _ => true end) n (snd st) ->
  counters_ok (match dr with None => false | Some _ => true end) (n + 1)
              (snd (loop_body a in_root out_root dr st p)).
Proof.
  destruct st as [w cs]. unfold loop_body, counters_ok. cbn [snd].
  intros (H1 & H2 & H3 & H4 & H5 & H6 & H7).
  destruct dr as [dest|];
    destruct (with_block a in_root out_root p w) as [w1 [[ | | ] | e]];
    try destruct (maybe_move_original p in_root dest w1) as [w2 [u | e']];
    cbn [snd total_written total_split skipped_single errors];
    repeat split; try lia; intros; try discriminate;
    try specialize (H7 eq_refl); lia.
Qed.

Lemma loop_counters a in_root out_root dr imgs : forall st n,
  counters_ok (match dr with None => false | Some _ => true end) n (snd st) ->
  counters_ok (match dr with None => false | Some _ => true end)
              (n + Z.of_nat (length imgs))
              (snd (fold_left (loop_body a in_root out_root dr) imgs st)).
Proof.
  induction imgs as [|p imgs IH]; intros st n H.
  - cbn [fold_left length]. rewrite Z.add_0_r. exact H.
  - cbn [fold_left]. replace (n + Z.of_nat (length (p :: imgs)))
      with (n + 1 + Z.of_nat (length imgs)) by (cbn [length]; lia).
    apply IH. apply loop_body_counters. exact H.
Qed.

Lemma main_loop_ok a in_root out_root dr imgs w :
  counters_ok (match dr with None => false | Some _ => true end)
              (Z.of_nat (length imgs))
              (snd (main_loop a in_root out_root dr imgs w)).
Proof.
  unfold main_loop.
  apply (loop_counters a in_root out_root dr imgs _ 0).
  unfold counters_ok. cbn. repeat split; lia.
Qed.

(** X20. The summary of [main] is consistent whatever the file system
    and Pillow do.  After the loop over [n] images: the pages written
    are twice the images split; no counter is negative; an image is
    never counted both as split and as skipped, nor both as skipped and
    as failed, so that [split + skipped_single] and
    [skipped_single + errors] are at most [n]; and without
    [--organize] the three counters together are at most [n]. *)
Theorem main_loop_counters (a : args) (in_root out_root : fpath) (double_root : option fpath)
    (imgs : list fpath) (w : world) :
  let cs := snd (main_loop a in_root out_root double_root imgs w) in
  let cs0 := snd (main_loop a in_root out_root None imgs w) in
  let n := Z.of_nat (length imgs) in
  total_written cs = 2 * total_split cs
  /\ 0 <= total_split cs /\ 0 <= skipped_single cs /\ 0 <= errors cs
  /\ total_split cs + skipped_single cs <= n
  /\ skipped_single cs + errors cs <= n
  /\ total_split cs0 + skipped_single cs0 + errors cs0 <= n.
Proof.
  cbv zeta.
  destruct (main_loop_ok a in_root out_root double_root imgs w)
    as (H1 & H2 & H3 & H4 & H5 & H6 & _).
  destruct (main_loop_ok a in_root out_root None imgs w) as (_ & _ & _ & _ & _ & _ & H7).
  repeat split; try assumption. apply H7. reflexivity.
Qed.

(** With an explicit direction the [with] block is never left by the
    first [continue]. *)
Lemma with_block_explicit a in_root out_root p w :
  arg_mode a = Vertical \/ arg_mode a = Horizontal ->
  snd (with_block a in_root out_root p w) <> Done Skipped_single.
Proof.
  intros Hm. unfold with_block, io_bind, lift, io_ret, ensure_dir, safe_save.
  destruct (Image_open p w) as [w1 [im | e]]; [|cbn; discriminate].
  destruct (im_size im) as [iw ih].
  assert (Hcm : choose_mode (arg_mode a) iw ih = Ret (Some (arg_mode a))).
  { destruct Hm as [-> | ->]; reflexivity. }
  rewrite Hcm.
  destruct (relative_to (parent p) in_root) as [rel | e]; [|cbn; discriminate].
  destruct (mkdir (joinpath out_root rel) w1) as [w2 [u | e]]; [|cbn; discriminate].
  destruct (out_names (stem p) (suffix p)) as [n1 n2].
  destruct (path_exists (joinname (joinpath out_root rel) n1) w2) as [w3 [e1 | e]];
    [|cbn; discriminate].
  destruct e1; cbn [andb];
    repeat first
      [ discriminate
      | progress cbn [snd]
      | match goal with
        | |- context [match ?x with _ => _ end] => destruct x
        end ].
Qed.

Lemma loop_explicit a in_root out_root dr imgs :
  arg_mode a = Vertical \/ arg_mode a = Horizontal ->
  forall st, skipped_single (snd st) = 0 ->
  skipped_single (snd (fold_left (loop_body a in_root out_root dr) imgs st)) = 0.
Proof.
  intros Hm. induction imgs as [|p imgs IH]; intros st H; [exact H|].
  cbn [fold_left]. apply IH. destruct st as [w cs]. unfold loop_body.
  pose proof (with_block_explicit a in_root out_root p w Hm) as Hne.
  destruct (with_block a in_root out_root p w) as [w1 [[ | | ] | e]]; cbn [snd] in *;
    try exact H; try congruence.
  destruct dr as [dest|]; [|exact H].
  destruct (maybe_move_original p in_root dest w1) as [w2 [u | e]]; exact H.
Qed.

(** X21. With an explicit direction ([--mode vertical] or
    [--mode horizontal]) no image is skipped as a single page: the
    counter [skipped_single] is 0 at the end of the loop, whatever the
    sizes of the images. *)
Theorem explicit_mode_never_skips (a : args) (in_root out_root : fpath)
    (double_root : option fpath) (imgs : list fpath) (w : world) :
  arg_mode a = Vertical \/ arg_mode a = Horizontal ->
  skipped_single (snd (main_loop a in_root out_root double_root imgs w)) = 0.
Proof.
  intros Hm. unfold main_loop. apply loop_explicit; [exact Hm | reflexivity].
Qed.

End MainFacts.

(** X22. With [--organize] the counters of the summary can overlap: the
    original is moved after the image has been counted as split, inside
    the same [try], so a failure of the move counts the image as an
    error as well.  On a file system that refuses to rename, a run over
    one image ends with [total_split = 1], [total_written = 2] and
    [errors = 1]: more than the one image scanned. *)
Theorem organize_counts_twice :
  exists (F : @FileSystem GrayPillow) (a : args) (in_root out_root dest : @fpath _ F)
         (imgs : list (@fpath _ F)) (w : @world _ F),
    let r := main_loop a in_root out_root (Some dest) imgs w in
    Z.of_nat (length imgs) = 1
    /\ total_split (snd r) = 1 /\ total_written (snd r) = 2 /\ errors (snd r) = 1
    /\ Z.of_nat (length imgs) < total_split (snd r) + errors (snd r).
Proof.
  exists ExampleFS,
    {| arg_force := false; arg_mode := Vertical; arg_search := f0_12; arg_band := f0_01 |},
    String.EmptyString, String.EmptyString, "double"%string, ["a"%string],
    (@nil String.string).
  vm_compute. repeat split; reflexivity.
Qed.

(** * Bands that are empty across the search axis *)

Lemma zrange_head lo hi : lo < hi -> exists tl, zrange lo hi = lo :: tl.
Proof.
  intros H. unfold zrange.
  destruct (Z.to_nat (hi - lo)) as [|n] eqn:E; [lia|].
  cbn [seq map]. eexists. f_equal. lia.
Qed.

(** Once the best score is 0 no later candidate replaces it. *)
Lemma search_loop_zero scorer xs b :
  (forall x, In x xs -> scorer x = Ret 0) ->
  search_loop scorer xs (b, Some 0) = Ret (b, Some 0).
Proof.
  induction xs as [|x xs IH]; intros H; [reflexivity|].
  cbn [search_loop]. rewrite (H x (or_introl eq_refl)). cbn [bind snd].
  apply IH. intros y Hy. apply H. right. exact Hy.
Qed.

(** When the midline and every candidate score 0, the first candidate
    is kept: [0 > 0 * 0.95] is false. *)
Lemma choose_all_zero mid scorer x xs :
  scorer mid = Ret 0 ->
  (forall y, In y (x :: xs) -> scorer y = Ret 0) ->
  choose mid scorer (x :: xs) = Ret x.
Proof.
  intros Hmid H. unfold choose. cbn [search_loop].
  rewrite (H x (or_introl eq_refl)). cbn [bind snd].
  rewrite search_loop_zero by (intros y Hy; apply H; right; exact Hy).
  cbn [bind]. rewrite Hmid. cbn [bind].
  vm_compute. reflexivity.
Qed.

(** The scorer on a band whose perpendicular range is empty: the crop
    has no pixel and the score is 0. *)
Lemma gutter_score_empty_range m gray c band_px p :
  fst (band_extent (along m (size gray)) c band_px)
    < snd (band_extent (along m (size gray)) c band_px) ->
  gutter_score m gray c band_px p p = Ret 0.
Proof.
  intros Hext.
  destruct (gutter_score_band m gray c band_px p p Hext ltac:(lia)) as (band & _ & HR & Hlen).
  rewrite HR. destruct (pixels band) as [|q ps]; [reflexivity|].
  exfalso. rewrite Z.sub_diag, Z.mul_0_r in Hlen. cbn [length] in Hlen. lia.
Qed.

Section EmptyAcross.
Context {P : Pillow}.

(** C5. The degenerate band that the scorer does not detect.  The
    guard of the scorer looks at the extent of the band along the
    search axis only.  When the analysis image is one pixel across the
    search axis, both margins are 0, every band the locator scores has
    zero area, and each of them scores 0, the best possible score,
    instead of [10^18]; so with the default arguments the first
    candidate of the window is selected, whatever the image holds, and
    the seam is that candidate mapped to full resolution.  From 17
    pixels along the axis on, it lies before the midline. *)
Theorem C5_zero_area_band_selected (m : mode) (img : image) (gray : gray_image)
    (scale : float) (d : Z) :
  analysis img = Ret (gray, scale) ->
  along m (size gray) = d -> across m (size gray) = 1 -> 3 <= d <= 900 ->
  margins (across m (size gray)) = Ret (0, 0)
  /\ (forall c, c = d / 2 \/ 1 <= c <= d - 2 ->
        band_area d c (Z.max 2 (d / 100)) 0 0 = 0
        /\ gutter_score m gray c (Z.max 2 (d / 100)) 0 0 = Ret 0
        /\ gutter_score m gray c (Z.max 2 (d / 100)) 0 0 <> Ret sentinel)
  /\ find_split m img f0_12 f0_01 = to_full (Z.max 1 (d / 2 - 6 * d / 100)) scale
  /\ (scale = f1_0 -> find_split m img f0_12 f0_01 = Ret (Z.max 1 (d / 2 - 6 * d / 100)))
  /\ (17 <= d -> Z.max 1 (d / 2 - 6 * d / 100) < d / 2).
Proof.
  intros Ha Hal Hac Hd.
  assert (Hm : margins 1 = Ret (0, 0)) by (vm_compute; reflexivity).
  assert (Hq : 0 <= 6 * d / 100) by (apply Z.div_pos; lia).
  assert (Hq' : 6 * d / 100 <= 54) by (apply Z.div_le_upper_bound; lia).
  assert (Hh : 1 <= d / 2) by (apply Z.div_le_lower_bound; lia).
  assert (Hh2 : d / 2 <= 450) by (apply Z.div_le_upper_bound; lia).
  assert (Hh' : d / 2 <= d - 2 \/ d = 3).
  { destruct (Z.eq_dec d 3) as [-> | Hne]; [right; reflexivity|left].
    assert (d / 2 < d - 1) by (apply Z.div_lt_upper_bound; lia). lia. }
  assert (Hscore : forall c, c = d / 2 \/ 1 <= c <= d - 2 ->
            gutter_score m gray c (Z.max 2 (d / 100)) 0 0 = Ret 0).
  { intros c Hc. apply gutter_score_empty_range. rewrite Hal.
    apply (candidate_band d c (Z.max 2 (d / 100))); [lia | lia | exact Hc]. }
  assert (Hfs : find_split m img f0_12 f0_01
                = to_full (Z.max 1 (d / 2 - 6 * d / 100)) scale).
  { rewrite find_split_stages, Ha. cbn [bind]. rewrite Hac, Hm, Hal. cbn [bind].
    destruct (default_window_spec d ltac:(lia)) as [Hsp _]. rewrite Hsp. cbn [bind].
    destruct (zrange_head (Z.max 1 (d / 2 - 6 * d / 100))
                (Z.min (d - 2) (d / 2 + 6 * d / 100) + 1)) as (tl & Hz).
    { destruct Hh' as [Hh' | ->]; [lia | vm_compute; reflexivity]. }
    rewrite Hz. rewrite choose_all_zero; [reflexivity | |].
    - apply Hscore. left. reflexivity.
    - intros y Hy. apply Hscore. right.
      rewrite <- Hz in Hy. apply in_zrange in Hy. lia. }
  split; [rewrite Hac; exact Hm|].
  split.
  { intros c Hc. split; [|split].
    - unfold band_area. rewrite Z.sub_diag. cbn [Z.max]. apply Z.mul_0_r.
    - apply Hscore. exact Hc.
    - rewrite (Hscore c Hc). intros E. vm_compute in E. discriminate E. }
  split; [exact Hfs|].
  split.
  - intros ->. rewrite Hfs. apply to_full_one. change (2 ^ 10) with 1024. lia.
  - intros H17.
    assert (1 <= 6 * d / 100) by (apply Z.div_le_lower_bound; lia).
    assert (8 <= d / 2) by (apply Z.div_le_lower_bound; lia). lia.
Qed.

End EmptyAcross.

(** * Instances of the properties on concrete inputs *)

Lemma small_image_seam_exact_witness :
  analysis (uniform 100 20 x80) = Ret (uniform 100 20 x80, f1_0)
  /\ forall z, find_split Vertical (uniform 100 20 x80) f0_12 f0_01 = Ret z ->
               z = 50 \/ 1 <= z <= 98.
Proof.
  destruct (small_image_seam_exact (P := GrayPillow) Vertical (uniform 100 20 x80)
              f0_12 f0_01 100 20) as (Ha & _ & Hz).
  - reflexivity.
  - lia.
  - lia.
  - split; [exact Ha | exact Hz].
Defined.

Lemma analysis_size_exact_witness :
  exists gray scale kw kh,
    analysis (uniform 1000 20 x80) = Ret (gray, scale)
    /\ size gray = (Z.max 1 kw, Z.max 1 kh)
    /\ kw * 1000 <= 1000 * 900 <= (kw + 1) * 1000
    /\ kh * 1000 <= 20 * 900 <= (kh + 1) * 1000
    /\ 899 <= Z.max (fst (size gray)) (snd (size gray)) <= 900.
Proof.
  apply (analysis_size_exact (P := GrayPillow) (uniform 1000 20 x80) 1000 20).
  - reflexivity.
  - vm_compute. split; [discriminate | reflexivity].
  - vm_compute. split; [discriminate | reflexivity].
  - reflexivity.
Defined.

Lemma seam_inside_image_witness :
  0 <= 50 <= 100 - 1 /\ clamp_seam 100 50 = Z.max 1 50.
Proof.
  apply (seam_inside_image (P := GrayPillow) Vertical (uniform 100 20 x80) f0_12 f0_01 100 20 50).
  - reflexivity.
  - vm_compute. split; [discriminate | reflexivity].
  - vm_compute. split; [discriminate | reflexivity].
  - vm_compute. reflexivity.
Defined.

Lemma auto_pages_nonempty_witness :
  (20 * 100 < 27 * 20 /\ 20 * 20 < 27 * 100
   /\ process_image Auto (uniform 100 20 x80) f0_12 f0_01 = Ret None)
  \/ (exists a b s,
        process_image Auto (uniform 100 20 x80) f0_12 f0_01 = Ret (Some (a, b))
        /\ ((27 * 20 <= 20 * 100
             /\ find_split_vertical (uniform 100 20 x80) f0_12 f0_01 = Ret s
             /\ 1 <= Z.max 1 s <= 100 - 1
             /\ size a = (Z.max 1 s, 20) /\ size b = (100 - Z.max 1 s, 20))
            \/ (27 * 100 <= 20 * 20
                /\ find_split_horizontal (uniform 100 20 x80) f0_12 f0_01 = Ret s
                /\ 1 <= Z.max 1 s <= 20 - 1
                /\ size a = (100, Z.max 1 s) /\ size b = (100, 20 - Z.max 1 s)))).
Proof.
  apply (auto_pages_nonempty (P := GrayPillow) (uniform 100 20 x80) f0_12 f0_01 100 20).
  - reflexivity.
  - vm_compute. split; [discriminate | reflexivity].
  - vm_compute. split; [discriminate | reflexivity].
  - reflexivity.
  - reflexivity.
Defined.

Lemma split_preserves_pixels_witness :
  exists a b,
    split_image Vertical (uniform 100 20 x80) f0_12 f0_01 = Ret (a, b)
    /\ fst (size a) + fst (size b) = 100
    /\ getpixel (uniform 100 20 x80) 70 3
       = if 70 <? fst (size a) then getpixel a 70 3 else getpixel b (70 - fst (size a)) 3.
Proof.
  destruct (split_image (P := GrayPillow) Vertical (uniform 100 20 x80) f0_12 f0_01)
    as [[a b]|] eqn:Hsp; [|vm_compute in Hsp; discriminate].
  destruct (split_preserves_pixels Vertical (uniform 100 20 x80) a b f0_12 f0_01 Hsp)
    as [Hsum Hpx].
  exists a, b. split; [reflexivity|]. split; [exact Hsum|].
  apply (Hpx 70 3); cbn; lia.
Defined.

Lemma score_reads_band_only_witness :
  gutter_score Vertical (uniform 10 10 x00) 2 2 0 10
  = gutter_score Vertical
      {| size := (10, 10); getpixel := fun x _ => if x <? 5 then x00 else xff |} 2 2 0 10.
Proof.
  apply (score_reads_band_only Vertical (uniform 10 10 x00)
           {| size := (10, 10); getpixel := fun x _ => if x <? 5 then x00 else xff |} 2 2 0 10).
  - reflexivity.
  - cbn. intros a t Ha Ht. destruct (Z.ltb_spec a 5); [reflexivity | lia].
Defined.


Lemma auto_mode_transpose_witness :
  choose_mode Auto 1000 2000 =
  match choose_mode Auto 2000 1000 with
  | Ret (Some Vertical) => Ret (Some Horizontal)
  | Ret (Some Horizontal) => Ret (Some Vertical)
  | r => r
  end.
Proof.
  apply (auto_mode_transpose 2000 1000).
  - vm_compute. split; reflexivity.
  - vm_compute. split; reflexivity.
Defined.

Lemma margins_exact_witness : margins 20 = Ret (1, 18).
Proof.
  apply (margins_exact 20). lia.
Defined.

Lemma default_search_window_witness :
  search_params 100 f0_12 f0_01 = Ret (zrange 44 57, 2)
  /\ Z.of_nat (length (zrange 44 57)) <= 109.
Proof.
  apply (default_search_window 100). lia.
Defined.

Lemma classifier_zero_sizes_witness :
  choose_mode Auto 0 5 = Ret (Some Horizontal).
Proof.
  apply (classifier_zero_sizes 0 5).
  - vm_compute. split; [discriminate | reflexivity].
  - vm_compute. split; [discriminate | reflexivity].
Defined.

Lemma locators_agree_by_transposition_witness :
  find_split_horizontal (transpose (uniform 100 20 x80)) f0_12 f0_01
  = find_split_vertical (uniform 100 20 x80) f0_12 f0_01.
Proof.
  apply (locators_agree_by_transposition (uniform 100 20 x80) f0_12 f0_01 100 20).
  - reflexivity.
  - lia.
  - lia.
Defined.

Lemma out_names_no_collision_witness :
  fst (out_names "deed"%string ".png"%string)
  <> snd (out_names "deed"%string ".PNG"%string).
Proof.
  apply (out_names_no_collision "deed"%string "deed"%string ".png"%string ".PNG"%string).
  reflexivity.
Defined.

Lemma explicit_mode_never_skips_witness :
  skipped_single
    (snd (main_loop (F := ExampleFS)
            {| arg_force := false; arg_mode := Vertical;
               arg_search := f0_12; arg_band := f0_01 |}
            String.EmptyString String.EmptyString None ["a"; "b"]%string nil)) = 0.
Proof.
  apply (explicit_mode_never_skips (F := ExampleFS)). left. reflexivity.
Defined.

Lemma seam_is_exact_floor_witness :
  exists gray scale c,
    analysis (uniform 902 20 x80) = Ret (gray, scale)
    /\ (c = along Vertical (size gray) / 2 \/ 1 <= c <= along Vertical (size gray) - 2)
    /\ to_full c scale = Ret 450
    /\ 450 * 900 <= c * Z.max 902 20 <= (450 + 1) * 900.
Proof.
  apply (seam_is_exact_floor (P := GrayPillow) Vertical (uniform 902 20 x80) f0_12 f0_01
           902 20 450).
  - reflexivity.
  - vm_compute. split; [discriminate | reflexivity].
  - vm_compute. split; [discriminate | reflexivity].
  - reflexivity.
  - vm_compute. reflexivity.
Defined.

Lemma locator_takes_leftmost_minimum_witness :
  exists cs thr,
    Ret (if 50 =? 50 then 10 else Z.abs (50 - 50)) = Ret cs
    /\ int_mul_float cs f0_95 = Ret thr
    /\ ((49 = 50
         /\ forall x s, In x (zrange 44 57) ->
                        Ret (if x =? 50 then 10 else Z.abs (x - 50)) = Ret s ->
                        int_gt_float s thr = true)
        \/ (In 49 (zrange 44 57)
            /\ exists b,
                 Ret (if 49 =? 50 then 10 else Z.abs (49 - 50)) = Ret b
                 /\ int_gt_float b thr = false
                 /\ forall x s, In x (zrange 44 57) ->
                                Ret (if x =? 50 then 10 else Z.abs (x - 50)) = Ret s ->
                                b <= s /\ (x < 49 -> b < s))).
Proof.
  apply (locator_takes_leftmost_minimum 100 50 f0_12 f0_01 (zrange 44 57) 2
           (fun x => Ret (if x =? 50 then 10 else Z.abs (x - 50))) 49).
  - vm_compute. reflexivity.
  - vm_compute. reflexivity.
Defined.

Lemma default_locator_reads_center_only_witness :
  find_split (P := GrayPillow) Vertical (uniform 100 20 x80) f0_12 f0_01
  = find_split (P := GrayPillow) Vertical
      {| size := (100, 20); getpixel := fun x _ => if x <? 10 then x00 else x80 |}
      f0_12 f0_01.
Proof.
  apply (default_locator_reads_center_only Vertical (uniform 100 20 x80)
           {| size := (100, 20); getpixel := fun x _ => if x <? 10 then x00 else x80 |}
           100 20).
  - reflexivity.
  - reflexivity.
  - lia.
  - lia.
  - intros a t Ha Ht.
    assert (E : along Vertical (100, 20) / 2 - 6 * along Vertical (100, 20) / 100
                - Z.max 2 (along Vertical (100, 20) / 100) / 2 = 43) by reflexivity.
    rewrite E in Ha. cbn [getpixel uniform].
    destruct (Z.ltb_spec a 10); [lia | reflexivity].
Defined.

Lemma C5_zero_area_band_selected_witness :
  find_split_vertical two_tone_strip f0_12 f0_01 = Ret 44
  /\ gutter_score_vertical two_tone_strip 44 2 0 0 = Ret 0.
Proof.
  destruct (C5_zero_area_band_selected (P := GrayPillow) Vertical two_tone_strip
              two_tone_strip f1_0 100)
    as (_ & Hsc & _ & Hfs & _).
  - vm_compute. reflexivity.
  - reflexivity.
  - reflexivity.
  - lia.
  - split.
    + exact (Hfs eq_refl).
    + apply (Hsc 44). right. lia.
Defined.
